(** * Parallel relaxation: a shallow embedding of the two parallel engines

    The repository holds a shared-memory (pthread) implementation and a
    distributed (MPI) implementation of 4-neighbour Jacobi relaxation on a
    square grid of doubles.

    - [Pthread] embeds the pthread program (second translation unit of
      [src/average_serial.c]): [main], [matrix_init],
      [determine_thread_data], [relax_cells], [relax_matrix_parallel].
    - [Mpi] embeds the MPI program ([src/unnamed/part_000]): [main],
      [matrix_init], [relax_cells], [relax_matrix_parallel].

    Modelling conventions.
    - A C [double] is a Rocq primitive float (IEEE 754 binary64, round to
      nearest even), so [+], [/], [fabs] and [>] are the machine operations.
    - C integers are [Z]. Conversions that can leave the range of the
      target type are written out: [to_size_t] is reduction modulo 2^64,
      [to_int] the two's-complement reading of the low 32 bits.
    - An integer division whose divisor is zero is undefined behaviour; the
      functions that can reach one return [option] and yield [None] there.
    - Arrays are lists. A read outside an array yields [0] and a write
      outside it is dropped; the theorems that speak about cells establish
      that the accesses they describe are inside the array.
    - The barrier-separated phases of the pthread program are run one worker
      after the other, in thread order. Within a phase a worker reads only
      through its [original_matrix] pointer and writes only through its
      [new_matrix] pointer and to its own flag.
    - The MPI collectives are modelled by their effect at the root: a
      scatter hands rank [r] the slice [displ r, displ r + count r) of the
      root's matrix, the all-reduce with [MPI_LAND] is the conjunction of
      the local flags, and the gather stores the first [count r] elements
      of rank [r]'s buffer at [displ r] of the root's matrix. *)

From Stdlib Require Import ZArith Floats Lia Bool.
From stdpp Require Import base list.

Local Open Scope Z_scope.

(** ** Machine integers *)

Definition INT_MAX : Z := 2147483647.

(** Conversion to [size_t] / [uint64_t]. *)
Definition to_size_t (z : Z) : Z := z mod 2 ^ 64.

(** Conversion to [int]. *)
Definition to_int (z : Z) : Z := (z + 2 ^ 31) mod 2 ^ 32 - 2 ^ 31.

(** [(double) n] for an integer [0 <= n < 2^63]. *)
Definition double_of_Z (n : Z) : float := PrimFloat.of_uint63 (Uint63.of_Z n).

(** [for (k = 0; k < n; k++) flags[k] = v]. *)
Fixpoint fill_flags (n : nat) (k : nat) (v : bool) (fl : list bool) : list bool :=
  match n with
  | O => fl
  | S n' => fill_flags n' (S k) v (<[k := v]> fl)
  end.

(** ** The pthread program *)

Module Pthread.

(** [double **]: a list of rows. *)
Abbreviation grid := (list (list float)).

Definition rd (m : grid) (i j : Z) : float :=
  if (0 <=? i) && (0 <=? j)
  then default 0%float (m !! Z.to_nat i ≫= fun row => row !! Z.to_nat j)
  else 0%float.

Definition wr (m : grid) (i j : Z) (v : float) : grid :=
  if (0 <=? i) && (0 <=? j)
  then match m !! Z.to_nat i with
       | Some row => <[Z.to_nat i := <[Z.to_nat j := v]> row]> m
       | None => m
       end
  else m.

(** The global [shared_args]; [matrix = None] is the NULL pointer. *)
Record shared_args_t : Type := {
  size : Z;
  precision : float;
  num_threads : Z;
  matrix : option grid
}.

(** The two buffers that [relax_matrix_parallel] works on: the one its
    [matrix] parameter points to and the one [new_matrix] points to. *)
Inductive ptr : Type := p_matrix | p_new_matrix.

Record thread_args : Type := {
  id : Z;
  start_i : Z;
  start_j : Z;
  cells : Z;
  original_matrix : ptr;
  new_matrix : ptr
}.

(** Memory shared by the coordinator and the workers. *)
Record state : Type := {
  mem_matrix : grid;
  mem_new_matrix : grid;
  thread_data : list thread_args;
  THREAD_PRECISION_REACHED : list bool;
  PRECISION_REACHED : bool;
  iterations : Z
}.

Definition load (st : state) (p : ptr) : grid :=
  match p with
  | p_matrix => mem_matrix st
  | p_new_matrix => mem_new_matrix st
  end.

Definition store (st : state) (p : ptr) (g : grid) : state :=
  match p with
  | p_matrix =>
      {| mem_matrix := g; mem_new_matrix := mem_new_matrix st;
         thread_data := thread_data st;
         THREAD_PRECISION_REACHED := THREAD_PRECISION_REACHED st;
         PRECISION_REACHED := PRECISION_REACHED st;
         iterations := iterations st |}
  | p_new_matrix =>
      {| mem_matrix := mem_matrix st; mem_new_matrix := g;
         thread_data := thread_data st;
         THREAD_PRECISION_REACHED := THREAD_PRECISION_REACHED st;
         PRECISION_REACHED := PRECISION_REACHED st;
         iterations := iterations st |}
  end.

Definition set_flags (st : state) (fl : list bool) : state :=
  {| mem_matrix := mem_matrix st; mem_new_matrix := mem_new_matrix st;
     thread_data := thread_data st;
     THREAD_PRECISION_REACHED := fl;
     PRECISION_REACHED := PRECISION_REACHED st;
     iterations := iterations st |}.

(** What [main] does before it allocates anything: either it returns an
    exit code, or it goes on with the validated [shared_args]. *)
Inductive setup : Type :=
| Exit (code : Z)
| Proceed (sa : shared_args_t).

(** [main], from the parsed arguments ([atoi argv[1]], [atof argv[2]],
    [atoi argv[3]]) to the validated globals. [size > 10e6] compares in
    double; the conversion is monotone and exact around 10^7, so the
    comparison is the one on integers. *)
Definition main_setup (size_arg : Z) (precision_arg : float) (threads_arg : Z)
  : setup :=
  let size := to_size_t size_arg in
  if (size <? 2) || (10000000 <? size) then Exit 1
  else if (precision_arg <=? 0)%float then Exit 1
  else if threads_arg <? 1 then Exit 1
  else
    let inner := to_size_t (to_size_t (size - 2) * to_size_t (size - 2)) in
    let n := if inner <? to_size_t threads_arg then to_int inner
             else threads_arg in
    Proceed {| size := size; precision := precision_arg;
               num_threads := n; matrix := None |}.

(** [j++; if (j == size - 1) { j = 1; i++; }], the step shared by the run
    of a worker and by the partitioner's [while] loop. *)
Definition next_cell (size : Z) (p : Z * Z) : Z * Z :=
  let '(i, j) := p in
  if j + 1 =? size - 1 then (i + 1, 1) else (i, j + 1).

Fixpoint nth_cell (size : Z) (k : nat) (p : Z * Z) : Z * Z :=
  match k with
  | O => p
  | S k' => nth_cell size k' (next_cell size p)
  end.

Section Rand.

(** [RAND_MAX], and the [k]-th value [rand()] returns after [srand(42)]. *)
Variable RAND_MAX : Z.
Variable rand : nat -> Z.

(** One row of the initial matrix; [k] counts the calls to [rand()]. *)
Fixpoint init_row (n : nat) (i j : Z) (k : nat) : list float * nat :=
  match n with
  | O => ([], k)
  | S n' =>
      if (i =? 0) || (j =? 0)
      then let '(row, k') := init_row n' i (j + 1) k in (1%float :: row, k')
      else let '(row, k') := init_row n' i (j + 1) (S k) in
           ((double_of_Z (rand k) / double_of_Z RAND_MAX)%float :: row, k')
  end.

Fixpoint init_rows (n : nat) (sz : nat) (i : Z) (k : nat) : grid :=
  match n with
  | O => []
  | S n' =>
      let '(row, k') := init_row sz i 0 k in
      row :: init_rows n' sz (i + 1) k'
  end.

(** The copy loop of [matrix_init]: [result[i][j] = shared_args.matrix[i][j]]. *)
Definition copy_grid (sz : Z) (m : grid) : grid :=
  map (fun i => map (fun j => rd m (Z.of_nat i) (Z.of_nat j))
                    (seq 0 (Z.to_nat sz)))
      (seq 0 (Z.to_nat sz)).

(** [matrix_init]: the first call fills [shared_args.matrix] and the
    result with the same values; a later call copies [shared_args.matrix]. *)
Definition matrix_init (sa : shared_args_t) : grid * shared_args_t :=
  match matrix sa with
  | Some m => (copy_grid (size sa) m, sa)
  | None =>
      let g := init_rows (Z.to_nat (size sa)) (Z.to_nat (size sa)) 0 0 in
      (g, {| size := size sa; precision := precision sa;
             num_threads := num_threads sa; matrix := Some g |})
  end.

End Rand.

(** The [while (cells_remaining > 0)] loop of [determine_thread_data]. *)
Definition advance_start (size : Z) (cells : Z) (p : Z * Z) : Z * Z :=
  nth_cell size (Z.to_nat cells) p.

(** The [for] loop of [determine_thread_data], from thread [i] on. The
    increment [cells++] is an [int] addition. *)
Fixpoint thread_data_loop (n : nat) (size i cells_per_thread remainder : Z)
    (start : Z * Z) (orig new : ptr) : list thread_args :=
  match n with
  | O => []
  | S n' =>
      let c := if 0 <? remainder then to_int (cells_per_thread + 1)
               else cells_per_thread in
      let remainder' := if 0 <? remainder then remainder - 1 else remainder in
      {| id := i; start_i := fst start; start_j := snd start; cells := c;
         original_matrix := orig; new_matrix := new |}
      :: thread_data_loop n' size (i + 1) cells_per_thread remainder'
           (advance_start size c start) orig new
  end.

(** [determine_thread_data]. [inner_cells / num_threads] and
    [inner_cells % cells_per_thread] are unsigned 64-bit operations whose
    results are stored in [int]s. *)
Definition determine_thread_data (sa : shared_args_t) (orig new : ptr)
  : option (list thread_args) :=
  let inner_cells :=
    to_size_t (to_size_t (size sa - 2) * to_size_t (size sa - 2)) in
  if to_size_t (num_threads sa) =? 0 then None
  else
    let cells_per_thread := to_int (inner_cells / to_size_t (num_threads sa)) in
    if to_size_t cells_per_thread =? 0 then None
    else
      let remainder := to_int (inner_cells mod to_size_t cells_per_thread) in
      Some (thread_data_loop (Z.to_nat (num_threads sa)) (size sa) 0
              cells_per_thread remainder (1, 1) orig new).

(** The four-neighbour average as [relax_cells] writes it:
    left + right + up + down, divided by 4.0. *)
Definition new_value (o : grid) (i j : Z) : float :=
  ((rd o i (j - 1) + rd o i (j + 1) + rd o (i - 1) j + rd o (i + 1) j) / 4)%float.

(** One execution of the body of the [for (c ...)] loop of [relax_cells]. *)
Definition relax_cell (sa : shared_args_t) (t : thread_args) (p : Z * Z)
    (st : state) : state :=
  let '(i, j) := p in
  let v := new_value (load st (original_matrix t)) i j in
  let st1 := store st (new_matrix t) (wr (load st (new_matrix t)) i j v) in
  let difference := PrimFloat.abs (v - rd (load st1 (original_matrix t)) i j) in
  if (precision sa <? difference)%float
  then set_flags st1 (<[Z.to_nat (id t) := false]> (THREAD_PRECISION_REACHED st1))
  else st1.

Fixpoint relax_run (sa : shared_args_t) (t : thread_args) (c : nat)
    (p : Z * Z) (st : state) : state :=
  match c with
  | O => st
  | S c' => relax_run sa t c' (next_cell (size sa) p) (relax_cell sa t p st)
  end.

(** One pass of [relax_cells], up to its first barrier wait. *)
Definition relax_cells (sa : shared_args_t) (t : thread_args) (st : state)
  : state :=
  relax_run sa t (Z.to_nat (cells t)) (start_i t, start_j t) st.

(** The end of the worker's loop body when [PRECISION_REACHED] is false. *)
Definition swap_matrices (t : thread_args) : thread_args :=
  {| id := id t; start_i := start_i t; start_j := start_j t;
     cells := cells t;
     original_matrix := new_matrix t; new_matrix := original_matrix t |}.

(** All workers run their pass; the coordinator waits at the first barrier. *)
Definition compute_phase (sa : shared_args_t) (st : state) : state :=
  fold_left (fun s t => relax_cells sa t s) (thread_data st) st.

(** The coordinator's [for] loop over the flags, with its [break]. *)
Fixpoint check_flags (n : nat) (i : nat) (fl : list bool) (reached : bool)
  : bool :=
  match n with
  | O => reached
  | S n' =>
      if negb (default false (fl !! i)) then false
      else check_flags n' (S i) fl true
  end.

Definition decide_phase (sa : shared_args_t) (st : state) : state :=
  {| mem_matrix := mem_matrix st; mem_new_matrix := mem_new_matrix st;
     thread_data := thread_data st;
     THREAD_PRECISION_REACHED := THREAD_PRECISION_REACHED st;
     PRECISION_REACHED :=
       check_flags (Z.to_nat (num_threads sa)) 0
         (THREAD_PRECISION_REACHED st) (PRECISION_REACHED st);
     iterations := iterations st |}.

(** What happens between the decision and the next pass when the precision
    has not been reached: the coordinator resets the flags and counts the
    iteration, and every worker swaps its two pointers. *)
Definition continue_phase (sa : shared_args_t) (st : state) : state :=
  {| mem_matrix := mem_matrix st; mem_new_matrix := mem_new_matrix st;
     thread_data := map swap_matrices (thread_data st);
     THREAD_PRECISION_REACHED :=
       fill_flags (Z.to_nat (num_threads sa)) 0 true
         (THREAD_PRECISION_REACHED st);
     PRECISION_REACHED := PRECISION_REACHED st;
     iterations := iterations st + 1 |}.

(** One turn of the coordinator's [while (true)] loop, up to the test of
    [PRECISION_REACHED]. *)
Definition iteration (sa : shared_args_t) (st : state) : state :=
  decide_phase sa (compute_phase sa st).

(** The coordinator's loop. [None]: the loop has not ended within [fuel]
    turns. *)
Fixpoint coordinator_loop (fuel : nat) (sa : shared_args_t) (st : state)
  : option state :=
  match fuel with
  | O => None
  | S fuel' =>
      let st' := iteration sa st in
      if PRECISION_REACHED st' then Some st'
      else coordinator_loop fuel' sa (continue_phase sa st')
  end.

(** The memory at the head of the loop after [n] turns none of which
    reached the precision; [None] when the loop ended before. *)
Fixpoint loop_head (n : nat) (sa : shared_args_t) (st : state) : option state :=
  match n with
  | O => Some st
  | S n' =>
      let st' := iteration sa st in
      if PRECISION_REACHED st' then None
      else loop_head n' sa (continue_phase sa st')
  end.

Inductive result : Type :=
| Undefined            (* an integer division by zero was reached *)
| Running              (* the loop has not ended within the fuel *)
| Returned (m : grid).

(** The flags as [main] leaves them: [calloc], then all set to [true]. *)
Definition initial_flags (sa : shared_args_t) : list bool :=
  fill_flags (Z.to_nat (num_threads sa)) 0 true
    (replicate (Z.to_nat (num_threads sa)) false).

(** The memory when the coordinator enters its loop: [m] is the grid its
    parameter [matrix] points to, [new_m] the grid [new_matrix] points to.
    [None]: [determine_thread_data] has divided by zero. *)
Definition initial_state (sa : shared_args_t) (m new_m : grid)
  : option state :=
  match determine_thread_data sa p_matrix p_new_matrix with
  | None => None
  | Some tds =>
      Some {| mem_matrix := m;
              mem_new_matrix := new_m;
              thread_data := tds;
              THREAD_PRECISION_REACHED := initial_flags sa;
              PRECISION_REACHED := false;
              iterations := 0 |}
  end.

(** [relax_matrix_parallel]: [new_matrix] comes from [matrix_init]; the
    function returns what its parameter [matrix] points to. *)
Definition relax_matrix_parallel (RAND_MAX : Z) (rand : nat -> Z)
    (fuel : nat) (sa : shared_args_t) (m : grid) : result :=
  let '(new_m, sa') := matrix_init RAND_MAX rand sa in
  match initial_state sa' m new_m with
  | None => Undefined
  | Some st =>
      match coordinator_loop fuel sa' st with
      | None => Running
      | Some st' => Returned (load st' p_matrix)
      end
  end.

(** The buffer the workers wrote in the turn that ended the loop. *)
Definition last_written (st : state) : grid :=
  match thread_data st with
  | t :: _ => load st (new_matrix t)
  | [] => load st p_new_matrix
  end.

(** How a run of [main] ends: with an exit code before any work, in an
    undefined division, still in the loop when the fuel is used up, or
    with the grid [a] that it prints (at log level INFO) and frees. *)
Inductive exit : Type :=
| ExitCode (code : Z)
| ExitUndefined
| ExitRunning
| ExitPrinted (m : grid).

(** [main]: validation, [matrix_init], [relax_matrix_parallel]. *)
Definition main (RAND_MAX : Z) (rand : nat -> Z) (fuel : nat)
    (size_arg : Z) (precision_arg : float) (threads_arg : Z) : exit :=
  match main_setup size_arg precision_arg threads_arg with
  | Exit c => ExitCode c
  | Proceed sa =>
      let '(a, sa') := matrix_init RAND_MAX rand sa in
      match relax_matrix_parallel RAND_MAX rand fuel sa' a with
      | Undefined => ExitUndefined
      | Running => ExitRunning
      | Returned m => ExitPrinted m
      end
  end.

End Pthread.

(** ** The MPI program *)

Module Mpi.

(** [double *]: the matrix in row-major order. *)
Definition rd (m : list float) (i : Z) : float :=
  if 0 <=? i then default 0%float (m !! Z.to_nat i) else 0%float.

Definition wr (m : list float) (i : Z) (v : float) : list float :=
  if 0 <=? i then <[Z.to_nat i := v]> m else m.

Inductive setup : Type :=
| Exit (code : Z)
| Proceed (size : Z) (precision : float) (num_processes : Z).

(** [main], from the parsed arguments and the size of the communicator to
    the call of [matrix_init]. *)
Definition main_setup (size_arg : Z) (precision_arg : float)
    (num_processes : Z) : setup :=
  let size := to_size_t size_arg in
  if (size <? 2) || (10000000 <? size) then Exit 1
  else if (precision_arg <=? 0)%float then Exit 1
  else if to_size_t (size - 2) <? to_size_t num_processes then Exit 1
  else Proceed size precision_arg num_processes.

(** The test of [matrix_init] on the flat index [i]. *)
Definition on_side (size i : Z) : bool :=
  (i mod size =? 0) || (i <? size)
  || (to_size_t (size * to_size_t (size - 1)) <=? i)
  || (i mod size =? to_size_t (size - 1)).

(** [matrix_init]: [calloc] zeroes the buffer, the loop sets the sides. *)
Definition matrix_init (size : Z) : list float :=
  map (fun i => if on_side size (Z.of_nat i) then 1%float else 0%float)
      (seq 0 (Z.to_nat (to_size_t (size * size)))).

(** Entry [i] of the four arrays [scatter_displ], [scatter_count],
    [gather_count], [gather_displ]; all are [int]s. *)
Record chunk : Type := {
  scatter_displ : Z;
  scatter_count : Z;
  gather_count : Z;
  gather_displ : Z
}.

(** The layout loop of [relax_matrix_parallel], from rank [i] on. All the
    arithmetic is done in [size_t] and stored into [int]s. *)
Fixpoint layout_loop (n : nat) (size rows_per_process rows_remainder
    scatter_offset : Z) : list chunk :=
  match n with
  | O => []
  | S n' =>
      let displ := to_int scatter_offset in
      let count0 := to_int (to_size_t ((rows_per_process + 2) * size)) in
      let count := if 0 <? rows_remainder
                   then to_int (to_size_t (to_size_t count0 + size))
                   else count0 in
      let rows_remainder' := if 0 <? rows_remainder then rows_remainder - 1
                             else rows_remainder in
      let working := to_size_t (to_size_t count - to_size_t (2 * size)) in
      {| scatter_displ := displ; scatter_count := count;
         gather_count := to_int working;
         gather_displ := to_int (to_size_t (to_size_t displ + size)) |}
      :: layout_loop n' size rows_per_process rows_remainder'
           (to_size_t (scatter_offset + working))
  end.

(** The communicator has at least one process, so the divisions are
    defined. *)
Definition layout (size num_processes : Z) : list chunk :=
  let rows_per_process := to_size_t (size - 2) / to_size_t num_processes in
  let rows_remainder := to_size_t (size - 2) mod to_size_t num_processes in
  layout_loop (Z.to_nat num_processes) size rows_per_process rows_remainder 0.

(** The four-neighbour average as [relax_cells] writes it:
    up + down + left + right, divided by 4. *)
Definition new_value (input : list float) (size input_index : Z) : float :=
  ((rd input (input_index - size) + rd input (input_index + size)
    + rd input (input_index - 1) + rd input (input_index + 1)) / 4)%float.

(** One execution of the body of the loop of [relax_cells]. *)
Definition relax_cell (size : Z) (precision : float) (input : list float)
    (input_index result_index : Z) (acc : list float * bool)
  : list float * bool :=
  let '(result, precision_reached) := acc in
  if (to_size_t input_index mod size =? 0)
     || (to_size_t (input_index + 1) mod size =? 0)
  then (wr result result_index (rd input input_index), precision_reached)
  else
    let v := new_value input size input_index in
    (wr result result_index v,
     if precision_reached
        && (precision <? PrimFloat.abs (v - rd input input_index))%float
     then false else precision_reached).

Fixpoint relax_loop (n : nat) (size : Z) (precision : float)
    (input : list float) (input_index result_index : Z)
    (acc : list float * bool) : list float * bool :=
  match n with
  | O => acc
  | S n' =>
      relax_loop n' size precision input (input_index + 1) (result_index + 1)
        (relax_cell size precision input input_index result_index acc)
  end.

(** [relax_cells]: the new [result] buffer and [*precision_reached]. *)
Definition relax_cells (input result : list float) (size input_size : Z)
    (precision : float) : list float * bool :=
  let start := to_int size in
  let end_ := to_int (to_size_t (input_size - size - 1)) in
  relax_loop (Z.to_nat (end_ - start + 1)) size precision input start 0
    (result, true).

(** [MPI_Scatterv]: what rank [r] receives in its [send_buffer]. *)
Definition scatterv (matrix : list float) (c : chunk) : list float :=
  take (Z.to_nat (scatter_count c)) (drop (Z.to_nat (scatter_displ c)) matrix).

Fixpoint write_at (m : list float) (pos : Z) (data : list float) : list float :=
  match data with
  | [] => m
  | x :: data' => write_at (wr m pos x) (pos + 1) data'
  end.

(** [MPI_Gatherv] at the root: every rank's [recv_buffer] is stored at its
    displacement. *)
Fixpoint gatherv (matrix : list float) (cs : list chunk)
    (bufs : list (list float)) : list float :=
  match cs, bufs with
  | c :: cs', b :: bufs' =>
      gatherv (write_at matrix (gather_displ c)
                 (take (Z.to_nat (gather_count c)) b)) cs' bufs'
  | _, _ => matrix
  end.

(** The root's matrix, every rank's [recv_buffer] and the two flags every
    rank holds after the all-reduce. *)
Record state : Type := {
  matrix : list float;
  recv_buffer : list (list float);
  local_precision : list bool;
  global_precision : bool;
  iterations : Z
}.

(** Rank by rank: scatter, then [relax_cells] on the received slice. *)
Fixpoint compute (size : Z) (precision : float) (m : list float)
    (cs : list chunk) (bufs : list (list float))
  : list (list float * bool) :=
  match cs, bufs with
  | c :: cs', b :: bufs' =>
      relax_cells (scatterv m c) b size (to_size_t (scatter_count c)) precision
      :: compute size precision m cs' bufs'
  | _, _ => []
  end.

(** [MPI_Allreduce] with [MPI_LAND]. *)
Definition allreduce_land (flags : list bool) : bool :=
  fold_right andb true flags.

(** One turn of the [while (!global_precision)] loop. *)
Definition iteration (size : Z) (precision : float) (cs : list chunk)
    (st : state) : state :=
  let out := compute size precision (matrix st) cs (recv_buffer st) in
  {| matrix := gatherv (matrix st) cs (map fst out);
     recv_buffer := map fst out;
     local_precision := map snd out;
     global_precision := allreduce_land (map snd out);
     iterations := iterations st + 1 |}.

Fixpoint while_loop (fuel : nat) (size : Z) (precision : float)
    (cs : list chunk) (st : state) : option state :=
  match fuel with
  | O => None
  | S fuel' =>
      if global_precision st then Some st
      else while_loop fuel' size precision cs (iteration size precision cs st)
  end.

(** The state after [n] turns of the loop body. *)
Fixpoint after_iterations (n : nat) (size : Z) (precision : float)
    (cs : list chunk) (st : state) : state :=
  match n with
  | O => st
  | S n' => after_iterations n' size precision cs (iteration size precision cs st)
  end.

Definition initial_state (m : list float) (cs : list chunk) : state :=
  {| matrix := m;
     recv_buffer := map (fun c => replicate (Z.to_nat (gather_count c)) 0%float) cs;
     local_precision := map (fun _ => true) cs;
     global_precision := false;
     iterations := 0 |}.

(** [relax_matrix_parallel] as seen from rank 0; [None]: the loop has not
    ended within [fuel] tests of its condition. *)
Definition relax_matrix_parallel (fuel : nat) (m : list float) (size : Z)
    (precision : float) (num_processes : Z) : option (list float) :=
  let cs := layout size num_processes in
  match while_loop fuel size precision cs (initial_state m cs) with
  | None => None
  | Some st => Some (matrix st)
  end.

(** How a run of [main] ends at rank 0. *)
Inductive exit : Type :=
| ExitCode (code : Z)
| ExitRunning
| ExitPrinted (m : list float).

(** [main]: validation, [matrix_init], [relax_matrix_parallel]. *)
Definition main (fuel : nat) (size_arg : Z) (precision_arg : float)
    (num_processes : Z) : exit :=
  match main_setup size_arg precision_arg num_processes with
  | Exit c => ExitCode c
  | Proceed size precision n =>
      match relax_matrix_parallel fuel (matrix_init size) size precision n with
      | None => ExitRunning
      | Some m => ExitPrinted m
      end
  end.

End Mpi.

(** ** The serial program *)

(** The first translation unit of [src/average_serial.c]. Its
    [matrix_init] has the text of the pthread program's (logging apart)
    and is [Pthread.matrix_init]; its globals have no thread count, and
    the field [num_threads], which [matrix_init] never reads, is 0. *)
Module Serial.

Inductive setup : Type :=
| Exit (code : Z)
| Proceed (sa : Pthread.shared_args_t).

(** [main], from the parsed arguments to the validated globals. *)
Definition main_setup (size_arg : Z) (precision_arg : float) : setup :=
  let size := to_size_t size_arg in
  if (size <? 2) || (10000000 <? size) then Exit 1
  else if (precision_arg <=? 0)%float then Exit 1
  else Proceed {| Pthread.size := size; Pthread.precision := precision_arg;
                  Pthread.num_threads := 0; Pthread.matrix := None |}.

(** [0.25 * (up + down + left + right)]. *)
Definition new_val (matrix : Pthread.grid) (i j : Z) : float :=
  (0.25 * (Pthread.rd matrix (i - 1) j + Pthread.rd matrix (i + 1) j
           + Pthread.rd matrix i (j - 1) + Pthread.rd matrix i (j + 1)))%float.

(** The body of the inner loop: [acc] is the buffer behind [new_matrix]
    and the flag [still_changing]. *)
Definition relax_cell (precision : float) (matrix : Pthread.grid) (i j : Z)
    (acc : Pthread.grid * bool) : Pthread.grid * bool :=
  let '(new_matrix, still_changing) := acc in
  let v := new_val matrix i j in
  let deviation := PrimFloat.abs (Pthread.rd matrix i j - v) in
  (Pthread.wr new_matrix i j v,
   if (precision <? deviation)%float then true else still_changing).

(** [for (j = ...; j < size - 2; j++)], [n] turns from [j]. *)
Fixpoint row_loop (n : nat) (precision : float) (matrix : Pthread.grid)
    (i j : Z) (acc : Pthread.grid * bool) : Pthread.grid * bool :=
  match n with
  | O => acc
  | S n' =>
      row_loop n' precision matrix i (j + 1) (relax_cell precision matrix i j acc)
  end.

(** [for (i = ...; i < size - 2; i++)], [n] turns from [i], each with
    [cols] turns of the inner loop from [j = 1]. *)
Fixpoint rows_loop (n cols : nat) (precision : float) (matrix : Pthread.grid)
    (i : Z) (acc : Pthread.grid * bool) : Pthread.grid * bool :=
  match n with
  | O => acc
  | S n' =>
      rows_loop n' cols precision matrix (i + 1)
        (row_loop cols precision matrix i 1 acc)
  end.

(** One turn of the [while] loop up to the swap: both [for] loops run from
    1 while the counter is below [size - 2], a [size_t]. *)
Definition sweep (size : Z) (precision : float)
    (matrix new_matrix : Pthread.grid) : Pthread.grid * bool :=
  let n := Z.to_nat (to_size_t (size - 2) - 1) in
  rows_loop n n precision matrix 1 (new_matrix, false).

(** The [while (still_changing)] loop. After the sweep the two pointers
    are exchanged: [matrix] points to the buffer just written. [None]: the
    loop has not ended within [fuel] turns. *)
Fixpoint while_loop (fuel : nat) (size : Z) (precision : float)
    (matrix new_matrix : Pthread.grid) : option Pthread.grid :=
  match fuel with
  | O => None
  | S fuel' =>
      let '(written, still_changing) := sweep size precision matrix new_matrix in
      if still_changing then while_loop fuel' size precision written matrix
      else Some written
  end.

(** [serial_average_matrix]: [new_matrix] comes from [matrix_init]; the
    function returns what [matrix] points to when the loop ends. *)
Definition serial_average_matrix (RAND_MAX : Z) (rand : nat -> Z)
    (fuel : nat) (sa : Pthread.shared_args_t) (matrix : Pthread.grid)
  : option Pthread.grid :=
  let '(new_matrix, sa') := Pthread.matrix_init RAND_MAX rand sa in
  while_loop fuel (Pthread.size sa') (Pthread.precision sa') matrix new_matrix.

Inductive exit : Type :=
| ExitCode (code : Z)
| ExitRunning
| ExitPrinted (m : Pthread.grid).

(** [main]: validation, [matrix_init], [serial_average_matrix]. *)
Definition main (RAND_MAX : Z) (rand : nat -> Z) (fuel : nat)
    (size_arg : Z) (precision_arg : float) : exit :=
  match main_setup size_arg precision_arg with
  | Exit c => ExitCode c
  | Proceed sa =>
      let '(a, sa') := Pthread.matrix_init RAND_MAX rand sa in
      match serial_average_matrix RAND_MAX rand fuel sa' a with
      | None => ExitRunning
      | Some m => ExitPrinted m
      end
  end.

End Serial.

(** ** Inputs used in the concrete runs *)

(** A stand-in for the C library's generator: the values lie in
    [0, RAND_MAX] for [RAND_MAX = INT_MAX]. *)
Definition sample_rand (k : nat) : Z :=
  (1103515245 * Z.of_nat k + 12345) mod 2 ^ 31.

(** The cells visited in [c] steps from [p]. *)
Fixpoint run_cells (size : Z) (c : nat) (p : Z * Z) : list (Z * Z) :=
  match c with
  | O => []
  | S c' => p :: run_cells size c' (Pthread.next_cell size p)
  end.

(** The cells a worker is assigned: [cells] steps from its start. *)
Definition assigned (size : Z) (t : Pthread.thread_args) : list (Z * Z) :=
  run_cells size (Z.to_nat (Pthread.cells t))
    (Pthread.start_i t, Pthread.start_j t).

Definition assigned_cells (size : Z) (tds : list Pthread.thread_args)
  : list (Z * Z) :=
  concat (map (assigned size) tds).

(** The partition rule in the words of the specification: base run length
    [total / numWorkers], one extra cell for each of the first
    [total mod numWorkers] workers. *)
Definition spec_run_length (total num_workers k : Z) : Z :=
  total / num_workers + (if k <? total mod num_workers then 1 else 0).

Definition args_5_5 : Pthread.shared_args_t :=
  {| Pthread.size := 5; Pthread.precision := 0.5%float;
     Pthread.num_threads := 5; Pthread.matrix := None |}.

(** The grid of the specification's end-to-end example: top row and left
    column 1, every other cell 0. *)
Definition grid_4x4 : Pthread.grid :=
  [[1; 1; 1; 1]; [1; 0; 0; 0]; [1; 0; 0; 0]; [1; 0; 0; 0]]%float.

Definition args_4x4 : Pthread.shared_args_t :=
  {| Pthread.size := 4; Pthread.precision := 0.5%float;
     Pthread.num_threads := 1; Pthread.matrix := Some grid_4x4 |}.

(** The globals after [./average_parallel 2 precision threads]. *)
Definition args_2 (precision : float) : Pthread.shared_args_t :=
  {| Pthread.size := 2; Pthread.precision := precision;
     Pthread.num_threads := 0; Pthread.matrix := None |}.

(** ** Vocabulary of the statements *)

(** A grid of [sz] rows of [sz] cells. *)
Definition square (sz : Z) (g : Pthread.grid) : Prop :=
  Z.of_nat (length g) = sz /\
  forall r row, g !! r = Some row -> Z.of_nat (length row) = sz.

Definition in_grid (sz : Z) (p : Z * Z) : Prop :=
  0 <= fst p < sz /\ 0 <= snd p < sz.

(** The cells a worker may write: neither on the first nor on the last
    row or column. *)
Definition interior (sz : Z) (p : Z * Z) : Prop :=
  1 <= fst p <= sz - 2 /\ 1 <= snd p <= sz - 2.

(** The cells on one of the four sides. *)
Definition on_boundary (sz : Z) (p : Z * Z) : Prop :=
  in_grid sz p /\
  (fst p = 0 \/ fst p = sz - 1 \/ snd p = 0 \/ snd p = sz - 1).

(** The [k]-th interior cell of a grid whose interior has side [s]. *)
Definition cell_of (s k : Z) : Z * Z := (1 + k / s, 1 + k mod s).

(** Every cell of the run of [t] is an interior cell. *)
Definition run_interior (sz : Z) (t : Pthread.thread_args) : Prop :=
  forall k, (k < Z.to_nat (Pthread.cells t))%nat ->
    interior sz (Pthread.nth_cell sz k (Pthread.start_i t, Pthread.start_j t)).

(** The globals with which [main] calls [relax_matrix_parallel] on a grid
    that has an interior. *)
Definition valid_args (sa : Pthread.shared_args_t) : Prop :=
  3 <= Pthread.size sa <= 10000000 /\
  1 <= Pthread.num_threads sa <= INT_MAX /\
  Pthread.num_threads sa <= (Pthread.size sa - 2) * (Pthread.size sa - 2).

(** The comparison of [relax_cells] on the cell [p] of the grid [o]. *)
Definition exceeds (precision : float) (o : Pthread.grid) (p : Z * Z) : bool :=
  (precision <?
     PrimFloat.abs (Pthread.new_value o (fst p) (snd p)
                    - Pthread.rd o (fst p) (snd p)))%float.

(** The flags after the workers [tds] have compared their cells of the
    grid [cur], starting from the flags [fl]. *)
Definition flags_after (precision : float) (cur : Pthread.grid) (sz : Z)
    (tds : list Pthread.thread_args) (fl : list bool) : list bool :=
  fold_left
    (fun fl t =>
       if existsb (exceeds precision cur) (assigned sz t)
       then <[Z.to_nat (Pthread.id t) := false]> fl else fl)
    tds fl.

(** What holds of the shared memory whenever the coordinator is at the head
    of its loop; [a] is the grid [relax_matrix_parallel] was called with. *)
Record loop_invariant (sa : Pthread.shared_args_t) (a : Pthread.grid)
    (st : Pthread.state) : Prop := {
  inv_matrix : square (Pthread.size sa) (Pthread.mem_matrix st);
  inv_new_matrix : square (Pthread.size sa) (Pthread.mem_new_matrix st);
  inv_pointers :
    exists o nw, o <> nw /\
      forall t, t ∈ Pthread.thread_data st ->
        Pthread.original_matrix t = o /\ Pthread.new_matrix t = nw;
  inv_runs : Forall (run_interior (Pthread.size sa)) (Pthread.thread_data st);
  inv_ids : forall k t, Pthread.thread_data st !! k = Some t ->
              Pthread.id t = Z.of_nat k;
  inv_threads :
    Z.of_nat (length (Pthread.thread_data st)) = Pthread.num_threads sa;
  inv_flags :
    Pthread.THREAD_PRECISION_REACHED st
    = replicate (Z.to_nat (Pthread.num_threads sa)) true;
  inv_boundary : forall q, on_boundary (Pthread.size sa) q ->
    Pthread.rd (Pthread.mem_matrix st) (fst q) (snd q)
      = Pthread.rd a (fst q) (snd q)
    /\ Pthread.rd (Pthread.mem_new_matrix st) (fst q) (snd q)
       = Pthread.rd a (fst q) (snd q)
}.

(** A run of the program that is at the head of the coordinator's loop
    after [n] turns: [sa] are the globals, [a] the initial grid and [st]
    the shared memory. *)
Definition reachable (RAND_MAX : Z) (rand : nat -> Z) (size_arg : Z)
    (precision_arg : float) (threads_arg : Z) (n : nat)
    (sa : Pthread.shared_args_t) (a : Pthread.grid) (st : Pthread.state)
  : Prop :=
  exists sa0 sa1 new_m st0,
    Pthread.main_setup size_arg precision_arg threads_arg = Pthread.Proceed sa0
    /\ threads_arg <= INT_MAX
    /\ Pthread.matrix_init RAND_MAX rand sa0 = (a, sa1)
    /\ Pthread.matrix_init RAND_MAX rand sa1 = (new_m, sa)
    /\ Pthread.initial_state sa a new_m = Some st0
    /\ Pthread.loop_head n sa st0 = Some st.

(** Number of working rows of rank [r]: the base+remainder rule on the
    size-2 interior rows. *)
Definition chunk_rows (size num_processes r : Z) : Z :=
  spec_run_length (size - 2) num_processes r.

(** Number of working rows of the ranks below [r]. *)
Definition chunk_first (size num_processes r : Z) : Z :=
  r * ((size - 2) / num_processes) + Z.min r ((size - 2) mod num_processes).

(** Rank [r] is sent its working rows with the row above and the row
    below, and sends back its working rows. *)
Definition chunk_spec (size num_processes r : Z) : Mpi.chunk :=
  {| Mpi.scatter_displ := chunk_first size num_processes r * size;
     Mpi.scatter_count := (chunk_rows size num_processes r + 2) * size;
     Mpi.gather_count := chunk_rows size num_processes r * size;
     Mpi.gather_displ := (chunk_first size num_processes r + 1) * size |}.

(** Grids with an interior whose size*size cells can be counted in an
    [int], as the counts and displacements of the collectives are, and a
    communicator of at least one process. *)
Definition valid_layout (size num_processes : Z) : Prop :=
  3 <= size /\ 1 <= num_processes <= INT_MAX /\ size * size <= INT_MAX.

(** The positions of the root's matrix that the gather writes, rank by
    rank. *)
Definition gathered (cs : list Mpi.chunk) : list Z :=
  cs ≫= fun c => seqZ (Mpi.gather_displ c) (Mpi.gather_count c).

(** First or last cell of a row of the flat buffer. *)
Definition on_edge (size idx : Z) : bool :=
  (idx mod size =? 0) || ((idx + 1) mod size =? 0).

(** What [relax_cells] stores for the cell [idx] of its input. *)
Definition cell_value (size : Z) (input : list float) (idx : Z) : float :=
  if on_edge size idx then Mpi.rd input idx
  else Mpi.new_value input size idx.

(** The cell [idx] does not clear the flag: it is on an edge, or its change
    is not greater than the precision. *)
Definition cell_within (precision : float) (size : Z) (input : list float)
    (idx : Z) : bool :=
  on_edge size idx
  || negb (precision <?
             PrimFloat.abs (Mpi.new_value input size idx - Mpi.rd input idx))%float.

(** The root's matrix has size*size cells and every rank's [recv_buffer]
    has room for its working rows. *)
Definition mpi_invariant (size P : Z) (st : Mpi.state) : Prop :=
  Z.of_nat (length (Mpi.matrix st)) = size * size
  /\ length (Mpi.recv_buffer st) = length (Mpi.layout size P)
  /\ forall (r : nat) c b,
       Mpi.layout size P !! r = Some c -> Mpi.recv_buffer st !! r = Some b ->
       Z.of_nat (length b) = Mpi.gather_count c.

(** The head of the coordinator's loop after [n] turns of the run
    [./average_parallel size precision threads], when the run gets there. *)
Definition head_of_run (RAND_MAX : Z) (rand : nat -> Z) (size_arg : Z)
    (precision_arg : float) (threads_arg : Z) (n : nat)
  : option (Pthread.shared_args_t * Pthread.grid * Pthread.state) :=
  match Pthread.main_setup size_arg precision_arg threads_arg with
  | Pthread.Exit _ => None
  | Pthread.Proceed sa0 =>
      let '(a, sa1) := Pthread.matrix_init RAND_MAX rand sa0 in
      let '(new_m, sa) := Pthread.matrix_init RAND_MAX rand sa1 in
      match Pthread.initial_state sa a new_m with
      | None => None
      | Some st0 =>
          match Pthread.loop_head n sa st0 with
          | None => None
          | Some st => Some (sa, a, st)
          end
      end
  end.

(** The value [matrix_init] stores for the [k]-th call of [rand()]. *)
Definition random_cell (RAND_MAX : Z) (rand : nat -> Z) (k : nat) : float :=
  (double_of_Z (rand k) / double_of_Z RAND_MAX)%float.

(** The cells the serial program relaxes: rows and columns 1 to size-3. *)
Definition relaxed (sz : Z) (p : Z * Z) : Prop :=
  1 <= fst p <= sz - 3 /\ 1 <= snd p <= sz - 3.

(** The comparison of the serial program on the cell [p]. *)
Definition deviates (precision : float) (matrix : Pthread.grid) (p : Z * Z)
  : bool :=
  (precision <?
     PrimFloat.abs (Pthread.rd matrix (fst p) (snd p)
                    - Serial.new_val matrix (fst p) (snd p)))%float.

(** The grid [matrix_init] builds for the stand-in generator. *)
Definition sample_grid (size : Z) : Pthread.grid :=
  fst (Pthread.matrix_init INT_MAX sample_rand
         {| Pthread.size := size; Pthread.precision := 0.5%float;
            Pthread.num_threads := 0; Pthread.matrix := None |}).

(** One turn of the MPI loop written as a single pass over the root's
    matrix: the cells of rows 1 to size-2 get [cell_value], the cells of
    the first and of the last row are kept. *)
Definition flat_sweep (size : Z) (m : list float) : list float :=
  (fun p => if (size <=? p) && (p <? size * (size - 1))
            then cell_value size m p else Mpi.rd m p)
  <$> seqZ 0 (size * size).

(** No cell of rows 1 to size-2 clears the flag. *)
Definition flat_within (precision : float) (size : Z) (m : list float) : bool :=
  forallb (cell_within precision size m) (seqZ size ((size - 2) * size)).

(** Sweeps until one finds every cell within the precision; [fuel] bounds
    the number of sweeps. *)
Fixpoint flat_loop (fuel : nat) (size : Z) (precision : float)
    (m : list float) : option (list float) :=
  match fuel with
  | O => None
  | S fuel' =>
      if flat_within precision size m then Some (flat_sweep size m)
      else flat_loop fuel' size precision (flat_sweep size m)
  end.

(** Every count and displacement of the layout is representable in an
    [int]: the greatest count is the scatter count of rank 0, the greatest
    displacement the gather displacement of the last rank. *)
Definition counts_fit (size num_processes : Z) : Prop :=
  3 <= size /\ 1 <= num_processes <= INT_MAX
  /\ (chunk_rows size num_processes 0 + 2) * size <= INT_MAX
  /\ (chunk_first size num_processes (num_processes - 1) + 1) * size <= INT_MAX.

(** The four entries of a chunk are values of [int]s. *)
Definition int_chunk (c : Mpi.chunk) : Prop :=
  - 2 ^ 31 <= Mpi.scatter_displ c < 2 ^ 31
  /\ - 2 ^ 31 <= Mpi.scatter_count c < 2 ^ 31
  /\ - 2 ^ 31 <= Mpi.gather_count c < 2 ^ 31
  /\ - 2 ^ 31 <= Mpi.gather_displ c < 2 ^ 31.

(** ** Machine integers: values in range are unchanged *)

Lemma to_size_t_small (z : Z) : 0 <= z < 2 ^ 64 -> to_size_t z = z.
Proof. intros H. unfold to_size_t. apply Z.mod_small. exact H. Qed.

Lemma to_int_small (z : Z) : - 2 ^ 31 <= z < 2 ^ 31 -> to_int z = z.
Proof.
  intros H. unfold to_int. rewrite Z.mod_small; lia.
Qed.

Lemma to_int_range (z : Z) : - 2 ^ 31 <= to_int z < 2 ^ 31.
Proof.
  unfold to_int. pose proof (Z.mod_pos_bound (z + 2 ^ 31) (2 ^ 32)). lia.
Qed.

(** A conversion to [int] never increases a non-negative value. *)
Lemma to_int_le (z : Z) : 0 <= z -> to_int z <= z.
Proof.
  intros H. unfold to_int.
  pose proof (Z.mod_le (z + 2 ^ 31) (2 ^ 32)). lia.
Qed.

(** ** C3, C4: the partitioner of the pthread program *)

(** C3 (the code departs from the claim). On a 5x5 grid with 5 threads
    there are 9 interior cells, base run length 9/5 = 1 and 9 mod 5 = 4
    extra cells, so the rule gives the run lengths 2,2,2,2,1.
    [determine_thread_data] takes the remainder modulo [cells_per_thread]
    instead of modulo [num_threads], gets 9 mod 1 = 0 and hands every
    thread a single cell. *)
Theorem determine_thread_data_remainder_5_5 :
  Pthread.main_setup 5 0.5%float 5 = Pthread.Proceed args_5_5 /\
  (map Pthread.cells
     <$> Pthread.determine_thread_data args_5_5 Pthread.p_matrix
           Pthread.p_new_matrix) = Some [1; 1; 1; 1; 1] /\
  map (spec_run_length 9 5) [0; 1; 2; 3; 4] = [2; 2; 2; 2; 1].
Proof. repeat split; vm_compute; reflexivity. Qed.

(** C4 (the code departs from the claim). On the same input the five runs
    cover the cells (1,1) (1,2) (1,3) (2,1) (2,2); the interior cells
    (2,3) (3,1) (3,2) (3,3) are in no worker's assignment. *)
Theorem determine_thread_data_gap_5_5 :
  exists tds,
    Pthread.determine_thread_data args_5_5 Pthread.p_matrix Pthread.p_new_matrix
      = Some tds
    /\ assigned_cells 5 tds = [(1, 1); (1, 2); (1, 3); (2, 1); (2, 2)]
    /\ interior 5 (3, 3)
    /\ (3, 3) ∉ assigned_cells 5 tds.
Proof.
  eexists. split; [vm_compute; reflexivity|].
  split; [vm_compute; reflexivity|].
  split; [unfold interior; cbn; lia|].
  vm_compute. intros H.
  repeat (apply elem_of_cons in H; destruct H as [H|H]; [discriminate H|]).
  inversion H.
Qed.

(** ** C2: more workers than work *)

(** C2 (as stated, refuted). [mpirun -n 3 ... 4 0.5]: a 4x4 grid has two
    interior rows; [main] prints its message and returns 1 instead of
    going on with two processes. *)
Lemma mpi_main_rejects_excess_processes :
  Mpi.main_setup 4 0.5%float 3 = Mpi.Exit 1 /\
  Mpi.main_setup 4 0.5%float 3 <> Mpi.Proceed 4 0.5%float 2 /\
  Mpi.main 1 4 0.5%float 3 = Mpi.ExitCode 1.
Proof.
  split; [vm_compute; reflexivity|].
  split; [vm_compute; intros H; discriminate H|vm_compute; reflexivity].
Qed.

Lemma pthread_main_setup_valid (size_arg : Z) (precision_arg : float) (n : Z) :
  2 <= size_arg <= 10000000 ->
  (precision_arg <=? 0)%float = false ->
  1 <= n <= INT_MAX ->
  Pthread.main_setup size_arg precision_arg n
  = Pthread.Proceed
      {| Pthread.size := size_arg; Pthread.precision := precision_arg;
         Pthread.num_threads := Z.min n ((size_arg - 2) * (size_arg - 2));
         Pthread.matrix := None |}.
Proof.
  intros Hs Hp Hn. unfold INT_MAX in Hn.
  assert (Hinner : 0 <= (size_arg - 2) * (size_arg - 2) < 2 ^ 64) by nia.
  unfold Pthread.main_setup.
  rewrite (to_size_t_small size_arg) by lia.
  rewrite (to_size_t_small (size_arg - 2)) by lia.
  rewrite (to_size_t_small _ Hinner), (to_size_t_small n) by lia.
  destruct (Z.ltb_spec size_arg 2); [lia|].
  destruct (Z.ltb_spec 10000000 size_arg); [lia|]. cbn [orb].
  rewrite Hp.
  destruct (Z.ltb_spec n 1); [lia|].
  destruct (Z.ltb_spec ((size_arg - 2) * (size_arg - 2)) n).
  - rewrite to_int_small by lia. rewrite Z.min_r by lia. reflexivity.
  - rewrite Z.min_l by lia. reflexivity.
Qed.

Lemma mpi_main_setup_valid (size_arg : Z) (precision_arg : float) (n : Z) :
  2 <= size_arg <= 10000000 ->
  (precision_arg <=? 0)%float = false ->
  1 <= n <= INT_MAX ->
  Mpi.main_setup size_arg precision_arg n
  = if size_arg - 2 <? n then Mpi.Exit 1
    else Mpi.Proceed size_arg precision_arg n.
Proof.
  intros Hs Hp Hn. unfold INT_MAX in Hn.
  unfold Mpi.main_setup.
  rewrite (to_size_t_small size_arg) by lia.
  rewrite (to_size_t_small (size_arg - 2)) by lia.
  rewrite (to_size_t_small n) by lia.
  destruct (Z.ltb_spec size_arg 2); [lia|].
  destruct (Z.ltb_spec 10000000 size_arg); [lia|]. cbn [orb].
  rewrite Hp. reflexivity.
Qed.

(** C2 (amended). For valid arguments the pthread [main] goes on with
    the smaller of the requested thread count and (size-2)*(size-2); the
    MPI [main] returns 1 when the process count exceeds size-2 and goes
    on with the unchanged process count otherwise. *)
Theorem worker_count_clamped_or_rejected
    (size_arg : Z) (precision_arg : float) (n : Z) :
  2 <= size_arg <= 10000000 ->
  (precision_arg <=? 0)%float = false ->
  1 <= n <= INT_MAX ->
  Pthread.main_setup size_arg precision_arg n
  = Pthread.Proceed
      {| Pthread.size := size_arg; Pthread.precision := precision_arg;
         Pthread.num_threads := Z.min n ((size_arg - 2) * (size_arg - 2));
         Pthread.matrix := None |}
  /\ Mpi.main_setup size_arg precision_arg n
     = if size_arg - 2 <? n then Mpi.Exit 1
       else Mpi.Proceed size_arg precision_arg n.
Proof.
  intros Hs Hp Hn. split.
  - apply pthread_main_setup_valid; assumption.
  - apply mpi_main_setup_valid; assumption.
Qed.

(** C2 at [size = 4] with 9 requested workers. *)
Lemma worker_count_clamped_or_rejected_witness :
  Pthread.main_setup 4 0.5%float 9
  = Pthread.Proceed
      {| Pthread.size := 4; Pthread.precision := 0.5%float;
         Pthread.num_threads := Z.min 9 ((4 - 2) * (4 - 2));
         Pthread.matrix := None |}
  /\ Mpi.main_setup 4 0.5%float 9
     = if 4 - 2 <? 9 then Mpi.Exit 1 else Mpi.Proceed 4 0.5%float 9.
Proof.
  apply (worker_count_clamped_or_rejected 4 0.5%float 9);
    [lia | reflexivity | unfold INT_MAX; lia].
Defined.

(** ** The pthread workers leave the global flag alone *)

Section PthreadFrame.

Variable sa : Pthread.shared_args_t.

Lemma relax_cell_PRECISION_REACHED t p st :
  Pthread.PRECISION_REACHED (Pthread.relax_cell sa t p st)
  = Pthread.PRECISION_REACHED st.
Proof.
  unfold Pthread.relax_cell. destruct p as [i j].
  destruct (Pthread.new_matrix t);
    cbn [Pthread.store Pthread.load]; case (_ <? _)%float; reflexivity.
Qed.

Lemma relax_run_PRECISION_REACHED t c : forall p st,
  Pthread.PRECISION_REACHED (Pthread.relax_run sa t c p st)
  = Pthread.PRECISION_REACHED st.
Proof.
  induction c as [|c IH]; intros p st; cbn [Pthread.relax_run]; [reflexivity|].
  rewrite IH. apply relax_cell_PRECISION_REACHED.
Qed.

Lemma fold_relax_cells_PRECISION_REACHED tds : forall st,
  Pthread.PRECISION_REACHED
    (fold_left (fun s t => Pthread.relax_cells sa t s) tds st)
  = Pthread.PRECISION_REACHED st.
Proof.
  induction tds as [|t tds IH]; intros st; cbn [fold_left]; [reflexivity|].
  rewrite IH. apply relax_run_PRECISION_REACHED.
Qed.

Lemma compute_phase_PRECISION_REACHED st :
  Pthread.PRECISION_REACHED (Pthread.compute_phase sa st)
  = Pthread.PRECISION_REACHED st.
Proof. apply fold_relax_cells_PRECISION_REACHED. Qed.

Lemma relax_run_thread_data t c : forall p st,
  Pthread.thread_data (Pthread.relax_run sa t c p st) = Pthread.thread_data st.
Proof.
  induction c as [|c IH]; intros p st; cbn [Pthread.relax_run]; [reflexivity|].
  rewrite IH. unfold Pthread.relax_cell. destruct p as [i j].
  destruct (Pthread.new_matrix t);
    cbn [Pthread.store Pthread.load]; case (_ <? _)%float; reflexivity.
Qed.

Lemma fold_relax_cells_thread_data tds : forall st,
  Pthread.thread_data
    (fold_left (fun s t => Pthread.relax_cells sa t s) tds st)
  = Pthread.thread_data st.
Proof.
  induction tds as [|t tds IH]; intros st; cbn [fold_left]; [reflexivity|].
  rewrite IH. apply relax_run_thread_data.
Qed.

Lemma iteration_thread_data st :
  Pthread.thread_data (Pthread.iteration sa st) = Pthread.thread_data st.
Proof. apply fold_relax_cells_thread_data. Qed.

(** The workers' pointers at the head of the loop after [n] turns: as at
    the start when [n] is even, exchanged when [n] is odd. *)
Lemma loop_head_pointers (n : nat) : forall o nw st0 st,
  (forall t, t ∈ Pthread.thread_data st0 ->
     Pthread.original_matrix t = o /\ Pthread.new_matrix t = nw) ->
  Pthread.loop_head n sa st0 = Some st ->
  forall t, t ∈ Pthread.thread_data st ->
    Pthread.original_matrix t = (if Nat.even n then o else nw)
    /\ Pthread.new_matrix t = (if Nat.even n then nw else o).
Proof.
  induction n as [|n IH]; intros o nw st0 st Hall; cbn [Pthread.loop_head].
  - intros [= <-]. exact Hall.
  - destruct (Pthread.PRECISION_REACHED (Pthread.iteration sa st0));
      [intros H; discriminate H|].
    intros Hhead t Ht.
    rewrite Nat.even_succ, <- Nat.negb_even.
    destruct (IH nw o (Pthread.continue_phase sa (Pthread.iteration sa st0)) st)
      with (t := t) as [H1 H2]; [|exact Hhead|exact Ht|].
    + intros t' Ht'. cbn [Pthread.continue_phase Pthread.thread_data] in Ht'.
      rewrite iteration_thread_data in Ht'.
      apply list_elem_of_fmap in Ht'. destruct Ht' as (t0 & -> & Ht0).
      destruct (Hall t0 Ht0) as [Ho Hn]. cbn. split; assumption.
    + destruct (Nat.even n); cbn [negb]; split; assumption.
Qed.

(** With no thread to look at, a turn leaves the global flag as it was. *)
Lemma iteration_no_threads st :
  Pthread.num_threads sa = 0 ->
  Pthread.PRECISION_REACHED (Pthread.iteration sa st)
  = Pthread.PRECISION_REACHED st.
Proof.
  intros H0. unfold Pthread.iteration, Pthread.decide_phase.
  cbn [Pthread.PRECISION_REACHED]. rewrite H0. cbn [Z.to_nat Pthread.check_flags].
  apply compute_phase_PRECISION_REACHED.
Qed.

Lemma loop_no_threads (n : nat) : forall st,
  Pthread.num_threads sa = 0 ->
  Pthread.PRECISION_REACHED st = false ->
  (exists st', Pthread.loop_head n sa st = Some st'
               /\ Pthread.PRECISION_REACHED st' = false)
  /\ Pthread.coordinator_loop n sa st = None.
Proof.
  induction n as [|n IH]; intros st H0 Hpr.
  - split; [exists st; split; [reflexivity|exact Hpr]|reflexivity].
  - cbn [Pthread.loop_head Pthread.coordinator_loop].
    rewrite (iteration_no_threads st H0), Hpr.
    apply IH; [exact H0|].
    cbn [Pthread.continue_phase Pthread.PRECISION_REACHED].
    rewrite (iteration_no_threads st H0). exact Hpr.
Qed.

End PthreadFrame.

(** ** C10: a 2x2 grid in the pthread program *)

(** C10 (as stated, refuted). [./average_parallel 2 0.5 1]: the run does
    not stay in the coordinator's loop; [determine_thread_data] divides by
    the thread count 0 before the loop is entered. *)
Lemma size_two_divides_by_zero :
  Pthread.determine_thread_data (args_2 0.5%float) Pthread.p_matrix
    Pthread.p_new_matrix = None /\
  Pthread.main INT_MAX sample_rand 1 2 0.5%float 1 = Pthread.ExitUndefined /\
  Pthread.main INT_MAX sample_rand 1 2 0.5%float 1 <> Pthread.ExitRunning.
Proof.
  split; [vm_compute; reflexivity|].
  split; [vm_compute; reflexivity|vm_compute; intros H; discriminate H].
Qed.

(** C10 (amended). A 2x2 grid passes validation and the thread count is
    clamped to 0. [relax_matrix_parallel] then reaches the division by the
    thread count in [determine_thread_data], so the run is undefined before
    the coordinator's loop starts. The loop itself, entered with zero
    threads and the global flag false, keeps the flag false in every turn
    and does not end. *)
Theorem size_two_zero_threads (precision_arg : float) (threads_arg : Z) :
  (precision_arg <=? 0)%float = false ->
  1 <= threads_arg <= INT_MAX ->
  Pthread.main_setup 2 precision_arg threads_arg
    = Pthread.Proceed (args_2 precision_arg)
  /\ (forall RAND_MAX rand fuel,
        Pthread.main RAND_MAX rand fuel 2 precision_arg threads_arg
        = Pthread.ExitUndefined)
  /\ (forall sa st n,
        Pthread.num_threads sa = 0 ->
        Pthread.PRECISION_REACHED st = false ->
        (exists st', Pthread.loop_head n sa st = Some st'
                     /\ Pthread.PRECISION_REACHED st' = false)
        /\ Pthread.coordinator_loop n sa st = None).
Proof.
  intros Hp Hn.
  assert (Hsetup : Pthread.main_setup 2 precision_arg threads_arg
                   = Pthread.Proceed (args_2 precision_arg)).
  { rewrite (pthread_main_setup_valid 2 precision_arg threads_arg);
      [|lia|exact Hp|exact Hn].
    unfold args_2. f_equal. f_equal. lia. }
  split; [exact Hsetup|]. split.
  - intros RAND_MAX rand fuel. unfold Pthread.main. rewrite Hsetup.
    reflexivity.
  - intros sa st n. apply loop_no_threads.
Qed.

(** C10 at [./average_parallel 2 0.5 1]. *)
Lemma size_two_zero_threads_witness :
  Pthread.main_setup 2 0.5%float 1 = Pthread.Proceed (args_2 0.5%float)
  /\ (forall RAND_MAX rand fuel,
        Pthread.main RAND_MAX rand fuel 2 0.5%float 1 = Pthread.ExitUndefined)
  /\ (forall sa st n,
        Pthread.num_threads sa = 0 ->
        Pthread.PRECISION_REACHED st = false ->
        (exists st', Pthread.loop_head n sa st = Some st'
                     /\ Pthread.PRECISION_REACHED st' = false)
        /\ Pthread.coordinator_loop n sa st = None).
Proof.
  apply (size_two_zero_threads 0.5%float 1);
    [reflexivity | unfold INT_MAX; lia].
Defined.

(** ** Reading and writing a [double **] grid *)

Lemma interior_in_grid sz p : interior sz p -> in_grid sz p.
Proof. unfold interior, in_grid. lia. Qed.

Lemma boundary_not_interior sz p : on_boundary sz p -> ~ interior sz p.
Proof. unfold on_boundary, interior, in_grid. lia. Qed.

Lemma rd_wr_other (g : Pthread.grid) i j v i' j' :
  (i, j) <> (i', j') ->
  Pthread.rd (Pthread.wr g i j v) i' j' = Pthread.rd g i' j'.
Proof.
  intros Hne. unfold Pthread.rd, Pthread.wr.
  destruct (Z.leb_spec 0 i'); [|reflexivity].
  destruct (Z.leb_spec 0 j'); [|reflexivity]. cbn [andb].
  destruct (Z.leb_spec 0 i); [|reflexivity].
  destruct (Z.leb_spec 0 j); [|reflexivity]. cbn [andb].
  destruct (g !! Z.to_nat i) as [row|] eqn:Hrow; [|reflexivity].
  destruct (decide (Z.to_nat i = Z.to_nat i')) as [Hi|Hi].
  - rewrite <- Hi. rewrite list_lookup_insert_eq
      by (apply lookup_lt_is_Some; eauto).
    rewrite Hrow. cbn.
    rewrite list_lookup_insert_ne; [reflexivity|].
    intros Hj. apply Hne. f_equal; lia.
  - rewrite list_lookup_insert_ne by exact Hi. reflexivity.
Qed.

Lemma rd_wr_same (g : Pthread.grid) sz i j v :
  square sz g -> in_grid sz (i, j) ->
  Pthread.rd (Pthread.wr g i j v) i j = v.
Proof.
  intros [Hlen Hrows] [Hi Hj]. cbn [fst snd] in Hi, Hj.
  unfold Pthread.rd, Pthread.wr.
  destruct (Z.leb_spec 0 i); [|lia].
  destruct (Z.leb_spec 0 j); [|lia]. cbn [andb].
  destruct (lookup_lt_is_Some_2 g (Z.to_nat i)) as [row Hrow]; [lia|].
  rewrite Hrow.
  rewrite list_lookup_insert_eq by (apply lookup_lt_is_Some; eauto).
  cbn. rewrite list_lookup_insert_eq; [reflexivity|].
  specialize (Hrows _ _ Hrow). lia.
Qed.

Lemma square_wr (g : Pthread.grid) sz i j v :
  square sz g -> square sz (Pthread.wr g i j v).
Proof.
  intros [Hlen Hrows]. unfold Pthread.wr.
  destruct ((0 <=? i) && (0 <=? j)); [|split; assumption].
  destruct (g !! Z.to_nat i) as [row|] eqn:Hrow; [|split; assumption].
  split.
  - rewrite length_insert. exact Hlen.
  - intros r row' Hr.
    destruct (decide (Z.to_nat i = r)) as [<-|Hne].
    + rewrite list_lookup_insert_eq in Hr
        by (apply lookup_lt_is_Some; eauto).
      injection Hr as <-. rewrite length_insert. eauto.
    + rewrite list_lookup_insert_ne in Hr by exact Hne. eauto.
Qed.

Lemma rd_lookup (g : Pthread.grid) i j row x :
  0 <= i -> 0 <= j ->
  g !! Z.to_nat i = Some row -> row !! Z.to_nat j = Some x ->
  Pthread.rd g i j = x.
Proof.
  intros Hi Hj Hrow Hx. unfold Pthread.rd.
  destruct (Z.leb_spec 0 i); [|lia]. destruct (Z.leb_spec 0 j); [|lia].
  cbn [andb]. rewrite Hrow. cbn. rewrite Hx. reflexivity.
Qed.

(** ** Walking through the interior in row-major order *)

Lemma next_cell_cell_of (sz k : Z) :
  3 <= sz -> 0 <= k ->
  Pthread.next_cell sz (cell_of (sz - 2) k) = cell_of (sz - 2) (k + 1).
Proof.
  intros Hsz Hk. unfold Pthread.next_cell, cell_of.
  pose proof (Z.mod_pos_bound k (sz - 2) ltac:(lia)) as Hm.
  pose proof (Z.div_mod k (sz - 2) ltac:(lia)) as Hd.
  destruct (Z.eqb_spec (1 + k mod (sz - 2) + 1) (sz - 1)) as [He|He].
  - assert (Hk1 : k + 1 = (k / (sz - 2) + 1) * (sz - 2)) by lia.
    rewrite Hk1. rewrite Z.div_mul, Z.mod_mul by lia. f_equal; lia.
  - assert (Hq : (k + 1) / (sz - 2) = k / (sz - 2)).
    { symmetry. apply (Z.div_unique _ _ _ (k mod (sz - 2) + 1)); lia. }
    assert (Hr : (k + 1) mod (sz - 2) = k mod (sz - 2) + 1).
    { symmetry. apply (Z.mod_unique _ _ (k / (sz - 2))); lia. }
    rewrite Hq, Hr. f_equal; lia.
Qed.

Lemma nth_cell_cell_of (sz : Z) (n : nat) : forall k,
  3 <= sz -> 0 <= k ->
  Pthread.nth_cell sz n (cell_of (sz - 2) k) = cell_of (sz - 2) (k + Z.of_nat n).
Proof.
  induction n as [|n IH]; intros k Hsz Hk; cbn [Pthread.nth_cell].
  - f_equal. lia.
  - rewrite next_cell_cell_of by lia. rewrite IH by lia. f_equal. lia.
Qed.

Lemma cell_of_interior (sz k : Z) :
  3 <= sz -> 0 <= k < (sz - 2) * (sz - 2) -> interior sz (cell_of (sz - 2) k).
Proof.
  intros Hsz Hk. unfold interior, cell_of. cbn [fst snd].
  pose proof (Z.mod_pos_bound k (sz - 2) ltac:(lia)).
  assert (0 <= k / (sz - 2)) by (apply Z.div_pos; lia).
  assert (k / (sz - 2) < sz - 2) by (apply Z.div_lt_upper_bound; lia).
  lia.
Qed.

(** ** The runs handed out by [determine_thread_data] *)

Lemma thread_data_loop_runs (sz cpt : Z) (o nw : Pthread.ptr) (n : nat) :
  forall i rem off,
  3 <= sz -> - 2 ^ 31 <= cpt < 2 ^ 31 -> 0 <= off ->
  off + Z.of_nat n * Z.max cpt 0 + Z.min (Z.max rem 0) (Z.of_nat n)
    <= (sz - 2) * (sz - 2) ->
  Forall (run_interior sz)
    (Pthread.thread_data_loop n sz i cpt rem (cell_of (sz - 2) off) o nw).
Proof.
  induction n as [|n IH]; intros i rem off Hsz Hcpt Hoff Hbound;
    cbn [Pthread.thread_data_loop]; [constructor|].
  set (c := if 0 <? rem then to_int (cpt + 1) else cpt).
  assert (Hc : Z.max c 0 <= Z.max cpt 0 + (if 0 <? rem then 1 else 0)).
  { subst c. destruct (0 <? rem); [|lia].
    destruct (Z_lt_le_dec (cpt + 1) 0) as [Hneg|Hpos].
    - rewrite to_int_small by lia. lia.
    - pose proof (to_int_le (cpt + 1) Hpos). lia. }
  constructor.
  - intros k Hk. cbn [Pthread.cells Pthread.start_i Pthread.start_j] in *.
    fold c in Hk. unfold cell_of at 1 2. cbn [fst snd]. fold (cell_of (sz - 2) off).
    rewrite nth_cell_cell_of by lia.
    apply cell_of_interior; [lia|].
    destruct (Z.ltb_spec 0 rem); nia.
  - unfold Pthread.advance_start. rewrite nth_cell_cell_of by lia.
    apply IH; try lia.
    destruct (Z.ltb_spec 0 rem); nia.
Qed.

Lemma thread_data_loop_length sz cpt o nw (n : nat) : forall i rem start,
  length (Pthread.thread_data_loop n sz i cpt rem start o nw) = n.
Proof.
  induction n as [|n IH]; intros i rem start; cbn [Pthread.thread_data_loop length];
    [reflexivity|]. rewrite IH. reflexivity.
Qed.

Lemma thread_data_loop_lookup sz cpt o nw (n : nat) : forall i rem start k t,
  Pthread.thread_data_loop n sz i cpt rem start o nw !! k = Some t ->
  Pthread.id t = i + Z.of_nat k
  /\ Pthread.original_matrix t = o /\ Pthread.new_matrix t = nw.
Proof.
  induction n as [|n IH]; intros i rem start k t;
    cbn [Pthread.thread_data_loop]; [intros H; discriminate H|].
  destruct k as [|k]; cbn [lookup list_lookup].
  - intros [= <-]. cbn. repeat split; lia.
  - intros H. apply IH in H. destruct H as (H1 & H2 & H3).
    repeat split; [lia|assumption|assumption].
Qed.

Lemma determine_thread_data_runs (sa : Pthread.shared_args_t) o nw tds :
  valid_args sa ->
  Pthread.determine_thread_data sa o nw = Some tds ->
  Forall (run_interior (Pthread.size sa)) tds
  /\ Z.of_nat (length tds) = Pthread.num_threads sa
  /\ (forall k t, tds !! k = Some t ->
        Pthread.id t = Z.of_nat k
        /\ Pthread.original_matrix t = o /\ Pthread.new_matrix t = nw).
Proof.
  intros (Hsz & Hn & Hle). unfold INT_MAX in Hn.
  set (sz := Pthread.size sa) in *. set (W := Pthread.num_threads sa) in *.
  unfold Pthread.determine_thread_data. fold sz W.
  assert (Hinner : 0 <= (sz - 2) * (sz - 2) < 2 ^ 64) by nia.
  rewrite (to_size_t_small (sz - 2)) by lia.
  rewrite (to_size_t_small _ Hinner), (to_size_t_small W) by lia.
  destruct (Z.eqb_spec W 0); [lia|].
  set (inner := (sz - 2) * (sz - 2)) in *.
  set (cpt := to_int (inner / W)).
  destruct (Z.eqb_spec (to_size_t cpt) 0); [intros H; discriminate H|].
  intros [= <-].
  split; [|split].
  - replace (1, 1) with (cell_of (sz - 2) 0)
      by (unfold cell_of; rewrite Z.div_0_l, Z.mod_0_l by lia; reflexivity).
    pose proof (to_int_range (inner / W)) as Hrange. fold cpt in Hrange.
    apply thread_data_loop_runs; [lia|lia|lia|].
    rewrite Z2Nat.id by lia. fold inner.
    destruct (Z_le_gt_dec cpt 0) as [Hneg|Hpos]; [lia|].
    assert (Hq : 0 <= inner / W) by (apply Z.div_pos; lia).
    pose proof (Z.div_mod inner W ltac:(lia)) as Hdm.
    pose proof (Z.mod_pos_bound inner W ltac:(lia)) as Hr.
    rewrite (to_size_t_small cpt) by lia.
    pose proof (Z.mod_pos_bound inner cpt ltac:(lia)) as Hrem.
    rewrite (to_int_small (inner mod cpt)) by lia.
    assert (Hcases : cpt = inner / W \/ cpt <= inner / W - 2 ^ 32).
    { subst cpt. unfold to_int.
      pose proof (Z.div_mod (inner / W + 2 ^ 31) (2 ^ 32) ltac:(lia)) as Hd.
      assert (0 <= (inner / W + 2 ^ 31) / 2 ^ 32) by (apply Z.div_pos; lia).
      lia. }
    destruct Hcases as [Heq|Hlt]; [|nia].
    assert (Hmod : inner mod cpt <= inner mod W).
    { rewrite Heq.
      replace inner with (inner mod W + W * (inner / W)) at 1 by lia.
      rewrite Z.mod_add by lia. apply Z.mod_le; lia. }
    rewrite Heq in *. nia.
  - rewrite thread_data_loop_length. lia.
  - intros k t Hk. apply thread_data_loop_lookup in Hk. 
    destruct Hk as (H1 & H2 & H3). repeat split; [lia|assumption|assumption].
Qed.

(** ** One pass of a pthread worker *)

Lemma run_cells_nth sz (c : nat) : forall p q,
  q ∈ run_cells sz c p <-> exists k, (k < c)%nat /\ q = Pthread.nth_cell sz k p.
Proof.
  induction c as [|c IH]; intros p q; cbn [run_cells].
  - split; [intros H; inversion H|intros (k & Hk & _); lia].
  - rewrite elem_of_cons, IH. split.
    + intros [->|(k & Hk & ->)]; [exists 0%nat; split; [lia|reflexivity]|].
      exists (S k). split; [lia|reflexivity].
    + intros (k & Hk & ->). destruct k as [|k]; [left; reflexivity|].
      right. exists k. split; [lia|reflexivity].
Qed.

Lemma run_interior_assigned sz t :
  run_interior sz t <-> (forall q, q ∈ assigned sz t -> interior sz q).
Proof.
  unfold run_interior, assigned. split.
  - intros H q Hq. apply run_cells_nth in Hq. destruct Hq as (k & Hk & ->).
    apply H. exact Hk.
  - intros H k Hk. apply H. apply run_cells_nth. eauto.
Qed.

Section PthreadWorker.

Variable sa : Pthread.shared_args_t.
Variable t : Pthread.thread_args.
Hypothesis Hptr : Pthread.original_matrix t <> Pthread.new_matrix t.

Let o := Pthread.original_matrix t.
Let nw := Pthread.new_matrix t.

Lemma relax_cell_effect p st :
  let st' := Pthread.relax_cell sa t p st in
  Pthread.load st' o = Pthread.load st o
  /\ Pthread.load st' nw
     = Pthread.wr (Pthread.load st nw) (fst p) (snd p)
         (Pthread.new_value (Pthread.load st o) (fst p) (snd p))
  /\ Pthread.THREAD_PRECISION_REACHED st'
     = (if exceeds (Pthread.precision sa) (Pthread.load st o) p
        then <[Z.to_nat (Pthread.id t) := false]>
               (Pthread.THREAD_PRECISION_REACHED st)
        else Pthread.THREAD_PRECISION_REACHED st)
  /\ Pthread.thread_data st' = Pthread.thread_data st.
Proof.
  subst o nw. unfold Pthread.relax_cell, exceeds. destruct p as [i j].
  cbn [fst snd].
  destruct (Pthread.original_matrix t), (Pthread.new_matrix t);
    try congruence; cbn [Pthread.store Pthread.load Pthread.mem_matrix
                          Pthread.mem_new_matrix];
    case (_ <? _)%float; cbn; repeat split; reflexivity.
Qed.

Lemma relax_run_effect (c : nat) : forall p st,
  let st' := Pthread.relax_run sa t c p st in
  Pthread.load st' o = Pthread.load st o
  /\ Pthread.THREAD_PRECISION_REACHED st'
     = (if existsb (exceeds (Pthread.precision sa) (Pthread.load st o))
             (run_cells (Pthread.size sa) c p)
        then <[Z.to_nat (Pthread.id t) := false]>
               (Pthread.THREAD_PRECISION_REACHED st)
        else Pthread.THREAD_PRECISION_REACHED st)
  /\ Pthread.thread_data st' = Pthread.thread_data st.
Proof.
  induction c as [|c IH]; intros p st; cbn [Pthread.relax_run run_cells existsb].
  - repeat split; reflexivity.
  - destruct (relax_cell_effect p st) as (Ho & _ & Hfl & Htd).
    destruct (IH (Pthread.next_cell (Pthread.size sa) p)
                 (Pthread.relax_cell sa t p st)) as (Ho' & Hfl' & Htd').
    cbv zeta in *. rewrite Ho', Hfl', Htd', Ho, Hfl, Htd.
    repeat split.
    case (exceeds _ _ p); cbn [orb]; [|reflexivity].
    case (existsb _ _); [apply list_insert_insert_eq|reflexivity].
Qed.

(** The grid behind [new_matrix] keeps its shape. *)
Lemma relax_run_square sz (c : nat) : forall p st,
  square sz (Pthread.load st nw) ->
  square sz (Pthread.load (Pthread.relax_run sa t c p st) nw).
Proof.
  induction c as [|c IH]; intros p st Hsq; cbn [Pthread.relax_run];
    [exact Hsq|].
  apply IH. destruct (relax_cell_effect p st) as (_ & -> & _).
  apply square_wr. exact Hsq.
Qed.

(** A cell that holds the average of its neighbours keeps holding it. *)
Lemma relax_run_keeps sz (c : nat) (cur : Pthread.grid) q : forall p st,
  square sz (Pthread.load st nw) -> in_grid sz q ->
  Pthread.load st o = cur ->
  Pthread.rd (Pthread.load st nw) (fst q) (snd q)
    = Pthread.new_value cur (fst q) (snd q) ->
  Pthread.rd (Pthread.load (Pthread.relax_run sa t c p st) nw) (fst q) (snd q)
    = Pthread.new_value cur (fst q) (snd q).
Proof.
  induction c as [|c IH]; intros p st Hsq Hq Hcur Hval;
    cbn [Pthread.relax_run]; [exact Hval|].
  destruct (relax_cell_effect p st) as (Ho & Hn & _).
  apply IH; [rewrite Hn; apply square_wr; exact Hsq|exact Hq|
             rewrite Ho; exact Hcur|].
  rewrite Hn, Hcur.
  destruct (decide (p = q)) as [->|Hne].
  - apply (rd_wr_same _ sz); [exact Hsq|destruct q; exact Hq].
  - rewrite rd_wr_other; [exact Hval|].
    destruct p, q; cbn [fst snd]. exact Hne.
Qed.

(** Every cell of the run receives the average of its neighbours in the
    grid behind [original_matrix]. *)
Lemma relax_run_written sz (c : nat) q : forall p st,
  square sz (Pthread.load st nw) -> in_grid sz q ->
  q ∈ run_cells (Pthread.size sa) c p ->
  Pthread.rd (Pthread.load (Pthread.relax_run sa t c p st) nw) (fst q) (snd q)
    = Pthread.new_value (Pthread.load st o) (fst q) (snd q).
Proof.
  induction c as [|c IH]; intros p st Hsq Hq Hin;
    cbn [Pthread.relax_run run_cells] in *; [inversion Hin|].
  destruct (relax_cell_effect p st) as (Ho & Hn & _).
  apply elem_of_cons in Hin. destruct Hin as [->|Hin].
  - apply (relax_run_keeps sz); [rewrite Hn; apply square_wr; exact Hsq|
                                  exact Hq|exact Ho|].
    rewrite Hn. apply (rd_wr_same _ sz); [exact Hsq|destruct p; exact Hq].
  - rewrite <- Ho. apply IH; [rewrite Hn; apply square_wr; exact Hsq|
                               exact Hq|exact Hin].
Qed.

(** A cell outside the run is left as it was. *)
Lemma relax_run_untouched (c : nat) q : forall p st,
  q ∉ run_cells (Pthread.size sa) c p ->
  Pthread.rd (Pthread.load (Pthread.relax_run sa t c p st) nw) (fst q) (snd q)
    = Pthread.rd (Pthread.load st nw) (fst q) (snd q).
Proof.
  induction c as [|c IH]; intros p st Hin;
    cbn [Pthread.relax_run run_cells] in *; [reflexivity|].
  destruct (relax_cell_effect p st) as (_ & Hn & _).
  apply not_elem_of_cons in Hin. destruct Hin as [Hne Hin].
  rewrite IH by exact Hin. rewrite Hn. apply rd_wr_other.
  destruct p, q; cbn [fst snd]. congruence.
Qed.

End PthreadWorker.

(** ** The compute phase of the pthread program *)

Lemma assigned_cells_cons sz t tds q :
  q ∈ assigned_cells sz (t :: tds) <->
  q ∈ assigned sz t \/ q ∈ assigned_cells sz tds.
Proof. unfold assigned_cells. cbn [map concat]. apply elem_of_app. Qed.

Lemma compute_fold_effect (sa : Pthread.shared_args_t) (o nw : Pthread.ptr)
    (sz : Z) (tds : list Pthread.thread_args) :
  o <> nw ->
  forall st,
  (forall t, t ∈ tds ->
     Pthread.original_matrix t = o /\ Pthread.new_matrix t = nw) ->
  square sz (Pthread.load st nw) ->
  let st' := fold_left (fun s t => Pthread.relax_cells sa t s) tds st in
  Pthread.load st' o = Pthread.load st o
  /\ square sz (Pthread.load st' nw)
  /\ Pthread.thread_data st' = Pthread.thread_data st
  /\ Pthread.THREAD_PRECISION_REACHED st'
     = flags_after (Pthread.precision sa) (Pthread.load st o) (Pthread.size sa)
         tds (Pthread.THREAD_PRECISION_REACHED st)
  /\ (forall q, in_grid sz q -> q ∈ assigned_cells (Pthread.size sa) tds ->
        Pthread.rd (Pthread.load st' nw) (fst q) (snd q)
        = Pthread.new_value (Pthread.load st o) (fst q) (snd q))
  /\ (forall q, q ∉ assigned_cells (Pthread.size sa) tds ->
        Pthread.rd (Pthread.load st' nw) (fst q) (snd q)
        = Pthread.rd (Pthread.load st nw) (fst q) (snd q)).
Proof.
  intros Hne. induction tds as [|t tds IH]; intros st Hall Hsq;
    cbn [fold_left].
  - split; [reflexivity|]. split; [exact Hsq|]. split; [reflexivity|].
    split; [reflexivity|]. split; [|reflexivity].
    intros q _ Hq. inversion Hq.
  - destruct (Hall t (list_elem_of_here _ _)) as [Ht1 Ht2].
    assert (Hptr : Pthread.original_matrix t <> Pthread.new_matrix t)
      by congruence.
    set (st1 := Pthread.relax_cells sa t st).
    destruct (relax_run_effect sa t Hptr (Z.to_nat (Pthread.cells t))
                (Pthread.start_i t, Pthread.start_j t) st)
      as (Ho1 & Hfl1 & Htd1).
    fold (Pthread.relax_cells sa t st) in Ho1, Hfl1, Htd1. fold st1 in Ho1, Hfl1, Htd1.
    rewrite Ht1 in Ho1, Hfl1.
    assert (Hsq1 : square sz (Pthread.load st1 nw)).
    { rewrite <- Ht2. apply relax_run_square; [exact Hptr|]. rewrite Ht2.
      exact Hsq. }
    destruct (IH st1) as (Ho & Hsq' & Htd & Hfl & Hwr & Hun);
      [intros t' Ht'; apply Hall; apply list_elem_of_further; exact Ht'
      |exact Hsq1|].
    cbv zeta in *. rewrite Ho1 in Ho, Hfl, Hwr.
    split; [exact Ho|]. split; [exact Hsq'|].
    split; [rewrite Htd; exact Htd1|].
    split; [rewrite Hfl, Hfl1; reflexivity|]. split.
    + intros q Hq Hin.
      destruct (decide (q ∈ assigned_cells (Pthread.size sa) tds)) as [Hr|Hr];
        [apply Hwr; assumption|].
      apply assigned_cells_cons in Hin. destruct Hin as [Hin|Hin]; [|tauto].
      rewrite Hun by exact Hr.
      pose proof (relax_run_written sa t Hptr sz (Z.to_nat (Pthread.cells t))
                    q (Pthread.start_i t, Pthread.start_j t) st) as Hw.
      rewrite Ht1, Ht2 in Hw. apply Hw; assumption.
    + intros q Hq. rewrite assigned_cells_cons in Hq.
      rewrite Hun by tauto.
      pose proof (relax_run_untouched sa t Hptr (Z.to_nat (Pthread.cells t))
                    q (Pthread.start_i t, Pthread.start_j t) st) as Hu.
      rewrite Ht2 in Hu. apply Hu. tauto.
Qed.

Lemma flags_after_length precision cur sz tds : forall fl,
  length (flags_after precision cur sz tds fl) = length fl.
Proof.
  unfold flags_after. induction tds as [|t tds IH]; intros fl; cbn [fold_left];
    [reflexivity|].
  rewrite IH. case (existsb _ _); [apply length_insert|reflexivity].
Qed.

Lemma flags_after_lookup precision cur sz tds : forall fl j,
  (j < length fl)%nat ->
  flags_after precision cur sz tds fl !! j
  = if existsb (fun t => (Z.to_nat (Pthread.id t) =? j)%nat
                         && existsb (exceeds precision cur) (assigned sz t)) tds
    then Some false else fl !! j.
Proof.
  unfold flags_after. induction tds as [|t tds IH]; intros fl j Hj;
    cbn [fold_left existsb]; [reflexivity|].
  rewrite IH by (case (existsb _ _); [rewrite length_insert|]; exact Hj).
  case (existsb _ tds); [rewrite orb_true_r; reflexivity|].
  rewrite orb_false_r.
  destruct (existsb (exceeds precision cur) (assigned sz t));
    [|rewrite andb_false_r; reflexivity].
  rewrite andb_true_r.
  destruct (Nat.eqb_spec (Z.to_nat (Pthread.id t)) j) as [->|Hne].
  - apply list_lookup_insert_eq. exact Hj.
  - apply list_lookup_insert_ne. exact Hne.
Qed.

(** When thread [k] has id [k], flag [k] is cleared exactly by thread [k]. *)
Lemma flags_after_own precision cur sz tds fl k t :
  (forall k' t', tds !! k' = Some t' -> Pthread.id t' = Z.of_nat k') ->
  tds !! k = Some t ->
  (k < length fl)%nat ->
  flags_after precision cur sz tds fl !! k
  = if existsb (exceeds precision cur) (assigned sz t) then Some false
    else fl !! k.
Proof.
  intros Hid Hk Hlen. rewrite flags_after_lookup by exact Hlen.
  match goal with |- (if ?a then _ else _) = (if ?b then _ else _) =>
    replace a with b; [reflexivity|] end.
  apply eq_true_iff_eq. rewrite (existsb_exists _ tds). split.
  - intros Hex. exists t. split.
    + apply list_elem_of_In. apply list_elem_of_lookup. eauto.
    + rewrite (Hid _ _ Hk), Nat2Z.id, Nat.eqb_refl. exact Hex.
  - intros (t' & Hin & Ht'). apply andb_true_iff in Ht'.
    destruct Ht' as [Heq Hex]. apply Nat.eqb_eq in Heq.
    apply list_elem_of_In, list_elem_of_lookup in Hin.
    destruct Hin as (k' & Hk').
    rewrite (Hid _ _ Hk'), Nat2Z.id in Heq. subst k'.
    rewrite Hk in Hk'. injection Hk' as <-. exact Hex.
Qed.

(** The coordinator's loop over the flags computes their conjunction as
    soon as there is one flag. *)
Lemma check_flags_forallb (n : nat) (fl : list bool) : forall i reached,
  (i + n)%nat = length fl ->
  Pthread.check_flags n i fl reached
  = match n with O => reached | S _ => forallb id (drop i fl) end.
Proof.
  induction n as [|n IH]; intros i reached Hlen; cbn [Pthread.check_flags];
    [reflexivity|].
  destruct (lookup_lt_is_Some_2 fl i) as [b Hb]; [lia|].
  rewrite (drop_S _ _ _ Hb), Hb. cbn [default forallb id].
  destruct b; cbn [negb andb]; [|reflexivity].
  rewrite IH by lia. destruct n; [|reflexivity].
  rewrite drop_ge by lia. reflexivity.
Qed.

Lemma fill_flags_replicate (n : nat) (v : bool) : forall k fl,
  (k + n)%nat = length fl ->
  fill_flags n k v fl = take k fl ++ replicate n v.
Proof.
  induction n as [|n IH]; intros k fl Hlen; cbn [fill_flags replicate].
  - rewrite app_nil_r, take_ge by lia. reflexivity.
  - rewrite IH by (rewrite length_insert; lia).
    destruct (lookup_lt_is_Some_2 fl k) as [b Hb]; [lia|].
    rewrite (take_S_r _ _ v)
      by (apply list_lookup_insert_eq; apply lookup_lt_is_Some; eauto).
    rewrite take_insert_ge by lia. rewrite <- app_assoc. reflexivity.
Qed.

(** ** The initial grids of the pthread program *)

Lemma lookup_map_seq {A : Type} (f : nat -> A) (n : nat) : forall s i,
  map f (seq s n) !! i
  = if (i <? n)%nat then Some (f (s + i)%nat) else None.
Proof.
  induction n as [|n IH]; intros s i; cbn [seq map]; [reflexivity|].
  destruct i as [|i]; cbn [lookup list_lookup].
  - rewrite Nat.add_0_r. reflexivity.
  - fold (@lookup _ _ _ (@list_lookup A)). rewrite IH.
    replace (s + S i)%nat with (S s + i)%nat by lia.
    reflexivity.
Qed.

(** Copying a square grid yields the same grid. *)
Lemma copy_grid_id sz (m : Pthread.grid) :
  square sz m -> Pthread.copy_grid sz m = m.
Proof.
  intros [Hlen Hrows]. unfold Pthread.copy_grid.
  apply list_eq. intros r. rewrite lookup_map_seq. cbn [Nat.add].
  destruct (Nat.ltb_spec r (Z.to_nat sz)) as [Hr|Hr];
    [|symmetry; apply lookup_ge_None; lia].
  destruct (lookup_lt_is_Some_2 m r) as [row Hrow]; [lia|].
  rewrite Hrow. f_equal.
  apply list_eq. intros c. rewrite lookup_map_seq. cbn [Nat.add].
  specialize (Hrows _ _ Hrow).
  destruct (Nat.ltb_spec c (Z.to_nat sz)) as [Hc|Hc];
    [|symmetry; apply lookup_ge_None; lia].
  destruct (lookup_lt_is_Some_2 row c) as [x Hx]; [lia|].
  rewrite Hx. f_equal. unfold Pthread.rd.
  destruct (Z.leb_spec 0 (Z.of_nat r)); [|lia].
  destruct (Z.leb_spec 0 (Z.of_nat c)); [|lia]. cbn [andb].
  rewrite !Nat2Z.id, Hrow. cbn. rewrite Hx. reflexivity.
Qed.

Section InitRows.

Variable RAND_MAX : Z.
Variable rand : nat -> Z.

Lemma init_row_length (n : nat) : forall i j k,
  length (fst (Pthread.init_row RAND_MAX rand n i j k)) = n.
Proof.
  induction n as [|n IH]; intros i j k; cbn [Pthread.init_row]; [reflexivity|].
  destruct ((i =? 0) || (j =? 0)).
  - specialize (IH i (j + 1) k).
    destruct (Pthread.init_row RAND_MAX rand n i (j + 1) k). cbn in *. lia.
  - specialize (IH i (j + 1) (S k)).
    destruct (Pthread.init_row RAND_MAX rand n i (j + 1) (S k)). cbn in *. lia.
Qed.

Lemma init_rows_square (n sz : nat) : forall i k,
  length (Pthread.init_rows RAND_MAX rand n sz i k) = n
  /\ forall r row, Pthread.init_rows RAND_MAX rand n sz i k !! r = Some row ->
       length row = sz.
Proof.
  induction n as [|n IH]; intros i k; cbn [Pthread.init_rows].
  - split; [reflexivity|]. intros r row H. discriminate H.
  - pose proof (init_row_length sz i 0 k) as Hrow.
    destruct (Pthread.init_row RAND_MAX rand sz i 0 k) as [row0 k'].
    cbn [fst] in Hrow. destruct (IH (i + 1) k') as [Hlen Hrows].
    split; [cbn [length]; lia|].
    intros [|r] row; cbn [lookup list_lookup].
    + intros [= <-]. exact Hrow.
    + apply Hrows.
Qed.

(** The first call of [matrix_init] returns a square grid and leaves a
    copy of it in [shared_args.matrix]. *)
Lemma matrix_init_first sa a sa' :
  Pthread.matrix sa = None -> 0 <= Pthread.size sa ->
  Pthread.matrix_init RAND_MAX rand sa = (a, sa') ->
  square (Pthread.size sa) a
  /\ Pthread.matrix sa' = Some a
  /\ Pthread.size sa' = Pthread.size sa
  /\ Pthread.precision sa' = Pthread.precision sa
  /\ Pthread.num_threads sa' = Pthread.num_threads sa.
Proof.
  intros Hnull Hsz. unfold Pthread.matrix_init. rewrite Hnull.
  intros [= <- <-]. cbn.
  split; [|repeat split].
  destruct (init_rows_square (Z.to_nat (Pthread.size sa))
              (Z.to_nat (Pthread.size sa)) 0 0) as [Hlen Hrows].
  split; [lia|]. intros r row Hr. rewrite (Hrows _ _ Hr). lia.
Qed.

(** A later call returns a copy of [shared_args.matrix] and leaves the
    globals as they are. *)
Lemma matrix_init_again sa a new_m sa' :
  Pthread.matrix sa = Some a -> square (Pthread.size sa) a ->
  Pthread.matrix_init RAND_MAX rand sa = (new_m, sa') ->
  new_m = a /\ sa' = sa.
Proof.
  intros Hm Hsq. unfold Pthread.matrix_init. rewrite Hm.
  rewrite (copy_grid_id _ _ Hsq). intros [= <- <-]. split; reflexivity.
Qed.

End InitRows.

(** What [main] has established when it goes on. *)
Lemma main_setup_Proceed size_arg precision_arg threads_arg sa :
  Pthread.main_setup size_arg precision_arg threads_arg = Pthread.Proceed sa ->
  threads_arg <= INT_MAX ->
  2 <= Pthread.size sa <= 10000000
  /\ Pthread.precision sa = precision_arg
  /\ 1 <= threads_arg
  /\ Pthread.num_threads sa
     = Z.min threads_arg ((Pthread.size sa - 2) * (Pthread.size sa - 2))
  /\ Pthread.matrix sa = None.
Proof.
  unfold Pthread.main_setup, INT_MAX.
  set (size := to_size_t size_arg).
  destruct (Z.ltb_spec size 2); [intros H0; discriminate H0|].
  destruct (Z.ltb_spec 10000000 size); [intros H1; discriminate H1|].
  cbn [orb]. destruct (_ <=? _)%float; [intros H1; discriminate H1|].
  destruct (Z.ltb_spec threads_arg 1); [intros H2; discriminate H2|].
  intros [= <-] Ht. cbn.
  assert (Hinner : 0 <= (size - 2) * (size - 2) < 2 ^ 64) by nia.
  rewrite (to_size_t_small (size - 2)) by lia.
  rewrite (to_size_t_small _ Hinner), (to_size_t_small threads_arg) by lia.
  repeat split; try lia.
  destruct (Z.ltb_spec ((size - 2) * (size - 2)) threads_arg).
  - rewrite to_int_small by lia. lia.
  - lia.
Qed.

(** ** The invariant of the coordinator's loop *)

Lemma assigned_cells_elem sz tds q :
  q ∈ assigned_cells sz tds <-> exists t, t ∈ tds /\ q ∈ assigned sz t.
Proof.
  induction tds as [|t tds IH].
  - split; [intros H; inversion H|intros (t & Ht & _); inversion Ht].
  - rewrite assigned_cells_cons, IH. split.
    + intros [H|(t' & Ht' & H)].
      * exists t. split; [apply list_elem_of_here|exact H].
      * exists t'. split; [apply list_elem_of_further; exact Ht'|exact H].
    + intros (t' & Ht' & H). apply elem_of_cons in Ht'.
      destruct Ht' as [->|Ht']; [left; exact H|right; eauto].
Qed.

Lemma not_assigned_boundary sz tds q :
  Forall (run_interior sz) tds -> on_boundary sz q ->
  q ∉ assigned_cells sz tds.
Proof.
  intros Hruns Hq Hin.
  apply assigned_cells_elem in Hin. destruct Hin as (t & Ht & Hql).
  rewrite Forall_forall in Hruns. specialize (Hruns t Ht).
  rewrite run_interior_assigned in Hruns.
  exact (boundary_not_interior _ _ Hq (Hruns _ Hql)).
Qed.

Lemma initial_state_invariant sa a st0 :
  valid_args sa -> square (Pthread.size sa) a ->
  Pthread.initial_state sa a a = Some st0 ->
  loop_invariant sa a st0.
Proof.
  intros Hv Hsq. unfold Pthread.initial_state.
  destruct (Pthread.determine_thread_data sa Pthread.p_matrix
              Pthread.p_new_matrix) as [tds|] eqn:Htds;
    [|intros H; discriminate H].
  intros [= <-].
  destruct (determine_thread_data_runs _ _ _ _ Hv Htds) as (Hruns & Hlen & Hids).
  constructor; cbn.
  - exact Hsq.
  - exact Hsq.
  - exists Pthread.p_matrix, Pthread.p_new_matrix. split; [discriminate|].
    intros t Ht. apply list_elem_of_lookup in Ht. destruct Ht as (k & Hk).
    destruct (Hids _ _ Hk) as (_ & H1 & H2). split; assumption.
  - exact Hruns.
  - intros k t Hk. apply (Hids _ _ Hk).
  - exact Hlen.
  - unfold Pthread.initial_flags.
    rewrite fill_flags_replicate by (rewrite length_replicate; lia).
    reflexivity.
  - intros q _. split; reflexivity.
Qed.

(** The effect of the compute phase on a state that satisfies the
    invariant. *)
Lemma compute_phase_effect sa a st :
  loop_invariant sa a st ->
  exists o nw, o <> nw
  /\ (forall t, t ∈ Pthread.thread_data st ->
        Pthread.original_matrix t = o /\ Pthread.new_matrix t = nw)
  /\ let st' := Pthread.compute_phase sa st in
     Pthread.load st' o = Pthread.load st o
     /\ square (Pthread.size sa) (Pthread.load st' nw)
     /\ Pthread.thread_data st' = Pthread.thread_data st
     /\ Pthread.THREAD_PRECISION_REACHED st'
        = flags_after (Pthread.precision sa) (Pthread.load st o)
            (Pthread.size sa) (Pthread.thread_data st)
            (replicate (Z.to_nat (Pthread.num_threads sa)) true)
     /\ (forall q, q ∈ assigned_cells (Pthread.size sa) (Pthread.thread_data st) ->
           Pthread.rd (Pthread.load st' nw) (fst q) (snd q)
           = Pthread.new_value (Pthread.load st o) (fst q) (snd q))
     /\ (forall q, q ∉ assigned_cells (Pthread.size sa) (Pthread.thread_data st) ->
           Pthread.rd (Pthread.load st' nw) (fst q) (snd q)
           = Pthread.rd (Pthread.load st nw) (fst q) (snd q)).
Proof.
  intros Hinv. destruct (inv_pointers _ _ _ Hinv) as (o & nw & Hne & Hall).
  exists o, nw. split; [exact Hne|]. split; [exact Hall|].
  assert (Hsq : square (Pthread.size sa) (Pthread.load st nw))
    by (destruct nw; [apply (inv_matrix _ _ _ Hinv)
                     |apply (inv_new_matrix _ _ _ Hinv)]).
  destruct (compute_fold_effect sa o nw (Pthread.size sa)
              (Pthread.thread_data st) Hne st Hall Hsq)
    as (H1 & H2 & H3 & H4 & H5 & H6).
  cbv zeta. unfold Pthread.compute_phase.
  split; [exact H1|]. split; [exact H2|]. split; [exact H3|].
  split; [rewrite H4, (inv_flags _ _ _ Hinv); reflexivity|].
  split; [|exact H6].
  intros q Hq. apply H5; [|exact Hq].
  apply interior_in_grid.
  apply assigned_cells_elem in Hq. destruct Hq as (t & Ht & Hql).
  pose proof (inv_runs _ _ _ Hinv) as Hruns.
  rewrite Forall_forall in Hruns. specialize (Hruns t Ht).
  rewrite run_interior_assigned in Hruns. exact (Hruns _ Hql).
Qed.

Lemma continue_invariant sa a st :
  0 <= Pthread.num_threads sa ->
  loop_invariant sa a st ->
  loop_invariant sa a (Pthread.continue_phase sa (Pthread.iteration sa st)).
Proof.
  intros Hn Hinv.
  destruct (compute_phase_effect sa a st Hinv)
    as (o & nw & Hne & Hall & Ho & Hsq & Htd & Hfl & Hwr & Hun).
  cbv zeta in *.
  set (st1 := Pthread.compute_phase sa st) in *.
  assert (Hold : square (Pthread.size sa) (Pthread.load st1 o)).
  { rewrite Ho. destruct o; [apply (inv_matrix _ _ _ Hinv)
                            |apply (inv_new_matrix _ _ _ Hinv)]. }
  assert (Hb : forall p q, on_boundary (Pthread.size sa) q ->
             Pthread.rd (Pthread.load st1 p) (fst q) (snd q)
             = Pthread.rd a (fst q) (snd q)).
  { intros p q Hq.
    assert (Hst : forall p', Pthread.rd (Pthread.load st p') (fst q) (snd q)
                             = Pthread.rd a (fst q) (snd q))
      by (intros []; apply (inv_boundary _ _ _ Hinv q Hq)).
    assert (Hp : p = o \/ p = nw) by (destruct p, o, nw; tauto).
    destruct Hp as [->| ->]; [rewrite Ho; apply Hst|].
    rewrite Hun; [apply Hst|].
    apply not_assigned_boundary; [apply (inv_runs _ _ _ Hinv)|exact Hq]. }
  unfold Pthread.iteration.
  constructor; cbn [Pthread.continue_phase Pthread.decide_phase
                      Pthread.mem_matrix Pthread.mem_new_matrix
                      Pthread.thread_data Pthread.THREAD_PRECISION_REACHED].
  - fold st1. change (Pthread.mem_matrix st1) with (Pthread.load st1 Pthread.p_matrix).
    destruct o, nw; try congruence; assumption.
  - fold st1. change (Pthread.mem_new_matrix st1)
      with (Pthread.load st1 Pthread.p_new_matrix).
    destruct o, nw; try congruence; assumption.
  - exists nw, o. split; [congruence|]. intros t Ht.
    apply list_elem_of_fmap in Ht. destruct Ht as (t' & -> & Ht').
    fold st1 in Ht'. rewrite Htd in Ht'. destruct (Hall _ Ht') as [H1 H2].
    cbn. split; assumption.
  - fold st1. rewrite Htd. apply Forall_fmap.
    apply (Forall_impl _ _ _ (inv_runs _ _ _ Hinv)). intros t Ht. exact Ht.
  - fold st1. rewrite Htd. intros k t Hk.
    change (map Pthread.swap_matrices (Pthread.thread_data st))
      with (Pthread.swap_matrices <$> Pthread.thread_data st) in Hk.
    rewrite list_lookup_fmap in Hk.
    destruct (Pthread.thread_data st !! k) as [t'|] eqn:Hk'; [|discriminate Hk].
    injection Hk as <-. cbn. apply (inv_ids _ _ _ Hinv _ _ Hk').
  - fold st1. rewrite Htd, length_map. apply (inv_threads _ _ _ Hinv).
  - fold st1. rewrite Hfl.
    rewrite fill_flags_replicate
      by (rewrite flags_after_length, length_replicate; lia).
    reflexivity.
  - fold st1. intros q Hq. split.
    + apply (Hb Pthread.p_matrix q Hq).
    + apply (Hb Pthread.p_new_matrix q Hq).
Qed.

Lemma loop_head_invariant sa a (n : nat) : forall st0 st,
  0 <= Pthread.num_threads sa ->
  loop_invariant sa a st0 ->
  Pthread.loop_head n sa st0 = Some st ->
  loop_invariant sa a st.
Proof.
  induction n as [|n IH]; intros st0 st Hn Hinv; cbn [Pthread.loop_head].
  - intros [= <-]. exact Hinv.
  - destruct (Pthread.PRECISION_REACHED (Pthread.iteration sa st0));
      [intros H; discriminate H|].
    apply IH; [exact Hn|]. apply continue_invariant; assumption.
Qed.

Lemma reachable_invariant RAND_MAX rand size_arg precision_arg threads_arg
    n sa a st :
  reachable RAND_MAX rand size_arg precision_arg threads_arg n sa a st ->
  valid_args sa /\ Pthread.precision sa = precision_arg
  /\ loop_invariant sa a st.
Proof.
  intros (sa0 & sa1 & new_m & st0 & Hsetup & Ht & Hinit & Hcopy & Hst0 & Hhead).
  destruct (main_setup_Proceed _ _ _ _ Hsetup Ht)
    as (Hsz & Hp & Ht1 & Hnt & Hnull).
  destruct (matrix_init_first RAND_MAX rand sa0 a sa1 Hnull ltac:(lia) Hinit)
    as (Hsq & Hm & Hsz' & Hp' & Hnt').
  destruct (matrix_init_again RAND_MAX rand sa1 a new_m sa Hm
              ltac:(rewrite Hsz'; exact Hsq) Hcopy) as [-> ->].
  assert (Hv : valid_args sa1).
  { unfold valid_args, INT_MAX in *. rewrite Hsz', Hnt', Hnt.
    assert (Pthread.size sa0 <> 2); [|nia].
    intros H2. unfold Pthread.initial_state in Hst0.
    unfold Pthread.determine_thread_data in Hst0.
    rewrite Hnt', Hnt, H2, Z.min_r in Hst0 by lia.
    change (to_size_t ((2 - 2) * (2 - 2)) =? 0) with true in Hst0.
    discriminate Hst0. }
  split; [exact Hv|]. split; [congruence|].
  apply (loop_head_invariant sa1 a n st0 st).
  - destruct Hv as (_ & Hv & _). lia.
  - apply initial_state_invariant; [exact Hv|rewrite Hsz'; exact Hsq
                                    |exact Hst0].
  - exact Hhead.
Qed.

(** ** The layout of the MPI program *)

Lemma mul_size_bound (x s : Z) :
  0 <= x <= s -> s * s <= INT_MAX -> 0 <= x * s < 2 ^ 31.
Proof. unfold INT_MAX. intros. nia. Qed.

Section Layout.

Variables size P : Z.
Hypothesis Hvalid : valid_layout size P.

Let q := (size - 2) / P.
Let rem := (size - 2) mod P.

Lemma layout_div_mod : size - 2 = P * q + rem /\ 0 <= rem < P /\ 0 <= q.
Proof.
  destruct Hvalid as (Hs & HP & _). subst q rem.
  split; [apply Z.div_mod; lia|].
  split; [apply Z.mod_pos_bound; lia|apply Z.div_pos; lia].
Qed.

Lemma chunk_first_succ r :
  0 <= r ->
  chunk_first size P (r + 1) = chunk_first size P r + chunk_rows size P r.
Proof.
  intros Hr. unfold chunk_first, chunk_rows, spec_run_length. fold q rem.
  destruct (Z.ltb_spec r rem); lia.
Qed.

Lemma chunk_first_bounds r :
  0 <= r <= P -> 0 <= chunk_first size P r <= size - 2.
Proof.
  intros Hr. destruct layout_div_mod as (Hdm & Hrem & Hq).
  unfold chunk_first. fold q rem. nia.
Qed.

Lemma chunk_first_0 : chunk_first size P 0 = 0.
Proof.
  destruct layout_div_mod as (_ & Hrem & _).
  unfold chunk_first. fold rem. lia.
Qed.

Lemma chunk_first_P : chunk_first size P P = size - 2.
Proof.
  destruct layout_div_mod as (Hdm & Hrem & Hq).
  unfold chunk_first. fold q rem. lia.
Qed.

Lemma chunk_rows_bounds r : 0 <= r -> q <= chunk_rows size P r <= q + 1.
Proof.
  intros Hr. unfold chunk_rows, spec_run_length. fold q rem.
  destruct (r <? rem); lia.
Qed.

Lemma layout_loop_spec (n : nat) : forall r,
  0 <= r -> r + Z.of_nat n <= P ->
  Mpi.layout_loop n size q (rem - Z.min r rem) (chunk_first size P r * size)
  = chunk_spec size P <$> seqZ r (Z.of_nat n).
Proof.
  destruct layout_div_mod as (Hdm & Hrem & Hq).
  destruct Hvalid as (Hs & HP & Hint).
  assert (Hqs : q <= size - 2) by nia.
  induction n as [|n IH]; intros r Hr Hle; cbn [Mpi.layout_loop];
    [reflexivity|].
  rewrite seqZ_cons by lia. cbn [fmap list_fmap].
  pose proof (chunk_first_bounds r ltac:(lia)) as HF.
  pose proof (chunk_first_bounds (r + 1) ltac:(lia)) as HF1.
  pose proof (chunk_first_succ r Hr) as Hsucc.
  pose proof (chunk_rows_bounds r Hr) as HR.
  set (F := chunk_first size P r) in *.
  set (R := chunk_rows size P r) in *.
  assert (Hcnt0 : to_int (to_size_t ((q + 2) * size)) = (q + 2) * size).
  { pose proof (mul_size_bound (q + 2) size ltac:(lia) Hint).
    rewrite to_size_t_small, to_int_small; lia. }
  assert (Hcnt : (if 0 <? rem - Z.min r rem
                  then to_int (to_size_t
                         (to_size_t (to_int (to_size_t ((q + 2) * size))) + size))
                  else to_int (to_size_t ((q + 2) * size)))
                 = (R + 2) * size).
  { rewrite Hcnt0.
    assert (HReq : R = q + (if r <? rem then 1 else 0)) by reflexivity.
    destruct (Z.ltb_spec 0 (rem - Z.min r rem)), (Z.ltb_spec r rem); try lia.
    - pose proof (mul_size_bound (q + 2) size ltac:(lia) Hint).
      pose proof (mul_size_bound (q + 3) size ltac:(lia) Hint).
      rewrite (to_size_t_small ((q + 2) * size)) by lia.
      rewrite to_size_t_small, to_int_small; lia. }
  rewrite Hcnt.
  pose proof (mul_size_bound F size ltac:(lia) Hint) as HbF.
  pose proof (mul_size_bound (R + 2) size ltac:(lia) Hint) as HbR.
  pose proof (mul_size_bound 2 size ltac:(lia) Hint) as Hb2.
  pose proof (mul_size_bound R size ltac:(lia) Hint) as HbR0.
  pose proof (mul_size_bound (F + 1) size ltac:(lia) Hint) as HbF1.
  rewrite (to_int_small (F * size)) by lia.
  rewrite (to_size_t_small ((R + 2) * size)) by lia.
  rewrite (to_size_t_small (2 * size)) by lia.
  replace ((R + 2) * size - 2 * size) with (R * size) by lia.
  rewrite (to_size_t_small (R * size)) by lia.
  rewrite (to_int_small (R * size)) by lia.
  rewrite (to_size_t_small (F * size)) by lia.
  replace (F * size + size) with ((F + 1) * size) by lia.
  rewrite (to_size_t_small ((F + 1) * size)) by lia.
  rewrite (to_int_small ((F + 1) * size)) by lia.
  f_equal.
  replace (Z.succ r) with (r + 1) by lia.
  replace (Z.pred (Z.of_nat (S n))) with (Z.of_nat n) by lia.
  rewrite <- IH by lia. f_equal.
  - destruct (Z.ltb_spec 0 (rem - Z.min r rem)); lia.
  - replace (F * size + R * size) with ((F + R) * size) by lia.
    pose proof (mul_size_bound (F + R) size ltac:(lia) Hint).
    rewrite to_size_t_small by lia. rewrite Hsucc. reflexivity.
Qed.

(** The four arrays computed by [relax_matrix_parallel]. *)
Lemma layout_spec : Mpi.layout size P = chunk_spec size P <$> seqZ 0 P.
Proof.
  destruct layout_div_mod as (Hdm & Hrem & Hq).
  destruct Hvalid as (Hs & HP & Hint). unfold INT_MAX in Hint, HP.
  unfold Mpi.layout.
  rewrite (to_size_t_small (size - 2)), (to_size_t_small P) by nia.
  fold q rem.
  pose proof (layout_loop_spec (Z.to_nat P) 0 ltac:(lia) ltac:(lia)) as H.
  rewrite chunk_first_0, Z.min_l, Z.sub_0_r, Z2Nat.id in H by lia.
  exact H.
Qed.

Lemma layout_lookup (r : nat) c :
  Mpi.layout size P !! r = Some c ->
  Z.of_nat r < P /\ c = chunk_spec size P (Z.of_nat r).
Proof.
  rewrite layout_spec, list_lookup_fmap.
  destruct (seqZ 0 P !! r) as [z|] eqn:Hz; [|intros H; discriminate H].
  apply lookup_seqZ in Hz. destruct Hz as [-> Hlt].
  intros [= <-]. split; [exact Hlt|reflexivity].
Qed.

End Layout.

Lemma gathered_chunks size P (Hvalid : valid_layout size P) (n : nat) :
  forall r, 0 <= r -> r + Z.of_nat n <= P ->
  gathered (chunk_spec size P <$> seqZ r (Z.of_nat n))
  = seqZ ((chunk_first size P r + 1) * size)
         ((chunk_first size P (r + Z.of_nat n) - chunk_first size P r) * size).
Proof.
  pose proof Hvalid as (Hs & HP & Hint). unfold gathered.
  induction n as [|n IH]; intros r Hr Hle.
  - rewrite Z.add_0_r, Z.sub_diag. reflexivity.
  - rewrite seqZ_cons by lia. cbn [fmap list_fmap mbind list_bind].
    replace (Z.succ r) with (r + 1) by lia.
    replace (Z.pred (Z.of_nat (S n))) with (Z.of_nat n) by lia.
    fold (@fmap list _ _ _ (chunk_spec size P) (seqZ (r + 1) (Z.of_nat n))).
    fold (@mbind list _ _ _
            (fun c => seqZ (Mpi.gather_displ c) (Mpi.gather_count c))
            (chunk_spec size P <$> seqZ (r + 1) (Z.of_nat n))).
    rewrite IH by lia. cbn [chunk_spec Mpi.gather_displ Mpi.gather_count].
    pose proof (chunk_first_succ size P r Hr) as Hsucc.
    pose proof (chunk_rows_bounds size P r Hr) as HR.
    destruct (layout_div_mod size P Hvalid) as (_ & _ & Hq).
    pose proof (chunk_first_bounds size P Hvalid (r + 1) ltac:(lia)) as HF1.
    pose proof (chunk_first_bounds size P Hvalid (r + 1 + Z.of_nat n)
                  ltac:(lia)) as HFn.
    assert (Hmono : chunk_first size P (r + 1)
                    <= chunk_first size P (r + 1 + Z.of_nat n)).
    { unfold chunk_first. nia. }
    replace (r + Z.of_nat (S n)) with (r + 1 + Z.of_nat n) by lia.
    rewrite Hsucc.
    replace ((chunk_first size P (r + 1 + Z.of_nat n) - chunk_first size P r)
             * size)
      with (chunk_rows size P r * size
            + (chunk_first size P (r + 1 + Z.of_nat n)
               - (chunk_first size P r + chunk_rows size P r)) * size) by lia.
    rewrite seqZ_app by nia. f_equal. f_equal. lia.
Qed.

(** The gather writes every cell of rows 1 to size-2 once, in order. *)
Lemma gathered_layout size P :
  valid_layout size P ->
  gathered (Mpi.layout size P) = seqZ size ((size - 2) * size).
Proof.
  intros Hvalid. pose proof Hvalid as (Hs & HP & Hint).
  rewrite (layout_spec size P Hvalid).
  pose proof (gathered_chunks size P Hvalid (Z.to_nat P) 0
                ltac:(lia) ltac:(lia)) as Hg.
  rewrite Z2Nat.id in Hg by lia. rewrite Hg.
  replace (0 + P) with P by lia.
  rewrite (chunk_first_0 size P Hvalid), (chunk_first_P size P Hvalid).
  f_equal; lia.
Qed.

(** ** Reading and writing a flat buffer *)

Lemma mpi_rd_wr_same (m : list float) i v :
  0 <= i < Z.of_nat (length m) -> Mpi.rd (Mpi.wr m i v) i = v.
Proof.
  intros Hi. unfold Mpi.rd, Mpi.wr.
  destruct (Z.leb_spec 0 i); [|lia].
  rewrite list_lookup_insert_eq by lia. reflexivity.
Qed.

Lemma mpi_rd_wr_other (m : list float) i j v :
  i <> j -> Mpi.rd (Mpi.wr m i v) j = Mpi.rd m j.
Proof.
  intros Hne. unfold Mpi.rd, Mpi.wr.
  destruct (Z.leb_spec 0 j); [|reflexivity].
  destruct (Z.leb_spec 0 i); [|reflexivity].
  rewrite list_lookup_insert_ne by lia. reflexivity.
Qed.

Lemma mpi_wr_length (m : list float) i v : length (Mpi.wr m i v) = length m.
Proof.
  unfold Mpi.wr. destruct (0 <=? i); [apply length_insert|reflexivity].
Qed.

Lemma rd_scatterv (m : list float) c i :
  0 <= Mpi.scatter_displ c -> 0 <= i < Mpi.scatter_count c ->
  Mpi.rd (Mpi.scatterv m c) i = Mpi.rd m (Mpi.scatter_displ c + i).
Proof.
  intros Hd Hi. unfold Mpi.rd, Mpi.scatterv.
  destruct (Z.leb_spec 0 i); [|lia].
  destruct (Z.leb_spec 0 (Mpi.scatter_displ c + i)); [|lia].
  rewrite lookup_take_lt by lia. rewrite lookup_drop.
  replace (Z.to_nat (Mpi.scatter_displ c) + Z.to_nat i)%nat
    with (Z.to_nat (Mpi.scatter_displ c + i)) by lia.
  reflexivity.
Qed.

Lemma write_at_length data : forall (m : list float) pos,
  length (Mpi.write_at m pos data) = length m.
Proof.
  induction data as [|x data IH]; intros m pos; cbn [Mpi.write_at];
    [reflexivity|].
  rewrite IH. apply mpi_wr_length.
Qed.

Lemma write_at_outside data : forall (m : list float) pos p,
  ~ (pos <= p < pos + Z.of_nat (length data)) ->
  Mpi.rd (Mpi.write_at m pos data) p = Mpi.rd m p.
Proof.
  induction data as [|x data IH]; intros m pos p Hp; cbn [Mpi.write_at];
    [reflexivity|].
  cbn [length] in Hp. rewrite IH by lia. apply mpi_rd_wr_other. lia.
Qed.

Lemma write_at_inside data : forall (m : list float) pos j,
  0 <= pos -> pos + Z.of_nat (length data) <= Z.of_nat (length m) ->
  0 <= j < Z.of_nat (length data) ->
  Mpi.rd (Mpi.write_at m pos data) (pos + j) = Mpi.rd data j.
Proof.
  induction data as [|x data IH]; intros m pos j Hpos Hfit Hj;
    cbn [Mpi.write_at length] in *; [lia|].
  destruct (Z.eq_dec j 0) as [->|Hj0].
  - rewrite write_at_outside by lia. rewrite Z.add_0_r.
    rewrite mpi_rd_wr_same by lia. reflexivity.
  - replace (pos + j) with (pos + 1 + (j - 1)) by lia.
    rewrite IH by (rewrite ?mpi_wr_length; lia).
    unfold Mpi.rd. destruct (Z.leb_spec 0 (j - 1)); [|lia].
    destruct (Z.leb_spec 0 j); [|lia].
    replace (Z.to_nat j) with (S (Z.to_nat (j - 1))) by lia. reflexivity.
Qed.

(** ** One call of the MPI worker *)

Lemma relax_cell_spec size precision input ii ri result reached :
  0 <= ii < 2 ^ 63 ->
  Mpi.relax_cell size precision input ii ri (result, reached)
  = (Mpi.wr result ri (cell_value size input ii),
     reached && cell_within precision size input ii).
Proof.
  intros Hii. unfold Mpi.relax_cell, cell_value, cell_within, on_edge.
  rewrite (to_size_t_small ii), (to_size_t_small (ii + 1)) by lia.
  destruct ((ii mod size =? 0) || ((ii + 1) mod size =? 0)); cbn [orb].
  - rewrite andb_true_r. reflexivity.
  - f_equal. destruct reached; cbn [andb]; [|reflexivity].
    destruct (_ <? _)%float; reflexivity.
Qed.

Lemma relax_loop_spec size precision input (n : nat) :
  forall ii ri result reached,
  0 <= ii -> ii + Z.of_nat n < 2 ^ 63 -> 0 <= ri ->
  let out := Mpi.relax_loop n size precision input ii ri (result, reached) in
  length (fst out) = length result
  /\ (forall k, 0 <= k < Z.of_nat n -> ri + k < Z.of_nat (length result) ->
        Mpi.rd (fst out) (ri + k) = cell_value size input (ii + k))
  /\ (forall j, ~ (ri <= j < ri + Z.of_nat n) ->
        Mpi.rd (fst out) j = Mpi.rd result j)
  /\ snd out
     = reached && forallb (cell_within precision size input)
                    (seqZ ii (Z.of_nat n)).
Proof.
  induction n as [|n IH]; intros ii ri result reached Hii Hn Hri;
    cbn [Mpi.relax_loop].
  - cbn. rewrite andb_true_r. repeat split; intros; lia.
  - rewrite relax_cell_spec by lia.
    destruct (IH (ii + 1) (ri + 1)
                (Mpi.wr result ri (cell_value size input ii))
                (reached && cell_within precision size input ii)
                ltac:(lia) ltac:(lia) ltac:(lia))
      as (Hlen & Hin & Hout & Hfl).
    cbv zeta in *. rewrite mpi_wr_length in Hlen, Hin.
    split; [exact Hlen|]. split; [|split].
    + intros k Hk Hfit. destruct (Z.eq_dec k 0) as [->|Hk0].
      * replace (ri + 0) with ri in * by lia.
        replace (ii + 0) with ii by lia. rewrite Hout by lia.
        apply mpi_rd_wr_same. lia.
      * replace (ri + k) with (ri + 1 + (k - 1)) by lia.
        rewrite Hin by lia. f_equal. lia.
    + intros j Hj. rewrite Hout by lia. apply mpi_rd_wr_other. lia.
    + rewrite Hfl. rewrite (seqZ_cons ii) by lia. cbn [forallb].
      replace (Z.succ ii) with (ii + 1) by lia.
      replace (Z.pred (Z.of_nat (S n))) with (Z.of_nat n) by lia.
      rewrite andb_assoc. reflexivity.
Qed.

(** [relax_cells] on a buffer of [rows] working rows and two halo rows. *)
Lemma relax_cells_spec size precision input result rows :
  3 <= size -> 0 <= rows -> (rows + 2) * size <= INT_MAX ->
  let out := Mpi.relax_cells input result size ((rows + 2) * size) precision in
  length (fst out) = length result
  /\ (forall k, 0 <= k < rows * size -> k < Z.of_nat (length result) ->
        Mpi.rd (fst out) k = cell_value size input (size + k))
  /\ (forall j, ~ (0 <= j < rows * size) ->
        Mpi.rd (fst out) j = Mpi.rd result j)
  /\ snd out
     = forallb (cell_within precision size input) (seqZ size (rows * size)).
Proof.
  intros Hs Hrows Hint. unfold INT_MAX in Hint. unfold Mpi.relax_cells.
  assert (Hn : 0 <= rows * size) by nia.
  rewrite (to_int_small size) by nia.
  replace ((rows + 2) * size - size - 1) with (rows * size + size - 1) by lia.
  rewrite to_size_t_small, to_int_small by lia.
  replace (rows * size + size - 1 - size + 1) with (rows * size) by lia.
  destruct (relax_loop_spec size precision input (Z.to_nat (rows * size))
              size 0 result true ltac:(lia) ltac:(lia) ltac:(lia))
    as (Hlen & Hin & Hout & Hfl).
  cbv zeta in *. rewrite Z2Nat.id in * by lia.
  split; [exact Hlen|]. split; [|split].
  - intros k Hk Hfit. specialize (Hin k Hk). rewrite Z.add_0_l in Hin.
    apply Hin. exact Hfit.
  - intros j Hj. apply Hout. lia.
  - rewrite Hfl. reflexivity.
Qed.

(** ** The gather *)

Lemma gatherv_length cs : forall (m : list float) bufs,
  length (Mpi.gatherv m cs bufs) = length m.
Proof.
  induction cs as [|c cs IH]; intros m bufs; cbn [Mpi.gatherv]; [reflexivity|].
  destruct bufs as [|b bufs]; [reflexivity|].
  rewrite IH. apply write_at_length.
Qed.

Lemma gatherv_outside cs : forall (m : list float) bufs p,
  (forall c, c ∈ cs ->
     ~ (Mpi.gather_displ c <= p < Mpi.gather_displ c + Mpi.gather_count c)) ->
  Mpi.rd (Mpi.gatherv m cs bufs) p = Mpi.rd m p.
Proof.
  induction cs as [|c cs IH]; intros m bufs p Hout; cbn [Mpi.gatherv];
    [reflexivity|].
  destruct bufs as [|b bufs]; [reflexivity|].
  rewrite IH by (intros c' Hc'; apply Hout; apply list_elem_of_further;
                 exact Hc').
  apply write_at_outside. rewrite length_take.
  specialize (Hout c (list_elem_of_here _ _)). lia.
Qed.

Lemma gatherv_inside cs : forall (m : list float) bufs (k : nat) c b j,
  cs !! k = Some c -> bufs !! k = Some b ->
  (forall k' c', cs !! k' = Some c' -> (k < k')%nat ->
     Mpi.gather_displ c + Mpi.gather_count c <= Mpi.gather_displ c') ->
  0 <= Mpi.gather_displ c ->
  Mpi.gather_displ c + Mpi.gather_count c <= Z.of_nat (length m) ->
  Mpi.gather_count c <= Z.of_nat (length b) ->
  0 <= j < Mpi.gather_count c ->
  Mpi.rd (Mpi.gatherv m cs bufs) (Mpi.gather_displ c + j) = Mpi.rd b j.
Proof.
  induction cs as [|c0 cs IH]; intros m bufs k c b j Hc Hb Hlater Hd Hfit Hlen Hj;
    [discriminate Hc|].
  destruct bufs as [|b0 bufs]; [discriminate Hb|].
  cbn [Mpi.gatherv]. destruct k as [|k]; cbn [lookup list_lookup] in Hc, Hb.
  - injection Hc as ->. injection Hb as ->.
    rewrite gatherv_outside.
    + rewrite write_at_inside by (rewrite ?length_take; lia).
      unfold Mpi.rd. destruct (0 <=? j); [|reflexivity].
      rewrite lookup_take_lt by lia. reflexivity.
    + intros c' Hc'. apply list_elem_of_lookup in Hc'.
      destruct Hc' as (k' & Hk').
      specialize (Hlater (S k') c' Hk' ltac:(lia)). lia.
  - apply (IH _ _ k); try assumption.
    + intros k' c' Hk' Hlt. apply (Hlater (S k') c' Hk'). lia.
    + rewrite write_at_length. exact Hfit.
Qed.

(** ** One turn of the MPI loop *)

Lemma forallb_seqZ_shift (f g : Z -> bool) (d : Z) (n : nat) : forall a,
  (forall x, a <= x < a + Z.of_nat n -> f x = g (x + d)) ->
  forallb f (seqZ a (Z.of_nat n)) = forallb g (seqZ (a + d) (Z.of_nat n)).
Proof.
  induction n as [|n IH]; intros a Hfg; [reflexivity|].
  rewrite (seqZ_cons a), (seqZ_cons (a + d)) by lia. cbn [forallb].
  replace (Z.pred (Z.of_nat (S n))) with (Z.of_nat n) by lia.
  replace (Z.succ (a + d)) with (Z.succ a + d) by lia.
  rewrite <- IH by (intros x Hx; apply Hfg; lia).
  rewrite (Hfg a) by lia. reflexivity.
Qed.

Lemma compute_lookup size precision m cs : forall bufs (r : nat) c b,
  cs !! r = Some c -> bufs !! r = Some b ->
  Mpi.compute size precision m cs bufs !! r
  = Some (Mpi.relax_cells (Mpi.scatterv m c) b size
            (to_size_t (Mpi.scatter_count c)) precision).
Proof.
  induction cs as [|c0 cs IH]; intros bufs r c b Hc Hb; [discriminate Hc|].
  destruct bufs as [|b0 bufs]; [discriminate Hb|].
  cbn [Mpi.compute]. destruct r as [|r]; cbn [lookup list_lookup] in *.
  - injection Hc as ->. injection Hb as ->. reflexivity.
  - apply IH; assumption.
Qed.

Lemma compute_length size precision m cs : forall bufs,
  length bufs = length cs ->
  length (Mpi.compute size precision m cs bufs) = length cs.
Proof.
  induction cs as [|c0 cs IH]; intros bufs Hlen; [reflexivity|].
  destruct bufs as [|b0 bufs]; [discriminate Hlen|].
  cbn [Mpi.compute length] in *. rewrite IH by lia. reflexivity.
Qed.

Lemma on_edge_shift size F idx :
  0 < size -> on_edge size (F * size + idx) = on_edge size idx.
Proof.
  intros Hs. unfold on_edge.
  replace (F * size + idx + 1) with (idx + 1 + F * size) by lia.
  replace (F * size + idx) with (idx + F * size) by lia.
  rewrite !Z.mod_add by lia. reflexivity.
Qed.

Section MpiTurn.

Variables size P : Z.
Variable precision : float.
Hypothesis Hvalid : valid_layout size P.

(** What rank [r] computes from its slice is what the stencil gives on the
    root's matrix at the same cells. *)
Lemma new_value_scatterv (m : list float) (r j : Z) :
  0 <= r < P -> 0 <= j < chunk_rows size P r * size ->
  Mpi.new_value (Mpi.scatterv m (chunk_spec size P r)) size (size + j)
  = Mpi.new_value m size (Mpi.gather_displ (chunk_spec size P r) + j)
  /\ Mpi.rd (Mpi.scatterv m (chunk_spec size P r)) (size + j)
     = Mpi.rd m (Mpi.gather_displ (chunk_spec size P r) + j)
  /\ on_edge size (size + j)
     = on_edge size (Mpi.gather_displ (chunk_spec size P r) + j).
Proof.
  intros Hr Hj. destruct Hvalid as (Hs & HP & Hint).
  pose proof (chunk_first_bounds size P Hvalid r ltac:(lia)) as HF.
  set (c := chunk_spec size P r).
  assert (Hd : 0 <= Mpi.scatter_displ c) by (cbn; nia).
  assert (Hcount : Mpi.scatter_count c = chunk_rows size P r * size + 2 * size)
    by (cbn; lia).
  assert (Hgd : Mpi.gather_displ c = Mpi.scatter_displ c + size) by (cbn; lia).
  split; [|split].
  - unfold Mpi.new_value. rewrite !rd_scatterv by lia.
    replace (Mpi.scatter_displ c + (size + j - size))
      with (Mpi.gather_displ c + j - size) by lia.
    replace (Mpi.scatter_displ c + (size + j + size))
      with (Mpi.gather_displ c + j + size) by lia.
    replace (Mpi.scatter_displ c + (size + j - 1))
      with (Mpi.gather_displ c + j - 1) by lia.
    replace (Mpi.scatter_displ c + (size + j + 1))
      with (Mpi.gather_displ c + j + 1) by lia.
    reflexivity.
  - rewrite rd_scatterv by lia. rewrite Hgd. f_equal. lia.
  - rewrite Hgd. cbn [c chunk_spec Mpi.scatter_displ].
    rewrite <- Z.add_assoc. rewrite on_edge_shift by lia. reflexivity.
Qed.

Lemma later_chunks_above (r r' : Z) :
  0 <= r -> r < r' ->
  Mpi.gather_displ (chunk_spec size P r) + Mpi.gather_count (chunk_spec size P r)
  <= Mpi.gather_displ (chunk_spec size P r').
Proof.
  intros Hr Hlt. destruct Hvalid as (Hs & HP & Hint).
  destruct (layout_div_mod size P Hvalid) as (_ & Hrem & Hq).
  pose proof (chunk_first_succ size P r Hr) as Hsucc.
  assert (Hmono : chunk_first size P (r + 1) <= chunk_first size P r').
  { unfold chunk_first. nia. }
  cbn. nia.
Qed.

Lemma iteration_effect (st : Mpi.state) :
  mpi_invariant size P st ->
  let st' := Mpi.iteration size precision (Mpi.layout size P) st in
  mpi_invariant size P st'
  /\ (forall p, size <= p < size * (size - 1) ->
        Mpi.rd (Mpi.matrix st') p = cell_value size (Mpi.matrix st) p)
  /\ (forall p, ~ (size <= p < size * (size - 1)) ->
        Mpi.rd (Mpi.matrix st') p = Mpi.rd (Mpi.matrix st) p)
  /\ (forall (r : nat) c, Mpi.layout size P !! r = Some c ->
        Mpi.local_precision st' !! r
        = Some (forallb (cell_within precision size (Mpi.matrix st))
                  (seqZ (Mpi.gather_displ c) (Mpi.gather_count c))))
  /\ Mpi.global_precision st' = Mpi.allreduce_land (Mpi.local_precision st').
Proof.
  intros (Hlen & Hbufs & Hbuf). destruct Hvalid as (Hs & HP & Hint).
  set (cs := Mpi.layout size P) in *.
  set (out := Mpi.compute size precision (Mpi.matrix st) cs (Mpi.recv_buffer st)).
  cbv zeta. unfold Mpi.iteration. fold out.
  cbn [Mpi.matrix Mpi.recv_buffer Mpi.local_precision Mpi.global_precision].
  assert (Hout : forall (r : nat) c, cs !! r = Some c ->
            exists b, Mpi.recv_buffer st !! r = Some b
            /\ out !! r = Some (Mpi.relax_cells (Mpi.scatterv (Mpi.matrix st) c)
                                   b size (to_size_t (Mpi.scatter_count c))
                                   precision)
            /\ Z.of_nat (length b) = Mpi.gather_count c
            /\ Z.of_nat r < P /\ c = chunk_spec size P (Z.of_nat r)).
  { intros r c Hc.
    destruct (lookup_lt_is_Some_2 (Mpi.recv_buffer st) r) as [b Hb].
    { rewrite Hbufs. apply lookup_lt_is_Some. eauto. }
    exists b. split; [exact Hb|].
    split; [apply compute_lookup; assumption|].
    split; [apply (Hbuf _ _ _ Hc Hb)|].
    apply (layout_lookup size P Hvalid). exact Hc. }
  assert (Hworker : forall (r : nat) c, cs !! r = Some c ->
            exists o, out !! r = Some o
            /\ Z.of_nat (length (fst o)) = Mpi.gather_count c
            /\ (forall j, 0 <= j < Mpi.gather_count c ->
                  Mpi.rd (fst o) j
                  = cell_value size (Mpi.matrix st) (Mpi.gather_displ c + j))
            /\ snd o = forallb (cell_within precision size (Mpi.matrix st))
                         (seqZ (Mpi.gather_displ c) (Mpi.gather_count c))).
  { intros r c Hc. destruct (Hout r c Hc) as (b & Hb & Ho & Hlb & Hr & ->).
    pose proof (chunk_first_bounds size P Hvalid (Z.of_nat r) ltac:(lia)) as HF.
    pose proof (chunk_first_bounds size P Hvalid (Z.of_nat r + 1) ltac:(lia))
      as HF1.
    pose proof (chunk_first_succ size P (Z.of_nat r) ltac:(lia)) as Hsucc.
    pose proof (chunk_rows_bounds size P (Z.of_nat r) ltac:(lia)) as HR.
    destruct (layout_div_mod size P Hvalid) as (_ & _ & Hq).
    set (rows := chunk_rows size P (Z.of_nat r)) in *.
    assert (Hrint : (rows + 2) * size <= INT_MAX) by (unfold INT_MAX in *; nia).
    destruct (relax_cells_spec size precision
                (Mpi.scatterv (Mpi.matrix st) (chunk_spec size P (Z.of_nat r)))
                b rows Hs ltac:(lia) Hrint) as (H1 & H2 & _ & H4).
    cbv zeta in *.
    change (Mpi.scatter_count (chunk_spec size P (Z.of_nat r)))
      with ((rows + 2) * size) in Ho.
    rewrite to_size_t_small in Ho by (unfold INT_MAX in *; nia).
    eexists. split; [exact Ho|].
    change (Mpi.gather_count (chunk_spec size P (Z.of_nat r)))
      with (rows * size) in *.
    split; [rewrite H1; exact Hlb|]. split.
    - intros j Hj. rewrite H2 by lia.
      destruct (new_value_scatterv (Mpi.matrix st) (Z.of_nat r) j
                  ltac:(lia) Hj) as (Hnv & Hrd & Hedge).
      unfold cell_value. rewrite Hnv, Hrd, Hedge. reflexivity.
    - rewrite H4.
      assert (Hrs : 0 <= rows * size) by nia.
      rewrite <- (Z2Nat.id (rows * size)) by exact Hrs.
      replace (Mpi.gather_displ (chunk_spec size P (Z.of_nat r)))
        with (size + chunk_first size P (Z.of_nat r) * size) by (cbn; lia).
      apply forallb_seqZ_shift. intros x Hx. rewrite Z2Nat.id in Hx by exact Hrs.
      destruct (new_value_scatterv (Mpi.matrix st) (Z.of_nat r) (x - size)
                  ltac:(lia) ltac:(fold rows; lia)) as (Hnv & Hrd & Hedge).
      replace (size + (x - size)) with x in * by lia.
      replace (Mpi.gather_displ (chunk_spec size P (Z.of_nat r)) + (x - size))
        with (x + chunk_first size P (Z.of_nat r) * size) in * by (cbn; lia).
      unfold cell_within. rewrite Hnv, Hrd, Hedge. reflexivity. }
  split; [|split; [|split; [|split]]].
  - unfold mpi_invariant. cbn [Mpi.matrix Mpi.recv_buffer]. fold cs.
    split; [rewrite gatherv_length; exact Hlen|]. split.
    + rewrite length_map. apply compute_length. exact Hbufs.
    + intros r c b Hc Hb. destruct (Hworker r c Hc) as (o & Ho & Hlo & _).
      change (map fst out) with (fst <$> out) in Hb.
      rewrite list_lookup_fmap, Ho in Hb. injection Hb as <-. exact Hlo.
  - intros p Hp.
    assert (Hin : p ∈ gathered cs).
    { unfold cs. rewrite (gathered_layout size P Hvalid).
      apply elem_of_seqZ. lia. }
    unfold gathered in Hin. apply list_elem_of_bind in Hin.
    destruct Hin as (c & Hpc & Hc). apply elem_of_seqZ in Hpc.
    apply list_elem_of_lookup in Hc. destruct Hc as (r & Hc).
    destruct (Hworker r c Hc) as (o & Ho & Hlo & Hval & _).
    destruct (Hout r c Hc) as (_ & _ & _ & _ & Hr & Hceq).
    replace p with (Mpi.gather_displ c + (p - Mpi.gather_displ c)) by lia.
    rewrite (gatherv_inside cs _ (map fst out) r c (fst o)).
    + apply Hval. lia.
    + exact Hc.
    + change (map fst out) with (fst <$> out).
      rewrite list_lookup_fmap, Ho. reflexivity.
    + intros k' c' Hk' Hlt.
      destruct (Hout k' c' Hk') as (_ & _ & _ & _ & _ & ->). rewrite Hceq.
      apply later_chunks_above; lia.
    + rewrite Hceq. cbn.
      pose proof (chunk_first_bounds size P Hvalid (Z.of_nat r) ltac:(lia)). nia.
    + rewrite Hlen, Hceq.
      pose proof (chunk_first_bounds size P Hvalid (Z.of_nat r + 1) ltac:(lia))
        as HF1.
      rewrite (chunk_first_succ size P (Z.of_nat r)) in HF1 by lia.
      cbn. nia.
    + lia.
    + lia.
  - intros p Hp. apply gatherv_outside. intros c Hc Hpc.
    apply Hp.
    assert (Hin : p ∈ gathered cs).
    { unfold gathered. apply list_elem_of_bind. exists c.
      split; [apply elem_of_seqZ; lia|exact Hc]. }
    unfold cs in Hin. rewrite (gathered_layout size P Hvalid) in Hin.
    apply elem_of_seqZ in Hin. lia.
  - intros r c Hc. destruct (Hworker r c Hc) as (o & Ho & _ & _ & Hfl).
    change (map snd out) with (snd <$> out).
    rewrite list_lookup_fmap, Ho. cbn. rewrite Hfl. reflexivity.
  - reflexivity.
Qed.

End MpiTurn.

(** ** The MPI loop keeps its invariant *)

Lemma mpi_initial_invariant size P (m : list float) :
  valid_layout size P ->
  Z.of_nat (length m) = size * size ->
  mpi_invariant size P (Mpi.initial_state m (Mpi.layout size P)).
Proof.
  intros Hvalid Hlen. unfold mpi_invariant, Mpi.initial_state.
  cbn [Mpi.matrix Mpi.recv_buffer].
  split; [exact Hlen|]. split; [apply length_map|].
  intros r c b Hc Hb.
  change (map ?f ?l) with (f <$> l) in Hb.
  rewrite list_lookup_fmap, Hc in Hb. injection Hb as <-.
  rewrite length_replicate.
  destruct (layout_lookup size P Hvalid r c Hc) as [Hr ->].
  destruct Hvalid as (Hs & HP & _).
  pose proof (chunk_rows_bounds size P (Z.of_nat r) ltac:(lia)).
  assert (0 <= (size - 2) / P) by (apply Z.div_pos; lia).
  cbn. nia.
Qed.

(** The loop returns the state it reached after some number of turns. *)
Lemma mpi_while_loop_after size precision cs (fuel : nat) : forall st st',
  Mpi.while_loop fuel size precision cs st = Some st' ->
  exists n, st' = Mpi.after_iterations n size precision cs st.
Proof.
  induction fuel as [|fuel IH]; intros st st'; cbn [Mpi.while_loop];
    [intros H; discriminate H|].
  destruct (Mpi.global_precision st).
  - intros [= <-]. exists 0%nat. reflexivity.
  - intros H. apply IH in H. destruct H as (n & ->).
    exists (S n). reflexivity.
Qed.

(** ** The initial grid of the MPI program *)

Lemma mpi_matrix_init_length size :
  0 <= size <= 10000000 ->
  Z.of_nat (length (Mpi.matrix_init size)) = size * size.
Proof.
  intros Hs. unfold Mpi.matrix_init.
  rewrite length_map, length_seq, to_size_t_small by nia. nia.
Qed.

Lemma mpi_matrix_init_cell size i j :
  2 <= size <= 10000000 -> 0 <= i < size -> 0 <= j < size ->
  Mpi.rd (Mpi.matrix_init size) (i * size + j)
  = if (i =? 0) || (i =? size - 1) || (j =? 0) || (j =? size - 1)
    then 1%float else 0%float.
Proof.
  intros Hs Hi Hj. unfold Mpi.rd, Mpi.matrix_init.
  assert (Hp : 0 <= i * size + j < size * size) by nia.
  destruct (Z.leb_spec 0 (i * size + j)); [|lia].
  rewrite lookup_map_seq, to_size_t_small by nia.
  destruct (Nat.ltb_spec (Z.to_nat (i * size + j)) (Z.to_nat (size * size)));
    [|lia].
  cbn [Nat.add default]. rewrite Z2Nat.id by lia.
  unfold Mpi.on_side.
  rewrite (to_size_t_small (size - 1)) by lia.
  rewrite (to_size_t_small (size * (size - 1))) by nia.
  replace (i * size + j) with (j + i * size) by lia.
  rewrite Z.mod_add, Z.mod_small by lia.
  destruct (Z.eqb_spec i 0), (Z.eqb_spec i (size - 1)), (Z.eqb_spec j 0),
    (Z.eqb_spec j (size - 1)), (Z.ltb_spec (j + i * size) size),
    (Z.leb_spec (size * (size - 1)) (j + i * size));
    cbn [orb]; try reflexivity; nia.
Qed.

(** ** From the loops to their results *)

Lemma compute_phase_boundary sa a st p q :
  loop_invariant sa a st -> on_boundary (Pthread.size sa) q ->
  Pthread.rd (Pthread.load (Pthread.compute_phase sa st) p) (fst q) (snd q)
  = Pthread.rd a (fst q) (snd q).
Proof.
  intros Hinv Hq.
  destruct (compute_phase_effect sa a st Hinv)
    as (o & nw & Hne & Hall & Ho & Hsq & Htd & Hfl & Hwr & Hun).
  cbv zeta in *.
  assert (Hst : forall p', Pthread.rd (Pthread.load st p') (fst q) (snd q)
                           = Pthread.rd a (fst q) (snd q))
    by (intros []; apply (inv_boundary _ _ _ Hinv q Hq)).
  assert (Hp : p = o \/ p = nw) by (destruct p, o, nw; tauto).
  destruct Hp as [->| ->]; [rewrite Ho; apply Hst|].
  rewrite Hun; [apply Hst|].
  apply not_assigned_boundary; [apply (inv_runs _ _ _ Hinv)|exact Hq].
Qed.

(** The coordinator leaves its loop in the state reached by one more turn
    from some head of the loop. *)
Lemma coordinator_loop_returns sa (fuel : nat) : forall st0 st',
  Pthread.coordinator_loop fuel sa st0 = Some st' ->
  exists n st, Pthread.loop_head n sa st0 = Some st
               /\ st' = Pthread.iteration sa st
               /\ Pthread.PRECISION_REACHED st' = true.
Proof.
  induction fuel as [|fuel IH]; intros st0 st';
    cbn [Pthread.coordinator_loop]; [intros H; discriminate H|].
  destruct (Pthread.PRECISION_REACHED (Pthread.iteration sa st0)) eqn:Hpr.
  - intros [= <-]. exists 0%nat, st0.
    split; [reflexivity|]. split; [reflexivity|exact Hpr].
  - intros H. apply IH in H. destruct H as (n & st & Hhead & -> & Hpr').
    exists (S n), st. cbn [Pthread.loop_head]. rewrite Hpr.
    repeat split; assumption.
Qed.

(** A grid printed by [main] is the buffer [matrix] after the turn of a
    reachable head of the loop. *)
Lemma main_printed RAND_MAX rand fuel size_arg precision_arg threads_arg m :
  threads_arg <= INT_MAX ->
  Pthread.main RAND_MAX rand fuel size_arg precision_arg threads_arg
    = Pthread.ExitPrinted m ->
  exists n sa a st,
    reachable RAND_MAX rand size_arg precision_arg threads_arg n sa a st
    /\ m = Pthread.mem_matrix (Pthread.iteration sa st).
Proof.
  intros Ht. unfold Pthread.main.
  destruct (Pthread.main_setup size_arg precision_arg threads_arg)
    as [code|sa0] eqn:Hsetup; [intros H; discriminate H|].
  destruct (Pthread.matrix_init RAND_MAX rand sa0) as [a sa1] eqn:Hinit.
  unfold Pthread.relax_matrix_parallel.
  destruct (Pthread.matrix_init RAND_MAX rand sa1) as [new_m sa] eqn:Hcopy.
  destruct (Pthread.initial_state sa a new_m) as [st0|] eqn:Hst0;
    [|intros H; discriminate H].
  destruct (Pthread.coordinator_loop fuel sa st0) as [st'|] eqn:Hloop;
    [|intros H; discriminate H].
  intros [= <-].
  destruct (coordinator_loop_returns sa fuel st0 st' Hloop)
    as (n & st & Hhead & -> & _).
  exists n, sa, a, st. split; [|reflexivity].
  exists sa0, sa1, new_m, st0. repeat split; assumption.
Qed.


Lemma negb_existsb_true {A : Type} (f : A -> bool) (l : list A) :
  negb (existsb f l) = true <-> forall x, x ∈ l -> f x = false.
Proof.
  rewrite negb_true_iff. split.
  - intros Hex x Hx. destruct (f x) eqn:Hfx; [|reflexivity].
    assert (Ht : existsb f l = true)
      by (apply existsb_exists; exists x; split;
          [apply list_elem_of_In; exact Hx|exact Hfx]).
    congruence.
  - intros Hall. destruct (existsb f l) eqn:Hex; [|reflexivity].
    apply existsb_exists in Hex. destruct Hex as (x & Hx & Hfx).
    apply list_elem_of_In in Hx. rewrite (Hall x Hx) in Hfx. discriminate Hfx.
Qed.

Lemma head_of_run_reachable RAND_MAX rand size_arg precision_arg threads_arg
    n sa a st :
  threads_arg <= INT_MAX ->
  head_of_run RAND_MAX rand size_arg precision_arg threads_arg n
    = Some (sa, a, st) ->
  reachable RAND_MAX rand size_arg precision_arg threads_arg n sa a st.
Proof.
  intros Ht. unfold head_of_run, reachable.
  destruct (Pthread.main_setup size_arg precision_arg threads_arg)
    as [code|sa0] eqn:Hsetup; [intros H; discriminate H|].
  destruct (Pthread.matrix_init RAND_MAX rand sa0) as [a' sa1] eqn:Hinit.
  destruct (Pthread.matrix_init RAND_MAX rand sa1) as [new_m sa'] eqn:Hcopy.
  destruct (Pthread.initial_state sa' a' new_m) as [st0|] eqn:Hst0;
    [|intros H; discriminate H].
  destruct (Pthread.loop_head n sa' st0) as [st'|] eqn:Hhead;
    [|intros H; discriminate H].
  intros [= <- <- <-]. exists sa0, sa1, new_m, st0. repeat split; assumption.
Qed.

(** ** C1: the grid handed back by the pthread coordinator *)

Lemma determine_thread_data_pointers sa o nw tds :
  Pthread.determine_thread_data sa o nw = Some tds ->
  forall t, t ∈ tds ->
    Pthread.original_matrix t = o /\ Pthread.new_matrix t = nw.
Proof.
  unfold Pthread.determine_thread_data.
  destruct (_ =? 0); [intros H; discriminate H|].
  destruct (_ =? 0); [intros H; discriminate H|].
  intros [= <-] t Ht. apply list_elem_of_lookup in Ht. destruct Ht as (k & Hk).
  apply thread_data_loop_lookup in Hk. tauto.
Qed.

(** In the first, third, fifth ... turn of the loop the workers write the
    buffer [new_matrix] and leave the buffer [matrix] as it is. *)
Lemma odd_turn_writes_new_matrix RAND_MAX rand size_arg precision_arg
    threads_arg n sa a st :
  reachable RAND_MAX rand size_arg precision_arg threads_arg n sa a st ->
  Nat.even n = true ->
  Pthread.mem_matrix (Pthread.iteration sa st) = Pthread.mem_matrix st
  /\ Pthread.last_written (Pthread.iteration sa st)
     = Pthread.mem_new_matrix (Pthread.iteration sa st).
Proof.
  intros Hreach Heven.
  destruct (reachable_invariant _ _ _ _ _ _ _ _ _ Hreach) as (_ & _ & Hinv).
  destruct Hreach as (sa0 & sa1 & new_m & st0 & _ & _ & _ & _ & Hst0 & Hhead).
  assert (Hptr : forall t, t ∈ Pthread.thread_data st ->
            Pthread.original_matrix t = Pthread.p_matrix
            /\ Pthread.new_matrix t = Pthread.p_new_matrix).
  { intros t Ht.
    pose proof (loop_head_pointers sa n Pthread.p_matrix Pthread.p_new_matrix
                  st0 st) as Hp.
    rewrite Heven in Hp. apply Hp; [|exact Hhead|exact Ht].
    unfold Pthread.initial_state in Hst0.
    destruct (Pthread.determine_thread_data sa Pthread.p_matrix
                Pthread.p_new_matrix) as [tds|] eqn:Htds; [|discriminate Hst0].
    injection Hst0 as <-. cbn [Pthread.thread_data].
    apply (determine_thread_data_pointers _ _ _ _ Htds). }
  split.
  - destruct (compute_fold_effect sa Pthread.p_matrix Pthread.p_new_matrix
                (Pthread.size sa) (Pthread.thread_data st)
                ltac:(discriminate) st Hptr (inv_new_matrix _ _ _ Hinv))
      as (Ho & _).
    exact Ho.
  - unfold Pthread.last_written. rewrite iteration_thread_data.
    destruct (Pthread.thread_data st) as [|t tds] eqn:Htd; [reflexivity|].
    destruct (Hptr t (list_elem_of_here _ _)) as [_ ->]. reflexivity.
Qed.

(** C1 (the code departs from the claim). Whenever the loop ends in its
    first, third, fifth ... turn, the values of that turn are in the
    buffer [new_matrix] and the buffer [matrix], which the function
    returns, is as it was before the turn. [./average_parallel 3 2 1]:
    the loop ends in its first turn; the worker wrote the average of the
    four neighbours to cell (1,1) of [new_matrix], and [main] prints the
    initial grid [a]. The same happens on the 4x4 example grid with
    precision 0.5: the averages 0.5, 0.25, 0.25, 0 of the first turn are in
    [new_matrix], the returned grid is the input. *)
Theorem relax_matrix_parallel_returns_stale_buffer :
  (forall RAND_MAX rand size_arg precision_arg threads_arg n sa a st,
     reachable RAND_MAX rand size_arg precision_arg threads_arg n sa a st ->
     Nat.even n = true ->
     Pthread.mem_matrix (Pthread.iteration sa st) = Pthread.mem_matrix st
     /\ Pthread.last_written (Pthread.iteration sa st)
        = Pthread.mem_new_matrix (Pthread.iteration sa st)) /\
  (exists sa a st,
     head_of_run INT_MAX sample_rand 3 2 1 0 = Some (sa, a, st) /\
     Pthread.coordinator_loop 1 sa st = Some (Pthread.iteration sa st) /\
     Pthread.main INT_MAX sample_rand 1 3 2 1 = Pthread.ExitPrinted a /\
     Pthread.rd (Pthread.last_written (Pthread.iteration sa st)) 1 1
       = Pthread.new_value a 1 1 /\
     Pthread.rd a 1 1 <> Pthread.new_value a 1 1) /\
  (exists st,
     Pthread.initial_state args_4x4 grid_4x4 grid_4x4 = Some st /\
     Pthread.coordinator_loop 1 args_4x4 st
       = Some (Pthread.iteration args_4x4 st) /\
     Pthread.relax_matrix_parallel INT_MAX sample_rand 1 args_4x4 grid_4x4
       = Pthread.Returned grid_4x4 /\
     Pthread.last_written (Pthread.iteration args_4x4 st)
       = [[1; 1; 1; 1]; [1; 0.5; 0.25; 0]; [1; 0.25; 0; 0]; [1; 0; 0; 0]]%float).
Proof.
  split; [apply odd_turn_writes_new_matrix|]. split.
  - eexists _, _, _. split; [vm_compute; reflexivity|].
    split; [vm_compute; reflexivity|].
    split; [vm_compute; reflexivity|].
    split; [vm_compute; reflexivity|].
    vm_compute. intros H. discriminate H.
  - eexists. split; [vm_compute; reflexivity|].
    split; [vm_compute; reflexivity|].
    split; vm_compute; reflexivity.
Qed.

(** ** C7: the boundary *)

(** C7. In the pthread program, at every head of the coordinator's loop
    and after every turn, each cell on one of the four sides holds in both
    buffers the value it had in the initial grid, and so does the grid
    that [main] prints. In the MPI program (counts within [int]), after
    any number of turns each cell on one of the four sides of the root's
    matrix holds the value it had when [relax_matrix_parallel] was
    called, and so does the matrix it returns. *)
Theorem boundary_cells_never_change :
  (forall RAND_MAX rand size_arg precision_arg threads_arg n sa a st p q,
     reachable RAND_MAX rand size_arg precision_arg threads_arg n sa a st ->
     on_boundary (Pthread.size sa) q ->
     Pthread.rd (Pthread.load st p) (fst q) (snd q)
       = Pthread.rd a (fst q) (snd q)
     /\ Pthread.rd (Pthread.load (Pthread.iteration sa st) p) (fst q) (snd q)
        = Pthread.rd a (fst q) (snd q))
  /\ (forall RAND_MAX rand fuel size_arg precision_arg threads_arg m,
        threads_arg <= INT_MAX ->
        Pthread.main RAND_MAX rand fuel size_arg precision_arg threads_arg
          = Pthread.ExitPrinted m ->
        exists n sa a st,
          reachable RAND_MAX rand size_arg precision_arg threads_arg n sa a st
          /\ m = Pthread.mem_matrix (Pthread.iteration sa st)
          /\ forall q, on_boundary (Pthread.size sa) q ->
               Pthread.rd m (fst q) (snd q) = Pthread.rd a (fst q) (snd q))
  /\ (forall size P precision m n i j,
        valid_layout size P ->
        Z.of_nat (length m) = size * size ->
        0 <= i < size -> 0 <= j < size ->
        i = 0 \/ i = size - 1 \/ j = 0 \/ j = size - 1 ->
        Mpi.rd (Mpi.matrix
                  (Mpi.after_iterations n size precision (Mpi.layout size P)
                     (Mpi.initial_state m (Mpi.layout size P))))
               (i * size + j)
        = Mpi.rd m (i * size + j))
  /\ (forall fuel size P precision m m' i j,
        valid_layout size P ->
        Z.of_nat (length m) = size * size ->
        Mpi.relax_matrix_parallel fuel m size precision P = Some m' ->
        0 <= i < size -> 0 <= j < size ->
        i = 0 \/ i = size - 1 \/ j = 0 \/ j = size - 1 ->
        Mpi.rd m' (i * size + j) = Mpi.rd m (i * size + j)).
Proof.
  assert (Hmpi : forall size P precision m n i j,
            valid_layout size P ->
            Z.of_nat (length m) = size * size ->
            0 <= i < size -> 0 <= j < size ->
            i = 0 \/ i = size - 1 \/ j = 0 \/ j = size - 1 ->
            Mpi.rd (Mpi.matrix
                      (Mpi.after_iterations n size precision (Mpi.layout size P)
                         (Mpi.initial_state m (Mpi.layout size P))))
                   (i * size + j)
            = Mpi.rd m (i * size + j)).
  { intros size P precision m n i j Hvalid Hlen Hi Hj Hside.
    pose proof (mpi_initial_invariant size P m Hvalid Hlen) as Hinv.
    change m with (Mpi.matrix (Mpi.initial_state m (Mpi.layout size P))) at 2.
    generalize dependent (Mpi.initial_state m (Mpi.layout size P)).
    induction n as [|n IH]; intros st Hinv; cbn [Mpi.after_iterations];
      [reflexivity|].
    destruct (iteration_effect size P precision Hvalid st Hinv)
      as (Hinv' & Hin & Hout & _).
    cbv zeta in *. rewrite IH by exact Hinv'.
    destruct Hvalid as (Hs & _ & _).
    destruct (Z_lt_le_dec (i * size + j) size) as [Htop|Htop];
      [apply Hout; lia|].
    destruct (Z_le_gt_dec (size * (size - 1)) (i * size + j)) as [Hbot|Hbot];
      [apply Hout; lia|].
    rewrite Hin by lia. unfold cell_value, on_edge.
    replace (i * size + j) with (j + i * size) by lia.
    replace (j + i * size + 1) with (j + 1 + i * size) by lia.
    rewrite !Z.mod_add by lia.
    assert (Hrow : 1 <= i <= size - 2) by nia.
    destruct Hside as [->|[->|[->| ->]]]; try lia.
    - rewrite Z.mod_0_l by lia. reflexivity.
    - replace (size - 1 + 1) with (1 * size) by lia.
      rewrite Z.mod_mul by lia. rewrite orb_true_r. reflexivity. }
  split; [|split; [|split]].
  - intros RAND_MAX rand size_arg precision_arg threads_arg n sa a st p q
      Hreach Hq.
    destruct (reachable_invariant _ _ _ _ _ _ _ _ _ Hreach) as (_ & _ & Hinv).
    split.
    + destruct p; apply (inv_boundary _ _ _ Hinv q Hq).
    + replace (Pthread.load (Pthread.iteration sa st) p)
        with (Pthread.load (Pthread.compute_phase sa st) p)
        by (destruct p; reflexivity).
      apply (compute_phase_boundary sa a st p q Hinv Hq).
  - intros RAND_MAX rand fuel size_arg precision_arg threads_arg m Ht Hmain.
    destruct (main_printed _ _ _ _ _ _ _ Ht Hmain)
      as (n & sa & a & st & Hreach & ->).
    exists n, sa, a, st. split; [exact Hreach|]. split; [reflexivity|].
    intros q Hq.
    destruct (reachable_invariant _ _ _ _ _ _ _ _ _ Hreach) as (_ & _ & Hinv).
    change (Pthread.mem_matrix (Pthread.iteration sa st))
      with (Pthread.load (Pthread.compute_phase sa st) Pthread.p_matrix).
    apply (compute_phase_boundary sa a st _ q Hinv Hq).
  - exact Hmpi.
  - intros fuel size P precision m m' i j Hvalid Hlen Hrun Hi Hj Hside.
    unfold Mpi.relax_matrix_parallel in Hrun.
    destruct (Mpi.while_loop fuel size precision (Mpi.layout size P)
                (Mpi.initial_state m (Mpi.layout size P))) as [st'|] eqn:Hloop;
      [|discriminate Hrun].
    injection Hrun as <-.
    apply mpi_while_loop_after in Hloop. destruct Hloop as (n & ->).
    apply Hmpi; assumption.
Qed.

(** C7 at the second turn of [./average_parallel 4 0.0078125 2], cell
    (3,2) of the bottom row, and after three turns of the MPI program on a
    5x5 grid with two processes, cell (2,0) of the left column. *)
Lemma boundary_cells_never_change_witness :
  (exists sa a st,
     head_of_run INT_MAX sample_rand 4 0.0078125%float 2 1 = Some (sa, a, st)
     /\ Pthread.rd (Pthread.load st Pthread.p_matrix) 3 2 = Pthread.rd a 3 2
     /\ Pthread.rd (Pthread.load (Pthread.iteration sa st) Pthread.p_new_matrix)
          3 2 = Pthread.rd a 3 2)
  /\ Mpi.rd (Mpi.matrix
               (Mpi.after_iterations 3 5 0.0078125%float (Mpi.layout 5 2)
                  (Mpi.initial_state (Mpi.matrix_init 5) (Mpi.layout 5 2))))
            (2 * 5 + 0)
     = Mpi.rd (Mpi.matrix_init 5) (2 * 5 + 0).
Proof.
  destruct boundary_cells_never_change as (Hpthread & _ & Hmpi & _).
  split.
  - destruct (head_of_run INT_MAX sample_rand 4 0.0078125%float 2 1)
      as [[[sa a] st]|] eqn:Hrun; [|vm_compute in Hrun; discriminate Hrun].
    exists sa, a, st. split; [reflexivity|].
    assert (Hreach : reachable INT_MAX sample_rand 4 0.0078125%float 2 1 sa a st)
      by (apply head_of_run_reachable; [unfold INT_MAX; lia|exact Hrun]).
    assert (Hsize : Pthread.size sa = 4)
      by (vm_compute in Hrun; injection Hrun as <- _ _; reflexivity).
    assert (Hq : on_boundary (Pthread.size sa) (3, 2))
      by (rewrite Hsize; unfold on_boundary, in_grid; cbn; lia).
    split.
    + apply (Hpthread _ _ _ _ _ _ _ _ _ Pthread.p_matrix (3, 2) Hreach Hq).
    + apply (Hpthread _ _ _ _ _ _ _ _ _ Pthread.p_new_matrix (3, 2) Hreach Hq).
  - apply (Hmpi 5 2 0.0078125%float (Mpi.matrix_init 5) 3%nat 2 0).
    + unfold valid_layout, INT_MAX. lia.
    + reflexivity.
    + lia.
    + lia.
    + lia.
Defined.

(** ** C6: the convergence flags *)



(** ** C9: the initial grids *)

Section InitValues.

Variable RAND_MAX : Z.
Variable rand : nat -> Z.

Lemma init_row_top (n : nat) : forall j k,
  Pthread.init_row RAND_MAX rand n 0 j k = (replicate n 1%float, k).
Proof.
  induction n as [|n IH]; intros j k; cbn [Pthread.init_row replicate];
    [reflexivity|].
  cbn [Z.eqb orb]. rewrite IH. reflexivity.
Qed.

Lemma init_row_inner (n : nat) : forall i j k,
  i <> 0 -> 1 <= j ->
  Pthread.init_row RAND_MAX rand n i j k
  = (map (fun c => random_cell RAND_MAX rand (k + c)) (seq 0 n), (k + n)%nat).
Proof.
  induction n as [|n IH]; intros i j k Hi Hj; cbn [Pthread.init_row seq map].
  - rewrite Nat.add_0_r. reflexivity.
  - destruct (Z.eqb_spec i 0); [contradiction|].
    destruct (Z.eqb_spec j 0); [lia|]. cbn [orb].
    rewrite IH by lia. rewrite Nat.add_0_r. f_equal.
    + f_equal. rewrite <- seq_shift, map_map. apply map_ext.
      intros c. f_equal. lia.
    + lia.
Qed.

Lemma init_row_left (n : nat) i k :
  i <> 0 ->
  Pthread.init_row RAND_MAX rand (S n) i 0 k
  = (1%float :: map (fun c => random_cell RAND_MAX rand (k + c)) (seq 0 n), (k + n)%nat).
Proof.
  intros Hi. cbn [Pthread.init_row]. rewrite orb_true_r.
  rewrite init_row_inner by lia. reflexivity.
Qed.

Lemma init_rows_inner (sz : nat) (n : nat) : forall i k (r : nat),
  1 <= i ->
  Pthread.init_rows RAND_MAX rand n (S sz) i k !! r
  = if (r <? n)%nat
    then Some (1%float :: map (fun c => random_cell RAND_MAX rand (k + r * sz + c)) (seq 0 sz))
    else None.
Proof.
  induction n as [|n IH]; intros i k r Hi; cbn [Pthread.init_rows];
    [reflexivity|].
  rewrite init_row_left by lia.
  destruct r as [|r]; cbn [lookup list_lookup].
  - cbn [Nat.ltb Nat.leb]. f_equal. f_equal. apply map_ext. intros c.
    f_equal. lia.
  - fold (@lookup _ _ _ (@list_lookup (list float))).
    rewrite IH by lia.
    change (S r <? S n)%nat with (r <? n)%nat.
    destruct (r <? n)%nat; [|reflexivity].
    f_equal. f_equal. apply map_ext. intros c. f_equal. lia.
Qed.

Lemma matrix_init_cell sa a sa' i j :
  Pthread.matrix sa = None -> 1 <= Pthread.size sa ->
  Pthread.matrix_init RAND_MAX rand sa = (a, sa') ->
  0 <= i < Pthread.size sa -> 0 <= j < Pthread.size sa ->
  Pthread.rd a i j
  = if (i =? 0) || (j =? 0) then 1%float
    else random_cell RAND_MAX rand (Z.to_nat ((i - 1) * (Pthread.size sa - 1) + (j - 1))).
Proof.
  intros Hnull Hsz. unfold Pthread.matrix_init. rewrite Hnull.
  intros [= <- _] Hi Hj.
  destruct (Z.to_nat (Pthread.size sa)) as [|sz] eqn:Hn; [lia|].
  cbn [Pthread.init_rows]. rewrite init_row_top.
  destruct (Z.eqb_spec i 0) as [->|Hi0]; cbn [orb].
  - apply (rd_lookup _ _ _ (replicate (S sz) 1%float)); [lia|lia|reflexivity|].
    apply lookup_replicate_2. lia.
  - destruct (Z.to_nat i) as [|r] eqn:Hr; [lia|].
    assert (Hrow : (replicate (S sz) 1%float
                    :: Pthread.init_rows RAND_MAX rand sz (S sz) (0 + 1) 0)
                   !! Z.to_nat i
                   = Some (1%float
                           :: map (fun c => random_cell RAND_MAX rand (0 + r * sz + c))
                                (seq 0 sz))).
    { rewrite Hr. cbn [lookup list_lookup].
      pose proof (init_rows_inner sz sz (0 + 1) 0%nat r ltac:(lia)) as Hl.
      destruct (Nat.ltb_spec r sz); [|lia]. exact Hl. }
    destruct (Z.eqb_spec j 0) as [->|Hj0].
    + eapply rd_lookup; [lia|lia|exact Hrow|reflexivity].
    + eapply rd_lookup; [lia|lia|exact Hrow|].
      destruct (Z.to_nat j) as [|c] eqn:Hc; [lia|].
      pose proof (lookup_map_seq (fun c => random_cell RAND_MAX rand (0 + r * sz + c)) sz 0 c)
        as Hl.
      destruct (Nat.ltb_spec c sz); [|lia].
      transitivity (Some (random_cell RAND_MAX rand (0 + r * sz + (0 + c)))); [exact Hl|].
      f_equal. f_equal. nia.
Qed.

End InitValues.

(** C9. Pthread program: the first call of [matrix_init] returns a square
    grid whose top row and left column hold 1 and whose other cells hold,
    in row-major order, the quotients [rand() / RAND_MAX] of the successive
    values of the generator seeded with 42; a later call returns the same
    grid again. MPI program: [matrix_init] returns size*size cells, 1 on
    the four sides and 0 elsewhere. *)
Theorem initial_grids :
  (forall RAND_MAX rand sa a sa',
     Pthread.matrix sa = None -> 1 <= Pthread.size sa ->
     Pthread.matrix_init RAND_MAX rand sa = (a, sa') ->
     square (Pthread.size sa) a
     /\ (forall i j, 0 <= i < Pthread.size sa -> 0 <= j < Pthread.size sa ->
           Pthread.rd a i j
           = if (i =? 0) || (j =? 0) then 1%float
             else (double_of_Z
                     (rand (Z.to_nat ((i - 1) * (Pthread.size sa - 1) + (j - 1))))
                   / double_of_Z RAND_MAX)%float)
     /\ Pthread.matrix_init RAND_MAX rand sa' = (a, sa'))
  /\ (forall size, 2 <= size <= 10000000 ->
        Z.of_nat (length (Mpi.matrix_init size)) = size * size
        /\ forall i j, 0 <= i < size -> 0 <= j < size ->
             Mpi.rd (Mpi.matrix_init size) (i * size + j)
             = if (i =? 0) || (i =? size - 1) || (j =? 0) || (j =? size - 1)
               then 1%float else 0%float).
Proof.
  split.
  - intros RAND_MAX rand sa a sa' Hnull Hsz Hinit.
    destruct (matrix_init_first RAND_MAX rand sa a sa' Hnull ltac:(lia) Hinit)
      as (Hsq & Hm & Hsz' & _).
    split; [exact Hsq|]. split.
    + intros i j Hi Hj.
      apply (matrix_init_cell RAND_MAX rand sa a sa' i j Hnull Hsz Hinit Hi Hj).
    + unfold Pthread.matrix_init. rewrite Hm, Hsz'.
      rewrite (copy_grid_id _ _ Hsq). reflexivity.
  - intros size Hs. split; [apply mpi_matrix_init_length; lia|].
    intros i j Hi Hj. apply mpi_matrix_init_cell; assumption.
Qed.

(** C9 on 5x5 grids: cell (2,3) of the pthread grid holds the seventh value
    of the generator over [RAND_MAX], cell (2,4) of the MPI grid holds 1. *)
Lemma initial_grids_witness :
  (exists a sa',
     Pthread.matrix_init INT_MAX sample_rand args_5_5 = (a, sa')
     /\ Pthread.rd a 2 3
        = (double_of_Z (sample_rand (Z.to_nat ((2 - 1) * (5 - 1) + (3 - 1))))
           / double_of_Z INT_MAX)%float
     /\ Pthread.matrix_init INT_MAX sample_rand sa' = (a, sa'))
  /\ Z.of_nat (length (Mpi.matrix_init 5)) = 5 * 5
  /\ Mpi.rd (Mpi.matrix_init 5) (2 * 5 + 4) = 1%float.
Proof.
  destruct initial_grids as (Hpthread & Hmpi).
  split.
  - destruct (Pthread.matrix_init INT_MAX sample_rand args_5_5) as [a sa'] eqn:Hinit.
    exists a, sa'. split; [reflexivity|].
    destruct (Hpthread INT_MAX sample_rand args_5_5 a sa' eq_refl
                ltac:(cbn; lia) Hinit) as (_ & Hcell & Hagain).
    split; [|exact Hagain].
    apply (Hcell 2 3); cbn; lia.
  - destruct (Hmpi 5 ltac:(lia)) as (Hlen & Hcell).
    split; [exact Hlen|]. apply (Hcell 2 4); lia.
Defined.


(** ** The serial program: one sweep *)

Lemma serial_relax_cell_spec precision matrix i j new_matrix still :
  Serial.relax_cell precision matrix i j (new_matrix, still)
  = (Pthread.wr new_matrix i j (Serial.new_val matrix i j),
     still || deviates precision matrix (i, j)).
Proof.
  unfold Serial.relax_cell, deviates. cbn [fst snd]. f_equal.
  destruct (_ <? _)%float; [rewrite orb_true_r|rewrite orb_false_r];
    reflexivity.
Qed.

Lemma row_loop_spec precision matrix sz i (n : nat) :
  forall j0 new_matrix still,
  square sz new_matrix ->
  let out := Serial.row_loop n precision matrix i j0 (new_matrix, still) in
  square sz (fst out)
  /\ (forall j, j0 <= j < j0 + Z.of_nat n -> in_grid sz (i, j) ->
        Pthread.rd (fst out) i j = Serial.new_val matrix i j)
  /\ (forall i' j', ~ (i' = i /\ j0 <= j' < j0 + Z.of_nat n) ->
        Pthread.rd (fst out) i' j' = Pthread.rd new_matrix i' j')
  /\ snd out
     = still || existsb (fun j => deviates precision matrix (i, j))
                  (seqZ j0 (Z.of_nat n)).
Proof.
  induction n as [|n IH]; intros j0 new_matrix still Hsq;
    cbn [Serial.row_loop].
  - cbn. rewrite orb_false_r. repeat split; try apply Hsq; intros; lia.
  - rewrite serial_relax_cell_spec.
    destruct (IH (j0 + 1)
                (Pthread.wr new_matrix i j0 (Serial.new_val matrix i j0))
                (still || deviates precision matrix (i, j0))
                (square_wr _ _ _ _ _ Hsq)) as (Hsq' & Hin & Hout & Hfl).
    cbv zeta in *. split; [exact Hsq'|]. split; [|split].
    + intros j Hj Hgrid. destruct (Z.eq_dec j j0) as [->|Hne].
      * rewrite Hout by lia. apply (rd_wr_same _ sz); assumption.
      * apply Hin; [lia|exact Hgrid].
    + intros i' j' Hnot. rewrite Hout by lia. apply rd_wr_other.
      intros [= <- <-]. apply Hnot. lia.
    + rewrite Hfl, (seqZ_cons j0) by lia. cbn [existsb].
      replace (Z.succ j0) with (j0 + 1) by lia.
      replace (Z.pred (Z.of_nat (S n))) with (Z.of_nat n) by lia.
      rewrite orb_assoc. reflexivity.
Qed.

Lemma rows_loop_spec precision matrix sz (cols : nat) (n : nat) :
  forall i0 new_matrix still,
  square sz new_matrix ->
  let out := Serial.rows_loop n cols precision matrix i0 (new_matrix, still) in
  square sz (fst out)
  /\ (forall i j, i0 <= i < i0 + Z.of_nat n -> 1 <= j < 1 + Z.of_nat cols ->
        in_grid sz (i, j) ->
        Pthread.rd (fst out) i j = Serial.new_val matrix i j)
  /\ (forall i j, ~ (i0 <= i < i0 + Z.of_nat n /\ 1 <= j < 1 + Z.of_nat cols) ->
        Pthread.rd (fst out) i j = Pthread.rd new_matrix i j)
  /\ snd out
     = still || existsb
                  (fun i => existsb (fun j => deviates precision matrix (i, j))
                              (seqZ 1 (Z.of_nat cols)))
                  (seqZ i0 (Z.of_nat n)).
Proof.
  induction n as [|n IH]; intros i0 new_matrix still Hsq;
    cbn [Serial.rows_loop].
  - cbn. rewrite orb_false_r. repeat split; try apply Hsq; intros; lia.
  - destruct (row_loop_spec precision matrix sz i0 cols 1 new_matrix still Hsq)
      as (Hsq1 & Hin1 & Hout1 & Hfl1).
    cbv zeta in *.
    destruct (Serial.row_loop cols precision matrix i0 1 (new_matrix, still))
      as [new1 still1] eqn:Hrow.
    cbn [fst snd] in *.
    destruct (IH (i0 + 1) new1 still1 Hsq1) as (Hsq' & Hin & Hout & Hfl).
    cbv zeta in *. split; [exact Hsq'|]. split; [|split].
    + intros i j Hi Hj Hgrid. destruct (Z.eq_dec i i0) as [->|Hne].
      * rewrite Hout by lia. apply Hin1; [lia|exact Hgrid].
      * apply Hin; [lia|lia|exact Hgrid].
    + intros i j Hnot. rewrite Hout by lia. apply Hout1. lia.
    + rewrite Hfl, Hfl1, (seqZ_cons i0) by lia. cbn [existsb].
      replace (Z.succ i0) with (i0 + 1) by lia.
      replace (Z.pred (Z.of_nat (S n))) with (Z.of_nat n) by lia.
      rewrite orb_assoc. reflexivity.
Qed.

Lemma existsb_false_iff {A : Type} (f : A -> bool) (l : list A) :
  existsb f l = false <-> forall x, x ∈ l -> f x = false.
Proof. rewrite <- negb_true_iff. apply negb_existsb_true. Qed.

(** What one sweep does to the buffer behind [new_matrix] and to the
    flag. *)
Lemma sweep_spec size precision matrix new_matrix :
  2 <= size <= 10000000 -> square size new_matrix ->
  let out := Serial.sweep size precision matrix new_matrix in
  square size (fst out)
  /\ (forall p, relaxed size p ->
        Pthread.rd (fst out) (fst p) (snd p)
        = Serial.new_val matrix (fst p) (snd p))
  /\ (forall p, ~ relaxed size p ->
        Pthread.rd (fst out) (fst p) (snd p)
        = Pthread.rd new_matrix (fst p) (snd p))
  /\ (snd out = false <->
      forall p, relaxed size p -> deviates precision matrix p = false).
Proof.
  intros Hs Hsq. unfold Serial.sweep.
  rewrite to_size_t_small by lia.
  set (n := Z.to_nat (size - 2 - 1)).
  destruct (rows_loop_spec precision matrix size n n 1 new_matrix false Hsq)
    as (Hsq' & Hin & Hout & Hfl).
  cbv zeta in *. split; [exact Hsq'|]. split; [|split].
  - intros [i j] [Hi Hj]. cbn [fst snd] in *.
    apply Hin; [lia|lia|unfold in_grid; cbn; lia].
  - intros [i j] Hnot. cbn [fst snd]. apply Hout.
    intros [Hi Hj]. apply Hnot. unfold relaxed. cbn. lia.
  - rewrite Hfl. cbn [orb]. rewrite existsb_false_iff. split.
    + intros Hall [i j] [Hi Hj]. cbn [fst snd] in *.
      assert (Hin_i : i ∈ seqZ 1 (Z.of_nat n)) by (apply elem_of_seqZ; lia).
      specialize (Hall i Hin_i). rewrite existsb_false_iff in Hall.
      apply Hall. apply elem_of_seqZ. lia.
    + intros Hall i Hi. apply elem_of_seqZ in Hi.
      rewrite existsb_false_iff. intros j Hj. apply elem_of_seqZ in Hj.
      apply Hall. unfold relaxed. cbn. lia.
Qed.

Lemma sample_grid_square size : 0 <= size -> square size (sample_grid size).
Proof.
  intros Hs. unfold sample_grid.
  destruct (Pthread.matrix_init INT_MAX sample_rand _) as [a sa'] eqn:Hinit.
  eapply matrix_init_first in Hinit; [|reflexivity|exact Hs].
  apply Hinit.
Qed.

(** ** The serial program: the loop *)

Lemma serial_while_loop_last size precision (fuel : nat) :
  forall matrix new_matrix m,
  2 <= size <= 10000000 ->
  square size matrix -> square size new_matrix ->
  Serial.while_loop fuel size precision matrix new_matrix = Some m ->
  exists cur nxt, square size cur /\ square size nxt
     /\ Serial.sweep size precision cur nxt = (m, false).
Proof.
  induction fuel as [|fuel IH]; intros matrix new_matrix m Hs Hsq Hsqn;
    cbn [Serial.while_loop]; [intros H; discriminate H|].
  destruct (sweep_spec size precision matrix new_matrix Hs Hsqn)
    as (Hsq' & _).
  cbv zeta in *.
  destruct (Serial.sweep size precision matrix new_matrix)
    as [written still] eqn:Hsweep.
  cbn [fst snd] in *.
  destruct still.
  - apply IH; assumption.
  - intros [= <-]. exists matrix, new_matrix.
    split; [exact Hsq|]. split; [exact Hsqn|exact Hsweep].
Qed.

Lemma serial_while_loop_fixed size precision (a : Pthread.grid) (fuel : nat) :
  forall matrix new_matrix m,
  2 <= size <= 10000000 ->
  square size matrix -> square size new_matrix ->
  (forall p, ~ relaxed size p ->
     Pthread.rd matrix (fst p) (snd p) = Pthread.rd a (fst p) (snd p)
     /\ Pthread.rd new_matrix (fst p) (snd p) = Pthread.rd a (fst p) (snd p)) ->
  Serial.while_loop fuel size precision matrix new_matrix = Some m ->
  square size m
  /\ (forall p, ~ relaxed size p ->
        Pthread.rd m (fst p) (snd p) = Pthread.rd a (fst p) (snd p)).
Proof.
  induction fuel as [|fuel IH]; intros matrix new_matrix m Hs Hsq Hsqn Hfix;
    cbn [Serial.while_loop]; [intros H; discriminate H|].
  destruct (sweep_spec size precision matrix new_matrix Hs Hsqn)
    as (Hsq' & _ & Hout & _).
  cbv zeta in *.
  destruct (Serial.sweep size precision matrix new_matrix)
    as [written still] eqn:Hsweep.
  cbn [fst snd] in *.
  assert (Hw : forall p, ~ relaxed size p ->
            Pthread.rd written (fst p) (snd p) = Pthread.rd a (fst p) (snd p)).
  { intros p Hp. rewrite Hout by exact Hp. apply (Hfix p Hp). }
  destruct still.
  - apply IH; try assumption.
    intros p Hp. split; [apply Hw; exact Hp|apply (Hfix p Hp)].
  - intros [= <-]. split; assumption.
Qed.

(** The serial program's sweep. For a size*size buffer behind
    [new_matrix], one turn of the loop stores
    [0.25 * (up + down + left + right)] of [matrix] in every cell of rows
    and columns 1 to size-3 and leaves every other cell of the buffer as it
    was (row and column size-2 included); [still_changing] stays false
    exactly when no such cell deviates by more than the precision. *)
Theorem serial_sweep_contract (size : Z) (precision : float)
    (matrix new_matrix : Pthread.grid) :
  2 <= size <= 10000000 -> square size new_matrix ->
  let out := Serial.sweep size precision matrix new_matrix in
  square size (fst out)
  /\ (forall i j, 1 <= i <= size - 3 -> 1 <= j <= size - 3 ->
        Pthread.rd (fst out) i j
        = (0.25 * (Pthread.rd matrix (i - 1) j + Pthread.rd matrix (i + 1) j
                   + Pthread.rd matrix i (j - 1) + Pthread.rd matrix i (j + 1)))%float)
  /\ (forall i j, ~ (1 <= i <= size - 3 /\ 1 <= j <= size - 3) ->
        Pthread.rd (fst out) i j = Pthread.rd new_matrix i j)
  /\ (snd out = false <->
      forall i j, 1 <= i <= size - 3 -> 1 <= j <= size - 3 ->
        (precision <?
           PrimFloat.abs (Pthread.rd matrix i j - Serial.new_val matrix i j))%float
        = false).
Proof.
  intros Hs Hsq out.
  destruct (sweep_spec size precision matrix new_matrix Hs Hsq)
    as (Hsq' & Hin & Hout & Hfl).
  cbv zeta in *. fold out in Hsq', Hin, Hout, Hfl.
  split; [exact Hsq'|]. split; [|split].
  - intros i j Hi Hj. apply (Hin (i, j)). split; assumption.
  - intros i j Hnot. apply (Hout (i, j)). exact Hnot.
  - rewrite Hfl. split.
    + intros Hall i j Hi Hj. apply (Hall (i, j)). split; assumption.
    + intros Hall [i j] [Hi Hj]. apply Hall; assumption.
Qed.

(** The sweep on the 5x5 grid of the stand-in generator. *)
Lemma serial_sweep_contract_witness :
  let out := Serial.sweep 5 0.5%float (sample_grid 5) (sample_grid 5) in
  square 5 (fst out)
  /\ (forall i j, 1 <= i <= 5 - 3 -> 1 <= j <= 5 - 3 ->
        Pthread.rd (fst out) i j
        = (0.25 * (Pthread.rd (sample_grid 5) (i - 1) j
                   + Pthread.rd (sample_grid 5) (i + 1) j
                   + Pthread.rd (sample_grid 5) i (j - 1)
                   + Pthread.rd (sample_grid 5) i (j + 1)))%float)
  /\ (forall i j, ~ (1 <= i <= 5 - 3 /\ 1 <= j <= 5 - 3) ->
        Pthread.rd (fst out) i j = Pthread.rd (sample_grid 5) i j)
  /\ (snd out = false <->
      forall i j, 1 <= i <= 5 - 3 -> 1 <= j <= 5 - 3 ->
        (0.5 <?
           PrimFloat.abs (Pthread.rd (sample_grid 5) i j
                          - Serial.new_val (sample_grid 5) i j))%float
        = false).
Proof.
  apply (serial_sweep_contract 5 0.5%float (sample_grid 5) (sample_grid 5));
    [lia|apply sample_grid_square; lia].
Defined.

(** The serial program returns the buffer of its last sweep. When
    [serial_average_matrix]'s loop ends, the grid it returns is the one
    written in the last turn (the pointers are exchanged before the test):
    every cell of rows and columns 1 to size-3 holds the average of its
    neighbours in the grid [cur] of before that turn and differs from its
    value in [cur] by no more than the precision. *)
Theorem serial_returns_last_sweep (fuel : nat) (size : Z) (precision : float)
    (matrix new_matrix m : Pthread.grid) :
  2 <= size <= 10000000 ->
  square size matrix -> square size new_matrix ->
  Serial.while_loop fuel size precision matrix new_matrix = Some m ->
  exists cur, square size cur /\ square size m
    /\ forall i j, 1 <= i <= size - 3 -> 1 <= j <= size - 3 ->
         Pthread.rd m i j
         = (0.25 * (Pthread.rd cur (i - 1) j + Pthread.rd cur (i + 1) j
                    + Pthread.rd cur i (j - 1) + Pthread.rd cur i (j + 1)))%float
         /\ (precision <? PrimFloat.abs (Pthread.rd cur i j - Pthread.rd m i j))%float
            = false.
Proof.
  intros Hs Hsq Hsqn Hloop.
  destruct (serial_while_loop_last size precision fuel matrix new_matrix m
              Hs Hsq Hsqn Hloop) as (cur & nxt & Hc & Hn & Hsweep).
  assert (Hm : square size m).
  { destruct (sweep_spec size precision cur nxt Hs Hn) as (Hm & _).
    cbv zeta in Hm. rewrite Hsweep in Hm. exact Hm. }
  exists cur. split; [exact Hc|]. split; [exact Hm|].
  destruct (sweep_spec size precision cur nxt Hs Hn) as (_ & Hin & _ & Hfl).
  cbv zeta in *. rewrite Hsweep in Hin, Hfl. cbn [fst snd] in *.
  intros i j Hi Hj.
  assert (Hrel : relaxed size (i, j)) by (split; assumption).
  pose proof (Hin (i, j) Hrel) as Hv. cbn [fst snd] in Hv.
  split; [exact Hv|].
  rewrite Hv.
  destruct Hfl as [Hfl _]. apply (Hfl eq_refl (i, j) Hrel).
Qed.

(** The returned grid of a run on the 5x5 grid of the stand-in generator. *)
Lemma serial_returns_last_sweep_witness :
  exists m,
    Serial.while_loop 50 5 0.0078125%float (sample_grid 5) (sample_grid 5) = Some m
    /\ exists cur, square 5 cur /\ square 5 m
    /\ forall i j, 1 <= i <= 5 - 3 -> 1 <= j <= 5 - 3 ->
         Pthread.rd m i j
         = (0.25 * (Pthread.rd cur (i - 1) j + Pthread.rd cur (i + 1) j
                    + Pthread.rd cur i (j - 1) + Pthread.rd cur i (j + 1)))%float
         /\ (0.0078125 <? PrimFloat.abs (Pthread.rd cur i j - Pthread.rd m i j))%float
            = false.
Proof.
  eexists. split; [vm_compute; reflexivity|].
  apply (serial_returns_last_sweep 50 5 0.0078125%float (sample_grid 5) (sample_grid 5));
    [lia|apply sample_grid_square; lia|apply sample_grid_square; lia|].
  vm_compute. reflexivity.
Defined.

Lemma serial_main_setup_Proceed size_arg precision_arg sa :
  Serial.main_setup size_arg precision_arg = Serial.Proceed sa ->
  sa = {| Pthread.size := to_size_t size_arg; Pthread.precision := precision_arg;
          Pthread.num_threads := 0; Pthread.matrix := None |}
  /\ 2 <= to_size_t size_arg <= 10000000
  /\ (precision_arg <=? 0)%float = false.
Proof.
  unfold Serial.main_setup.
  destruct ((to_size_t size_arg <? 2) || (10000000 <? to_size_t size_arg)) eqn:Hr;
    [intros H; discriminate H|].
  destruct (precision_arg <=? 0)%float eqn:Hp; [intros H; discriminate H|].
  intros [= <-]. apply orb_false_iff in Hr. destruct Hr as [H1 H2].
  split; [reflexivity|]. split; [lia|reflexivity].
Qed.

Lemma serial_main_run RAND_MAX rand fuel size_arg precision_arg m :
  Serial.main RAND_MAX rand fuel size_arg precision_arg = Serial.ExitPrinted m ->
  let sa := {| Pthread.size := to_size_t size_arg; Pthread.precision := precision_arg;
               Pthread.num_threads := 0; Pthread.matrix := None |} in
  let a := fst (Pthread.matrix_init RAND_MAX rand sa) in
  2 <= to_size_t size_arg <= 10000000
  /\ (precision_arg <=? 0)%float = false
  /\ square (to_size_t size_arg) a
  /\ Serial.while_loop fuel (to_size_t size_arg) precision_arg a a = Some m.
Proof.
  unfold Serial.main.
  destruct (Serial.main_setup size_arg precision_arg) as [c|sa0] eqn:Hsetup;
    [intros H; discriminate H|].
  apply serial_main_setup_Proceed in Hsetup. destruct Hsetup as (-> & Hs & Hp).
  intros Hrun.
  set (sa := {| Pthread.size := to_size_t size_arg;
                Pthread.precision := precision_arg;
                Pthread.num_threads := 0; Pthread.matrix := None |}) in *.
  destruct (Pthread.matrix_init RAND_MAX rand sa) as [a sa1] eqn:Hinit.
  cbn [fst].
  destruct (matrix_init_first RAND_MAX rand sa a sa1 eq_refl ltac:(cbn; lia) Hinit)
    as (Hsq & Hm & Hsz & Hpr & _).
  cbn [Pthread.size Pthread.precision sa] in Hsq, Hsz, Hpr.
  unfold Serial.serial_average_matrix in Hrun.
  destruct (Pthread.matrix_init RAND_MAX rand sa1) as [new_m sa2] eqn:Hinit2.
  destruct (matrix_init_again RAND_MAX rand sa1 a new_m sa2 Hm
              ltac:(rewrite Hsz; exact Hsq) Hinit2) as [-> ->].
  rewrite Hsz, Hpr in Hrun.
  destruct (Serial.while_loop fuel (to_size_t size_arg) precision_arg a a)
    as [m'|] eqn:Hloop; [|discriminate Hrun].
  injection Hrun as <-.
  repeat split; try lia; try assumption; apply Hsq.
Qed.

(** The cells the serial program never relaxes. In the grid [main] prints,
    every cell outside rows and columns 1 to size-3 still has the value
    [matrix_init] gave it: 1 in row 0 and column 0, the quotient
    [rand() / RAND_MAX] drawn for it elsewhere. This covers row and column
    size-1 and also row and column size-2, which the loops
    [i < size - 2], [j < size - 2] leave out. *)
Theorem serial_main_unrelaxed_cells (RAND_MAX : Z) (rand : nat -> Z)
    (fuel : nat) (size_arg : Z) (precision_arg : float) (m : Pthread.grid) :
  Serial.main RAND_MAX rand fuel size_arg precision_arg = Serial.ExitPrinted m ->
  let size := to_size_t size_arg in
  2 <= size <= 10000000 /\ square size m
  /\ forall i j, 0 <= i < size -> 0 <= j < size ->
       ~ (1 <= i <= size - 3 /\ 1 <= j <= size - 3) ->
       Pthread.rd m i j
       = if (i =? 0) || (j =? 0) then 1%float
         else random_cell RAND_MAX rand (Z.to_nat ((i - 1) * (size - 1) + (j - 1))).
Proof.
  intros Hmain size.
  destruct (serial_main_run _ _ _ _ _ _ Hmain) as (Hs & _ & Hsq & Hloop).
  fold size in Hs, Hsq, Hloop.
  set (sa := {| Pthread.size := size; Pthread.precision := precision_arg;
                Pthread.num_threads := 0; Pthread.matrix := None |}) in *.
  destruct (serial_while_loop_fixed size precision_arg
              (fst (Pthread.matrix_init RAND_MAX rand sa)) fuel _ _ m
              Hs Hsq Hsq ltac:(intros; split; reflexivity) Hloop) as [Hm Hfix].
  split; [exact Hs|]. split; [exact Hm|].
  intros i j Hi Hj Hnot.
  pose proof (Hfix (i, j) Hnot) as Hv. cbn [fst snd] in Hv. rewrite Hv.
  destruct (Pthread.matrix_init RAND_MAX rand sa) as [a sa1] eqn:Hinit.
  cbn [fst].
  apply (matrix_init_cell RAND_MAX rand sa a sa1 i j eq_refl
           ltac:(cbn; lia) Hinit); cbn; assumption.
Qed.

(** The printed grid of a 5x5 run with the stand-in generator. *)
Lemma serial_main_unrelaxed_cells_witness :
  exists m,
    Serial.main INT_MAX sample_rand 50 5 0.0078125%float = Serial.ExitPrinted m
    /\ 2 <= to_size_t 5 <= 10000000 /\ square (to_size_t 5) m
    /\ forall i j, 0 <= i < to_size_t 5 -> 0 <= j < to_size_t 5 ->
         ~ (1 <= i <= to_size_t 5 - 3 /\ 1 <= j <= to_size_t 5 - 3) ->
         Pthread.rd m i j
         = if (i =? 0) || (j =? 0) then 1%float
           else random_cell INT_MAX sample_rand
                  (Z.to_nat ((i - 1) * (to_size_t 5 - 1) + (j - 1))).
Proof.
  eexists. split; [vm_compute; reflexivity|].
  apply (serial_main_unrelaxed_cells INT_MAX sample_rand 50 5 0.0078125%float).
  vm_compute. reflexivity.
Defined.

Lemma serial_sweep_small size precision matrix new_matrix :
  2 <= size <= 3 ->
  Serial.sweep size precision matrix new_matrix = (new_matrix, false).
Proof.
  intros Hs. unfold Serial.sweep.
  assert (H : size = 2 \/ size = 3) by lia.
  destruct H as [-> | ->]; reflexivity.
Qed.

(** Grids of size 2 and 3 are printed as initialised. For these sizes the
    loops of [serial_average_matrix] have no turn; the first test of
    [still_changing] ends the [while] loop and [main] prints the grid of
    [matrix_init], the interior cell of the 3x3 grid included. *)
Theorem serial_small_grid_unchanged (RAND_MAX : Z) (rand : nat -> Z)
    (fuel : nat) (size_arg : Z) (precision_arg : float) :
  2 <= to_size_t size_arg <= 3 -> (precision_arg <=? 0)%float = false ->
  Serial.main RAND_MAX rand (S fuel) size_arg precision_arg
  = Serial.ExitPrinted
      (fst (Pthread.matrix_init RAND_MAX rand
              {| Pthread.size := to_size_t size_arg;
                 Pthread.precision := precision_arg;
                 Pthread.num_threads := 0; Pthread.matrix := None |})).
Proof.
  intros Hs Hp. unfold Serial.main, Serial.main_setup.
  replace ((to_size_t size_arg <? 2) || (10000000 <? to_size_t size_arg))
    with false by (symmetry; apply orb_false_iff; split; lia).
  rewrite Hp.
  set (sa := {| Pthread.size := to_size_t size_arg;
                Pthread.precision := precision_arg;
                Pthread.num_threads := 0; Pthread.matrix := None |}).
  destruct (Pthread.matrix_init RAND_MAX rand sa) as [a sa1] eqn:Hinit.
  cbn [fst].
  destruct (matrix_init_first RAND_MAX rand sa a sa1 eq_refl ltac:(cbn; lia) Hinit)
    as (Hsq & Hm & Hsz & Hpr & _).
  cbn [Pthread.size Pthread.precision sa] in Hsq, Hsz, Hpr.
  unfold Serial.serial_average_matrix.
  destruct (Pthread.matrix_init RAND_MAX rand sa1) as [new_m sa2] eqn:Hinit2.
  destruct (matrix_init_again RAND_MAX rand sa1 a new_m sa2 Hm
              ltac:(rewrite Hsz; exact Hsq) Hinit2) as [-> ->].
  rewrite Hsz, Hpr. cbn [Serial.while_loop].
  rewrite (serial_sweep_small _ _ _ _ Hs). reflexivity.
Qed.

(** The 3x3 grid. *)
Lemma serial_small_grid_unchanged_witness :
  Serial.main INT_MAX sample_rand (S 0) 3 0.5%float
  = Serial.ExitPrinted
      (fst (Pthread.matrix_init INT_MAX sample_rand
              {| Pthread.size := to_size_t 3;
                 Pthread.precision := 0.5%float;
                 Pthread.num_threads := 0; Pthread.matrix := None |})).
Proof.
  apply (serial_small_grid_unchanged INT_MAX sample_rand 0 3 0.5%float);
    [vm_compute; split; discriminate|reflexivity].
Defined.

(** ** The pthread partitioner in closed form *)

Lemma cell_of_inj s k k' : s <> 0 -> cell_of s k = cell_of s k' -> k = k'.
Proof.
  intros Hs [= H1 H2].
  rewrite (Z.div_mod k s Hs), (Z.div_mod k' s Hs).
  assert (Hq : k / s = k' / s) by lia.
  assert (Hr : k mod s = k' mod s) by lia.
  rewrite Hq, Hr. reflexivity.
Qed.

Lemma cell_of_index sz i j :
  3 <= sz -> interior sz (i, j) ->
  cell_of (sz - 2) ((i - 1) * (sz - 2) + (j - 1)) = (i, j)
  /\ 0 <= (i - 1) * (sz - 2) + (j - 1) < (sz - 2) * (sz - 2).
Proof.
  intros Hsz [Hi Hj]. cbn [fst snd] in Hi, Hj. split; [|nia].
  unfold cell_of.
  rewrite Z.div_add_l, Z.div_small by lia.
  rewrite (Z.add_comm ((i - 1) * (sz - 2)) (j - 1)).
  rewrite Z.mod_add, Z.mod_small by lia.
  f_equal; lia.
Qed.

Lemma run_cells_seqZ sz (c : nat) : forall off,
  3 <= sz -> 0 <= off ->
  run_cells sz c (cell_of (sz - 2) off)
  = cell_of (sz - 2) <$> seqZ off (Z.of_nat c).
Proof.
  induction c as [|c IH]; intros off Hsz Hoff; cbn [run_cells];
    [reflexivity|].
  rewrite next_cell_cell_of, IH by lia.
  rewrite (seqZ_cons off (Z.of_nat (S c))) by lia.
  rewrite fmap_cons. do 3 f_equal; lia.
Qed.

Lemma thread_data_loop_closed sz cpt o nw (n : nat) :
  forall i rem off (k : nat) t,
  3 <= sz -> 1 <= cpt < 2 ^ 31 - 1 -> 0 <= rem -> 0 <= off ->
  Pthread.thread_data_loop n sz i cpt rem (cell_of (sz - 2) off) o nw !! k
    = Some t ->
  Pthread.cells t = cpt + (if Z.of_nat k <? rem then 1 else 0)
  /\ (Pthread.start_i t, Pthread.start_j t)
     = cell_of (sz - 2) (off + Z.of_nat k * cpt + Z.min (Z.of_nat k) rem).
Proof.
  induction n as [|n IH]; intros i rem off k t Hsz Hcpt Hrem Hoff;
    cbn [Pthread.thread_data_loop]; [intros H; discriminate H|].
  set (c := if 0 <? rem then to_int (cpt + 1) else cpt).
  assert (Hc : c = cpt + (if 0 <? rem then 1 else 0)).
  { subst c. destruct (0 <? rem); [apply to_int_small|]; lia. }
  destruct k as [|k].
  - intros [= <-]. cbn [Pthread.cells Pthread.start_i Pthread.start_j].
    fold c. split; [exact Hc|].
    fold (cell_of (sz - 2) off). f_equal. lia.
  - intros Hk. change ((?x :: ?l) !! S k) with (l !! k) in Hk.
    unfold Pthread.advance_start in Hk.
    rewrite nth_cell_cell_of in Hk by lia.
    apply IH in Hk; [|lia|lia|destruct (0 <? rem) eqn:E; lia
                     |destruct (0 <? rem); lia].
    destruct Hk as [Hcells Hstart]. rewrite Hcells, Hstart.
    rewrite Hc.
    destruct (Z.ltb_spec 0 rem).
    + split.
      * destruct (Z.ltb_spec (Z.of_nat k) (rem - 1)),
          (Z.ltb_spec (Z.of_nat (S k)) rem); lia.
      * f_equal. lia.
    + split.
      * destruct (Z.ltb_spec (Z.of_nat k) rem),
          (Z.ltb_spec (Z.of_nat (S k)) rem); lia.
      * f_equal. lia.
Qed.

Lemma thread_data_loop_assigned sz cpt o nw (n : nat) : forall i rem off,
  3 <= sz -> 1 <= cpt < 2 ^ 31 - 1 -> 0 <= rem -> 0 <= off ->
  assigned_cells sz
    (Pthread.thread_data_loop n sz i cpt rem (cell_of (sz - 2) off) o nw)
  = cell_of (sz - 2)
    <$> seqZ off (Z.of_nat n * cpt + Z.min (Z.of_nat n) rem).
Proof.
  induction n as [|n IH]; intros i rem off Hsz Hcpt Hrem Hoff;
    cbn [Pthread.thread_data_loop].
  - replace (Z.of_nat 0 * cpt + Z.min (Z.of_nat 0) rem) with 0 by lia.
    reflexivity.
  - set (c := if 0 <? rem then to_int (cpt + 1) else cpt).
    assert (Hc : c = cpt + (if 0 <? rem then 1 else 0)).
    { subst c. destruct (0 <? rem); [apply to_int_small|]; lia. }
    assert (Hc1 : 1 <= c) by (rewrite Hc; destruct (0 <? rem); lia).
    unfold assigned_cells. cbn [map concat].
    fold (assigned_cells sz
            (Pthread.thread_data_loop n sz (i + 1) cpt
               (if 0 <? rem then rem - 1 else rem)
               (Pthread.advance_start sz c (cell_of (sz - 2) off)) o nw)).
    unfold Pthread.advance_start. rewrite nth_cell_cell_of by lia.
    rewrite IH by (destruct (0 <? rem) eqn:E; lia).
    unfold assigned. cbn [Pthread.cells Pthread.start_i Pthread.start_j].
    fold c. rewrite <- surjective_pairing.
    rewrite run_cells_seqZ by lia.
    rewrite <- fmap_app. f_equal.
    rewrite Z2Nat.id by lia.
    replace (Z.of_nat (S n) * cpt + Z.min (Z.of_nat (S n)) rem)
      with (c + (Z.of_nat n * cpt
                 + Z.min (Z.of_nat n) (if 0 <? rem then rem - 1 else rem)))
      by (destruct (Z.ltb_spec 0 rem); lia).
    symmetry. apply seqZ_app; destruct (Z.ltb_spec 0 rem); lia.
Qed.

(** Without overflow of the [int]s, the quotient and the remainder the
    function works with. *)
Lemma determine_thread_data_quotient sa o nw :
  valid_args sa ->
  (Pthread.size sa - 2) * (Pthread.size sa - 2) / Pthread.num_threads sa
    < INT_MAX ->
  let inner := (Pthread.size sa - 2) * (Pthread.size sa - 2) in
  let q := inner / Pthread.num_threads sa in
  let rem := inner mod q in
  1 <= q < 2 ^ 31 - 1 /\ 0 <= rem
  /\ rem = (inner mod Pthread.num_threads sa) mod q
  /\ Pthread.determine_thread_data sa o nw
     = Some (Pthread.thread_data_loop (Z.to_nat (Pthread.num_threads sa))
               (Pthread.size sa) 0 q rem (cell_of (Pthread.size sa - 2) 0) o nw).
Proof.
  intros (Hsz & Hn & Hle) Hq inner q rem. unfold INT_MAX in *.
  set (sz := Pthread.size sa) in *. set (W := Pthread.num_threads sa) in *.
  fold inner in Hle, Hq. fold q in Hq.
  assert (Hinner : 0 <= inner < 2 ^ 64) by (subst inner; nia).
  assert (Hq1 : 1 <= q).
  { subst q. apply Z.div_le_lower_bound; lia. }
  pose proof (Z.mod_pos_bound inner q ltac:(lia)) as Hrem. fold rem in Hrem.
  split; [lia|]. split; [lia|]. split.
  - subst rem. rewrite (Z.div_mod inner W) at 1 by lia. fold q.
    rewrite Z.add_comm, Z.mod_add by lia. reflexivity.
  - unfold Pthread.determine_thread_data. fold sz W.
    rewrite (to_size_t_small (sz - 2)) by lia. fold inner.
    rewrite (to_size_t_small _ Hinner), (to_size_t_small W) by lia.
    destruct (Z.eqb_spec W 0); [lia|]. fold q.
    rewrite (to_int_small q) by lia.
    rewrite (to_size_t_small q) by lia.
    destruct (Z.eqb_spec q 0); [lia|]. fold rem.
    rewrite (to_int_small rem) by lia.
    replace (cell_of (sz - 2) 0) with (1, 1)
      by (unfold cell_of; rewrite Z.div_0_l, Z.mod_0_l by lia; reflexivity).
    reflexivity.
Qed.

(** The runs of [determine_thread_data] in closed form. For valid globals
    whose quotient [inner_cells / num_threads] stays below [INT_MAX], the
    function divides by no zero; thread [k] gets id [k],
    [q + (1 if k < inner_cells mod q)] cells for [q = inner_cells /
    num_threads] (the remainder is taken modulo [q], not modulo the number
    of threads), and starts at the interior cell number
    [k*q + min(k, inner_cells mod q)] in row-major order. *)
Theorem determine_thread_data_closed_form (sa : Pthread.shared_args_t)
    (o nw : Pthread.ptr) :
  valid_args sa ->
  (Pthread.size sa - 2) * (Pthread.size sa - 2) / Pthread.num_threads sa
    < INT_MAX ->
  let inner := (Pthread.size sa - 2) * (Pthread.size sa - 2) in
  let q := inner / Pthread.num_threads sa in
  let rem := inner mod q in
  exists tds,
    Pthread.determine_thread_data sa o nw = Some tds
    /\ Z.of_nat (length tds) = Pthread.num_threads sa
    /\ forall (k : nat) t, tds !! k = Some t ->
         Pthread.id t = Z.of_nat k
         /\ Pthread.cells t = q + (if Z.of_nat k <? rem then 1 else 0)
         /\ (Pthread.start_i t, Pthread.start_j t)
            = cell_of (Pthread.size sa - 2)
                (Z.of_nat k * q + Z.min (Z.of_nat k) rem)
         /\ Pthread.original_matrix t = o /\ Pthread.new_matrix t = nw.
Proof.
  intros Hv Hq inner q rem.
  destruct (determine_thread_data_quotient sa o nw Hv Hq)
    as (Hq1 & Hrem & _ & Htds).
  cbv zeta in Hq1, Hrem, Htds. fold inner in Hq1, Hrem, Htds.
  fold q in Hq1, Hrem, Htds. fold rem in Hrem, Htds.
  destruct Hv as (Hsz & Hn & _).
  eexists. split; [exact Htds|]. split.
  - rewrite thread_data_loop_length. lia.
  - intros k t Hk.
    destruct (thread_data_loop_lookup _ _ _ _ _ _ _ _ _ _ Hk) as (Hid & Ho & Hnw).
    apply thread_data_loop_closed in Hk; [|lia|lia|lia|lia].
    destruct Hk as (Hc & Hs).
    split; [lia|]. split; [exact Hc|]. split; [|split; assumption].
    rewrite Hs. f_equal; lia.
Qed.

(** Five threads on a 5x5 grid: quotient 1, remainder 9 mod 1 = 0. *)
Lemma determine_thread_data_closed_form_witness :
  exists tds,
    Pthread.determine_thread_data args_5_5 Pthread.p_matrix Pthread.p_new_matrix
      = Some tds
    /\ Z.of_nat (length tds) = Pthread.num_threads args_5_5
    /\ forall (k : nat) t, tds !! k = Some t ->
         Pthread.id t = Z.of_nat k
         /\ Pthread.cells t
            = 9 / 5 + (if Z.of_nat k <? 9 mod (9 / 5) then 1 else 0)
         /\ (Pthread.start_i t, Pthread.start_j t)
            = cell_of (Pthread.size args_5_5 - 2)
                (Z.of_nat k * (9 / 5) + Z.min (Z.of_nat k) (9 mod (9 / 5)))
         /\ Pthread.original_matrix t = Pthread.p_matrix
         /\ Pthread.new_matrix t = Pthread.p_new_matrix.
Proof.
  apply (determine_thread_data_closed_form args_5_5 Pthread.p_matrix
           Pthread.p_new_matrix).
  - unfold valid_args, INT_MAX. cbn. lia.
  - vm_compute. reflexivity.
Defined.

(** No two workers share a cell. Under the same conditions the cells of
    the runs, thread after thread, are the first
    [W*q + min(W, inner_cells mod q)] interior cells in row-major order, each
    once, and this number is at most the number of interior cells. *)
Theorem determine_thread_data_prefix (sa : Pthread.shared_args_t)
    (o nw : Pthread.ptr) (tds : list Pthread.thread_args) :
  valid_args sa ->
  (Pthread.size sa - 2) * (Pthread.size sa - 2) / Pthread.num_threads sa
    < INT_MAX ->
  Pthread.determine_thread_data sa o nw = Some tds ->
  let inner := (Pthread.size sa - 2) * (Pthread.size sa - 2) in
  let q := inner / Pthread.num_threads sa in
  let total := Pthread.num_threads sa * q
               + Z.min (Pthread.num_threads sa) (inner mod q) in
  total <= inner
  /\ assigned_cells (Pthread.size sa) tds
     = cell_of (Pthread.size sa - 2) <$> seqZ 0 total
  /\ NoDup (assigned_cells (Pthread.size sa) tds).
Proof.
  intros Hv Hq Htds inner q total.
  destruct (determine_thread_data_quotient sa o nw Hv Hq)
    as (Hq1 & Hrem & Hmod & Htds').
  cbv zeta in Hq1, Hrem, Hmod, Htds'. fold inner in Hq1, Hrem, Hmod, Htds'.
  fold q in Hq1, Hrem, Hmod, Htds'.
  rewrite Htds' in Htds. injection Htds as <-.
  destruct Hv as (Hsz & Hn & Hle). unfold INT_MAX in Hn.
  assert (Heq : assigned_cells (Pthread.size sa)
                  (Pthread.thread_data_loop (Z.to_nat (Pthread.num_threads sa))
                     (Pthread.size sa) 0 q (inner mod q)
                     (cell_of (Pthread.size sa - 2) 0) o nw)
                = cell_of (Pthread.size sa - 2) <$> seqZ 0 total).
  { rewrite thread_data_loop_assigned by lia.
    rewrite Z2Nat.id by lia. reflexivity. }
  split; [|split; [exact Heq|]].
  - pose proof (Z.div_mod inner (Pthread.num_threads sa) ltac:(lia)) as Hdm.
    pose proof (Z.mod_pos_bound inner (Pthread.num_threads sa) ltac:(lia)) as Hr.
    assert (Hle' : inner mod q <= inner mod Pthread.num_threads sa)
      by (rewrite Hmod; apply Z.mod_le; lia).
    fold q in Hdm. subst total. lia.
  - rewrite Heq. apply NoDup_fmap_2; [|apply NoDup_seqZ].
    intros k k' Hk. apply (cell_of_inj (Pthread.size sa - 2)); [lia|exact Hk].
Qed.

(** Five threads on a 5x5 grid: the first five interior cells. *)
Lemma determine_thread_data_prefix_witness :
  exists tds,
    Pthread.determine_thread_data args_5_5 Pthread.p_matrix Pthread.p_new_matrix
      = Some tds
    /\ 5 * (9 / 5) + Z.min 5 (9 mod (9 / 5)) <= 9
    /\ assigned_cells (Pthread.size args_5_5) tds
       = cell_of (Pthread.size args_5_5 - 2)
         <$> seqZ 0 (5 * (9 / 5) + Z.min 5 (9 mod (9 / 5)))
    /\ NoDup (assigned_cells (Pthread.size args_5_5) tds).
Proof.
  eexists. split; [vm_compute; reflexivity|].
  apply (determine_thread_data_prefix args_5_5 Pthread.p_matrix
           Pthread.p_new_matrix).
  - unfold valid_args, INT_MAX. cbn. lia.
  - vm_compute. reflexivity.
  - vm_compute. reflexivity.
Defined.

(** When every interior cell has a worker. Under the same conditions the
    runs cover the whole interior exactly when
    [inner_cells mod num_threads < inner_cells / num_threads]; otherwise
    the last interior cells belong to no thread. *)
Theorem determine_thread_data_covers_iff (sa : Pthread.shared_args_t)
    (o nw : Pthread.ptr) (tds : list Pthread.thread_args) :
  valid_args sa ->
  (Pthread.size sa - 2) * (Pthread.size sa - 2) / Pthread.num_threads sa
    < INT_MAX ->
  Pthread.determine_thread_data sa o nw = Some tds ->
  let inner := (Pthread.size sa - 2) * (Pthread.size sa - 2) in
  (forall p, interior (Pthread.size sa) p ->
             p ∈ assigned_cells (Pthread.size sa) tds)
  <-> inner mod Pthread.num_threads sa < inner / Pthread.num_threads sa.
Proof.
  intros Hv Hq Htds inner.
  destruct (determine_thread_data_quotient sa o nw Hv Hq)
    as (Hq1 & Hrem & Hmod & Htds').
  cbv zeta in Hq1, Hrem, Hmod, Htds'. fold inner in Hq1, Hrem, Hmod, Htds'.
  rewrite Htds' in Htds. injection Htds as <-.
  destruct Hv as (Hsz & Hn & Hle). unfold INT_MAX in Hn.
  set (W := Pthread.num_threads sa) in *. set (sz := Pthread.size sa) in *.
  set (q := inner / W) in *.
  rewrite thread_data_loop_assigned by lia.
  rewrite Z2Nat.id by lia.
  pose proof (Z.div_mod inner W ltac:(lia)) as Hdm. fold q in Hdm.
  pose proof (Z.mod_pos_bound inner W ltac:(lia)) as Hr.
  assert (Hle' : inner mod q <= inner mod W)
    by (rewrite Hmod; apply Z.mod_le; lia).
  set (total := W * q + Z.min W (inner mod q)).
  replace (0 + (W * q + Z.min W (inner mod q))) with total by (subst total; lia).
  assert (Htotal : total = inner <-> inner mod W < q).
  { subst total. split.
    - intros Ht. assert (He : inner mod q = inner mod W) by lia.
      rewrite Hmod in He. apply Z.mod_small_iff in He; lia.
    - intros Hlt. rewrite Hmod, Z.mod_small by lia. lia. }
  rewrite <- Htotal. split.
  - intros Hall.
    assert (Hlast : interior sz (cell_of (sz - 2) (inner - 1)))
      by (apply cell_of_interior; subst inner; nia).
    apply Hall in Hlast. apply list_elem_of_fmap in Hlast.
    destruct Hlast as (k & Hk & Hin).
    apply (cell_of_inj (sz - 2)) in Hk; [|lia].
    apply elem_of_seqZ in Hin.
    assert (total <= inner) by (subst total; lia). lia.
  - intros Ht [i j] Hp.
    destruct (cell_of_index sz i j ltac:(lia) Hp) as [Hcell Hidx].
    apply list_elem_of_fmap. exists ((i - 1) * (sz - 2) + (j - 1)).
    split; [symmetry; exact Hcell|].
    apply elem_of_seqZ. fold inner in Hidx. lia.
Qed.

(** Five threads on a 5x5 grid: 9 mod 5 = 4 is not below 9 / 5 = 1. *)
Lemma determine_thread_data_covers_iff_witness :
  exists tds,
    Pthread.determine_thread_data args_5_5 Pthread.p_matrix Pthread.p_new_matrix
      = Some tds
    /\ ((forall p, interior (Pthread.size args_5_5) p ->
                   p ∈ assigned_cells (Pthread.size args_5_5) tds)
        <-> 9 mod 5 < 9 / 5).
Proof.
  eexists. split; [vm_compute; reflexivity|].
  apply (determine_thread_data_covers_iff args_5_5 Pthread.p_matrix
           Pthread.p_new_matrix).
  - unfold valid_args, INT_MAX. cbn. lia.
  - vm_compute. reflexivity.
  - vm_compute. reflexivity.
Defined.

(** As many threads as interior cells. When the thread count given to
    [main] is at least the number of interior cells (and fits an [int]),
    [determine_thread_data] gives every interior cell its own thread:
    thread [k] has the single cell number [k] in row-major order. *)
Theorem one_cell_per_thread (size_arg : Z) (precision_arg : float)
    (threads_arg : Z) (sa : Pthread.shared_args_t) (o nw : Pthread.ptr) :
  Pthread.main_setup size_arg precision_arg threads_arg = Pthread.Proceed sa ->
  3 <= Pthread.size sa ->
  (Pthread.size sa - 2) * (Pthread.size sa - 2) <= threads_arg <= INT_MAX ->
  exists tds,
    Pthread.determine_thread_data sa o nw = Some tds
    /\ Z.of_nat (length tds) = (Pthread.size sa - 2) * (Pthread.size sa - 2)
    /\ forall (k : nat) t, tds !! k = Some t ->
         Pthread.cells t = 1
         /\ (Pthread.start_i t, Pthread.start_j t)
            = cell_of (Pthread.size sa - 2) (Z.of_nat k).
Proof.
  intros Hsetup Hsz Ht.
  destruct (main_setup_Proceed _ _ _ _ Hsetup ltac:(lia))
    as (Hsz' & _ & _ & Hnt & _).
  set (inner := (Pthread.size sa - 2) * (Pthread.size sa - 2)) in *.
  rewrite Z.min_r in Hnt by lia.
  assert (Hinner : 1 <= inner) by (subst inner; nia).
  assert (Hv : valid_args sa).
  { unfold valid_args. fold inner. rewrite Hnt. lia. }
  assert (Hq : inner / Pthread.num_threads sa < INT_MAX).
  { rewrite Hnt, Z.div_same by lia. unfold INT_MAX. lia. }
  destruct (determine_thread_data_quotient sa o nw Hv Hq)
    as (Hq1 & Hrem & _ & Htds).
  cbv zeta in Hq1, Hrem, Htds. fold inner in Hq1, Hrem, Htds.
  rewrite Hnt, Z.div_same, Z.mod_1_r in * by lia.
  eexists. split; [exact Htds|]. split.
  - rewrite thread_data_loop_length. lia.
  - intros k t Hk.
    apply thread_data_loop_closed in Hk; [|lia|lia|lia|lia].
    destruct Hk as (Hc & Hs).
    rewrite Hc, Hs.
    destruct (Z.ltb_spec (Z.of_nat k) 0); [lia|].
    split; [reflexivity|]. f_equal; lia.
Qed.

(** [./average_parallel 4 0.5 7]: four interior cells, seven threads asked. *)
Lemma one_cell_per_thread_witness :
  exists sa,
    Pthread.main_setup 4 0.5%float 7 = Pthread.Proceed sa
    /\ exists tds,
         Pthread.determine_thread_data sa Pthread.p_matrix Pthread.p_new_matrix
           = Some tds
         /\ Z.of_nat (length tds) = (Pthread.size sa - 2) * (Pthread.size sa - 2)
         /\ forall (k : nat) t, tds !! k = Some t ->
              Pthread.cells t = 1
              /\ (Pthread.start_i t, Pthread.start_j t)
                 = cell_of (Pthread.size sa - 2) (Z.of_nat k).
Proof.
  eexists. split; [vm_compute; reflexivity|].
  apply (one_cell_per_thread 4 0.5%float 7).
  - vm_compute. reflexivity.
  - vm_compute. discriminate.
  - unfold INT_MAX. cbn. lia.
Defined.

(** ** The pthread program: where the division by zero is reached *)

Lemma to_int_zero_iff (x : Z) : to_int x = 0 <-> x mod 2 ^ 32 = 0.
Proof.
  unfold to_int.
  pose proof (Z.div_mod x (2 ^ 32) ltac:(lia)) as Hx.
  pose proof (Z.mod_pos_bound x (2 ^ 32) ltac:(lia)) as Hxm.
  pose proof (Z.div_mod (x + 2 ^ 31) (2 ^ 32) ltac:(lia)) as Hy.
  pose proof (Z.mod_pos_bound (x + 2 ^ 31) (2 ^ 32) ltac:(lia)) as Hym.
  lia.
Qed.

Lemma to_size_t_int_zero_iff (c : Z) :
  - 2 ^ 31 <= c < 2 ^ 31 -> (to_size_t c = 0 <-> c = 0).
Proof.
  intros Hc. unfold to_size_t.
  pose proof (Z.div_mod c (2 ^ 64) ltac:(lia)) as Hx.
  pose proof (Z.mod_pos_bound c (2 ^ 64) ltac:(lia)) as Hxm.
  lia.
Qed.

Lemma determine_thread_data_None sa o nw t :
  2 <= Pthread.size sa <= 10000000 -> 1 <= t <= INT_MAX ->
  Pthread.num_threads sa
    = Z.min t ((Pthread.size sa - 2) * (Pthread.size sa - 2)) ->
  Pthread.determine_thread_data sa o nw = None
  <-> Pthread.size sa = 2
      \/ ((Pthread.size sa - 2) * (Pthread.size sa - 2) / Pthread.num_threads sa)
           mod 2 ^ 32 = 0.
Proof.
  intros Hsz Ht Hnt. unfold INT_MAX in Ht.
  set (sz := Pthread.size sa) in *. set (W := Pthread.num_threads sa) in *.
  unfold Pthread.determine_thread_data. fold sz W.
  set (inner := (sz - 2) * (sz - 2)) in *.
  assert (Hinner : 0 <= inner < 2 ^ 64) by (subst inner; nia).
  rewrite (to_size_t_small (sz - 2)) by lia. fold inner.
  rewrite (to_size_t_small _ Hinner), (to_size_t_small W) by lia.
  destruct (Z.eqb_spec W 0) as [HW|HW].
  - split; [intros _; left; subst inner; nia|reflexivity].
  - assert (Hsz3 : sz <> 2) by (intros E; subst inner; rewrite E in Hnt; lia).
    pose proof (to_int_range (inner / W)) as Hrange.
    destruct (Z.eqb_spec (to_size_t (to_int (inner / W))) 0) as [Hz|Hz].
    + split; [intros _; right|reflexivity].
      apply to_int_zero_iff. apply to_size_t_int_zero_iff; assumption.
    + split; [intros H; discriminate H|].
      intros [H2|Hmod]; [contradiction|].
      exfalso. apply Hz. apply to_size_t_int_zero_iff; [exact Hrange|].
      apply to_int_zero_iff. exact Hmod.
Qed.

(** When the pthread program runs into the division by zero. For
    arguments that pass the validation of [main] (with a thread count
    within [int]), the run reaches the division by zero of
    [determine_thread_data] exactly when the size is 2 (no interior cell,
    the thread count is clamped to 0) or when the quotient
    [inner_cells / num_threads] is a multiple of 2^32, which the [int]
    [cells_per_thread] stores as 0; in every other case the threads are
    started. *)
Theorem pthread_main_undefined_iff (RAND_MAX : Z) (rand : nat -> Z)
    (fuel : nat) (size_arg : Z) (precision_arg : float) (threads_arg : Z)
    (sa : Pthread.shared_args_t) :
  Pthread.main_setup size_arg precision_arg threads_arg = Pthread.Proceed sa ->
  threads_arg <= INT_MAX ->
  Pthread.main RAND_MAX rand fuel size_arg precision_arg threads_arg
    = Pthread.ExitUndefined
  <-> Pthread.size sa = 2
      \/ ((Pthread.size sa - 2) * (Pthread.size sa - 2) / Pthread.num_threads sa)
           mod 2 ^ 32 = 0.
Proof.
  intros Hsetup Ht.
  destruct (main_setup_Proceed _ _ _ _ Hsetup Ht)
    as (Hsz & _ & Ht1 & Hnt & Hnull).
  unfold Pthread.main. rewrite Hsetup.
  destruct (Pthread.matrix_init RAND_MAX rand sa) as [a sa1] eqn:Hinit.
  destruct (matrix_init_first RAND_MAX rand sa a sa1 Hnull ltac:(lia) Hinit)
    as (Hsq & Hm & Hsz' & _ & Hnt').
  unfold Pthread.relax_matrix_parallel.
  destruct (Pthread.matrix_init RAND_MAX rand sa1) as [new_m sa2] eqn:Hcopy.
  destruct (matrix_init_again RAND_MAX rand sa1 a new_m sa2 Hm
              ltac:(rewrite Hsz'; exact Hsq) Hcopy) as [-> ->].
  rewrite <- Hsz', <- Hnt'.
  rewrite <- (determine_thread_data_None sa1 Pthread.p_matrix
                Pthread.p_new_matrix threads_arg)
    by (rewrite ?Hsz', ?Hnt'; first [exact Hnt|lia]).
  unfold Pthread.initial_state.
  destruct (Pthread.determine_thread_data sa1 Pthread.p_matrix
              Pthread.p_new_matrix) as [tds|]; [|split; reflexivity].
  destruct (Pthread.coordinator_loop fuel sa1 _);
    split; intros H; discriminate H.
Qed.

(** [./average_parallel 65538 0.5 1]: 2^32 interior cells for one thread. *)
Lemma pthread_main_undefined_iff_witness :
  Pthread.main INT_MAX sample_rand 0 65538 0.5%float 1 = Pthread.ExitUndefined.
Proof.
  apply (proj2 (pthread_main_undefined_iff INT_MAX sample_rand 0 65538 0.5%float 1
                  {| Pthread.size := 65538; Pthread.precision := 0.5%float;
                     Pthread.num_threads := 1; Pthread.matrix := None |}
                  eq_refl ltac:(unfold INT_MAX; lia))).
  right. reflexivity.
Defined.

(** ** The pthread program: the turn that ends the loop *)

Lemma reachable_pointers RAND_MAX rand size_arg precision_arg threads_arg
    n sa a st :
  reachable RAND_MAX rand size_arg precision_arg threads_arg n sa a st ->
  forall t, t ∈ Pthread.thread_data st ->
    Pthread.original_matrix t
      = (if Nat.even n then Pthread.p_matrix else Pthread.p_new_matrix)
    /\ Pthread.new_matrix t
       = (if Nat.even n then Pthread.p_new_matrix else Pthread.p_matrix).
Proof.
  intros (sa0 & sa1 & new_m & st0 & _ & _ & _ & _ & Hst0 & Hhead).
  apply (loop_head_pointers sa n Pthread.p_matrix Pthread.p_new_matrix st0 st);
    [|exact Hhead].
  unfold Pthread.initial_state in Hst0.
  destruct (Pthread.determine_thread_data sa Pthread.p_matrix
              Pthread.p_new_matrix) as [tds|] eqn:Htds; [|discriminate Hst0].
  injection Hst0 as <-. cbn [Pthread.thread_data].
  apply (determine_thread_data_pointers _ _ _ _ Htds).
Qed.

Lemma reachable_initial RAND_MAX rand size_arg precision_arg threads_arg
    n sa a st :
  reachable RAND_MAX rand size_arg precision_arg threads_arg n sa a st ->
  exists tds st0,
    Pthread.determine_thread_data sa Pthread.p_matrix Pthread.p_new_matrix
      = Some tds
    /\ Pthread.initial_state sa a a = Some st0
    /\ Pthread.thread_data st0 = tds
    /\ Pthread.mem_matrix st0 = a /\ Pthread.mem_new_matrix st0 = a
    /\ square (Pthread.size sa) a
    /\ Pthread.loop_head n sa st0 = Some st.
Proof.
  intros (sa0 & sa1 & new_m & st0 & Hsetup & Ht & Hinit & Hcopy & Hst0 & Hhead).
  destruct (main_setup_Proceed _ _ _ _ Hsetup Ht)
    as (Hsz & Hp & Ht1 & Hnt & Hnull).
  destruct (matrix_init_first RAND_MAX rand sa0 a sa1 Hnull ltac:(lia) Hinit)
    as (Hsq & Hm & Hsz' & Hp' & Hnt').
  destruct (matrix_init_again RAND_MAX rand sa1 a new_m sa Hm
              ltac:(rewrite Hsz'; exact Hsq) Hcopy) as [-> ->].
  pose proof Hst0 as Hst0'.
  unfold Pthread.initial_state in Hst0.
  destruct (Pthread.determine_thread_data sa1 Pthread.p_matrix
              Pthread.p_new_matrix) as [tds|] eqn:Htds; [|discriminate Hst0].
  injection Hst0 as <-.
  eexists tds, _. split; [reflexivity|]. split; [exact Hst0'|].
  cbn. repeat split; try reflexivity; try exact Hhead;
    rewrite Hsz'; apply Hsq.
Qed.

Lemma assigned_cells_swap sz tds :
  assigned_cells sz (map Pthread.swap_matrices tds) = assigned_cells sz tds.
Proof. unfold assigned_cells. rewrite map_map. reflexivity. Qed.

Lemma compute_phase_unassigned sa a st p q :
  loop_invariant sa a st ->
  q ∉ assigned_cells (Pthread.size sa) (Pthread.thread_data st) ->
  Pthread.rd (Pthread.load (Pthread.compute_phase sa st) p) (fst q) (snd q)
  = Pthread.rd (Pthread.load st p) (fst q) (snd q).
Proof.
  intros Hinv Hq.
  destruct (compute_phase_effect sa a st Hinv)
    as (o & nw & Hne & Hall & Ho & Hsq & Htd & Hfl & Hwr & Hun).
  cbv zeta in *.
  assert (Hp : p = o \/ p = nw) by (destruct p, o, nw; tauto).
  destruct Hp as [->| ->]; [rewrite Ho; reflexivity|].
  apply Hun. exact Hq.
Qed.

Lemma iteration_load sa st p :
  Pthread.load (Pthread.iteration sa st) p
  = Pthread.load (Pthread.compute_phase sa st) p.
Proof. destruct p; reflexivity. Qed.

(** The cells outside every run are as they were when the coordinator
    entered its loop. *)
Lemma loop_head_unassigned sa a (n : nat) : forall st0 st,
  0 <= Pthread.num_threads sa ->
  loop_invariant sa a st0 ->
  Pthread.loop_head n sa st0 = Some st ->
  assigned_cells (Pthread.size sa) (Pthread.thread_data st)
  = assigned_cells (Pthread.size sa) (Pthread.thread_data st0)
  /\ forall p q,
       q ∉ assigned_cells (Pthread.size sa) (Pthread.thread_data st0) ->
       Pthread.rd (Pthread.load st p) (fst q) (snd q)
       = Pthread.rd (Pthread.load st0 p) (fst q) (snd q).
Proof.
  induction n as [|n IH]; intros st0 st Hn Hinv; cbn [Pthread.loop_head].
  - intros [= <-]. split; reflexivity.
  - destruct (Pthread.PRECISION_REACHED (Pthread.iteration sa st0));
      [intros H; discriminate H|].
    intros Hhead.
    destruct (IH _ _ Hn (continue_invariant sa a st0 Hn Hinv) Hhead)
      as [Hcells Hkeep].
    cbn [Pthread.continue_phase Pthread.thread_data] in Hcells, Hkeep.
    rewrite iteration_thread_data, assigned_cells_swap in Hcells, Hkeep.
    split; [exact Hcells|].
    intros p q Hq. rewrite (Hkeep p q Hq).
    transitivity (Pthread.rd (Pthread.load (Pthread.iteration sa st0) p)
                    (fst q) (snd q)); [destruct p; reflexivity|].
    rewrite iteration_load. apply (compute_phase_unassigned sa a); assumption.
Qed.

(** The coordinator's decision in terms of the cells. *)
Lemma iteration_reached_iff sa a st o :
  loop_invariant sa a st -> 1 <= Pthread.num_threads sa ->
  (forall t, t ∈ Pthread.thread_data st -> Pthread.original_matrix t = o) ->
  Pthread.PRECISION_REACHED (Pthread.iteration sa st) = true
  <-> forall q, q ∈ assigned_cells (Pthread.size sa) (Pthread.thread_data st) ->
        exceeds (Pthread.precision sa) (Pthread.load st o) q = false.
Proof.
  intros Hinv Hn Ho.
  destruct (compute_phase_effect sa a st Hinv)
    as (o' & nw & Hne & Hall & _ & _ & _ & Hfl & _ & _).
  cbv zeta in Hfl.
  pose proof (inv_threads _ _ _ Hinv) as Hlen.
  set (W := Z.to_nat (Pthread.num_threads sa)) in *.
  assert (HW : length (Pthread.thread_data st) = W) by lia.
  assert (Hoo : forall t, t ∈ Pthread.thread_data st -> o' = o).
  { intros t Ht. destruct (Hall t Ht) as [<- _]. apply Ho. exact Ht. }
  assert (Hflag : forall (k : nat) t, Pthread.thread_data st !! k = Some t ->
            Pthread.THREAD_PRECISION_REACHED (Pthread.compute_phase sa st) !! k
            = Some (negb (existsb (exceeds (Pthread.precision sa)
                                     (Pthread.load st o))
                            (assigned (Pthread.size sa) t)))).
  { intros k t Hk. rewrite Hfl.
    assert (Hlt : (k < W)%nat) by (apply lookup_lt_Some in Hk; lia).
    rewrite (flags_after_own _ _ _ _ _ k t (inv_ids _ _ _ Hinv) Hk)
      by (rewrite length_replicate; exact Hlt).
    rewrite (Hoo t) by (apply list_elem_of_lookup; eauto).
    rewrite lookup_replicate_2 by exact Hlt.
    destruct (existsb _ _); reflexivity. }
  assert (Hfllen : length (Pthread.THREAD_PRECISION_REACHED
                             (Pthread.compute_phase sa st)) = W).
  { rewrite Hfl, flags_after_length, length_replicate. reflexivity. }
  unfold Pthread.iteration, Pthread.decide_phase.
  cbn [Pthread.PRECISION_REACHED]. fold W.
  rewrite check_flags_forallb by lia.
  destruct W as [|W'] eqn:HWe; [lia|]. rewrite <- HWe in *.
  rewrite drop_0, forallb_forall. split.
  - intros Hall' q Hq.
    apply assigned_cells_elem in Hq. destruct Hq as (t & Ht & Hq).
    apply list_elem_of_lookup in Ht. destruct Ht as (k & Hk).
    pose proof (Hflag k t Hk) as Hb.
    assert (Hin : In (negb (existsb (exceeds (Pthread.precision sa)
                                       (Pthread.load st o))
                              (assigned (Pthread.size sa) t)))
                     (Pthread.THREAD_PRECISION_REACHED
                        (Pthread.compute_phase sa st))).
    { apply list_elem_of_In. apply list_elem_of_lookup. eauto. }
    apply Hall' in Hin. unfold id in Hin.
    apply negb_existsb_true with (x := q) in Hin; assumption.
  - intros Hall' b Hb. apply list_elem_of_In, list_elem_of_lookup in Hb.
    destruct Hb as (k & Hk).
    destruct (lookup_lt_is_Some_2 (Pthread.thread_data st) k) as [t Ht].
    { apply lookup_lt_Some in Hk. lia. }
    rewrite (Hflag k t Ht) in Hk. injection Hk as <-. unfold id.
    apply negb_existsb_true. intros q Hq. apply Hall'.
    apply assigned_cells_elem. exists t.
    split; [apply list_elem_of_lookup; eauto|exact Hq].
Qed.

(** A grid printed by [main] comes from a turn that found the precision
    reached. *)
Lemma main_printed_reached RAND_MAX rand fuel size_arg precision_arg
    threads_arg m :
  threads_arg <= INT_MAX ->
  Pthread.main RAND_MAX rand fuel size_arg precision_arg threads_arg
    = Pthread.ExitPrinted m ->
  exists n sa a st,
    reachable RAND_MAX rand size_arg precision_arg threads_arg n sa a st
    /\ m = Pthread.mem_matrix (Pthread.iteration sa st)
    /\ Pthread.PRECISION_REACHED (Pthread.iteration sa st) = true.
Proof.
  intros Ht. unfold Pthread.main.
  destruct (Pthread.main_setup size_arg precision_arg threads_arg)
    as [code|sa0] eqn:Hsetup; [intros H; discriminate H|].
  destruct (Pthread.matrix_init RAND_MAX rand sa0) as [a sa1] eqn:Hinit.
  unfold Pthread.relax_matrix_parallel.
  destruct (Pthread.matrix_init RAND_MAX rand sa1) as [new_m sa] eqn:Hcopy.
  destruct (Pthread.initial_state sa a new_m) as [st0|] eqn:Hst0;
    [|intros H; discriminate H].
  destruct (Pthread.coordinator_loop fuel sa st0) as [st'|] eqn:Hloop;
    [|intros H; discriminate H].
  intros [= <-].
  destruct (coordinator_loop_returns sa fuel st0 st' Hloop)
    as (n & st & Hhead & -> & Hpr).
  exists n, sa, a, st. split; [|split; [reflexivity|exact Hpr]].
  exists sa0, sa1, new_m, st0. repeat split; assumption.
Qed.

(** The second, fourth, sixth ... turn writes the buffer that is returned.
    At a head of the coordinator's loop reached after an odd number of
    turns the workers' pointers are exchanged: the turn leaves the buffer
    [new_matrix] as it is and stores the averages of its cells in the
    buffer [matrix], the one [relax_matrix_parallel] returns. *)
Theorem even_turn_writes_matrix (RAND_MAX : Z) (rand : nat -> Z)
    (size_arg : Z) (precision_arg : float) (threads_arg : Z) (n : nat)
    (sa : Pthread.shared_args_t) (a : Pthread.grid) (st : Pthread.state) :
  reachable RAND_MAX rand size_arg precision_arg threads_arg n sa a st ->
  Nat.odd n = true ->
  Pthread.mem_new_matrix (Pthread.iteration sa st) = Pthread.mem_new_matrix st
  /\ Pthread.last_written (Pthread.iteration sa st)
     = Pthread.mem_matrix (Pthread.iteration sa st)
  /\ forall q, q ∈ assigned_cells (Pthread.size sa) (Pthread.thread_data st) ->
       Pthread.rd (Pthread.mem_matrix (Pthread.iteration sa st)) (fst q) (snd q)
       = Pthread.new_value (Pthread.mem_new_matrix st) (fst q) (snd q).
Proof.
  intros Hreach Hodd.
  destruct (reachable_invariant _ _ _ _ _ _ _ _ _ Hreach) as (Hv & _ & Hinv).
  pose proof (reachable_pointers _ _ _ _ _ _ _ _ _ Hreach) as Hptr.
  rewrite <- Nat.negb_odd, Hodd in Hptr. cbn [negb] in Hptr.
  destruct (compute_phase_effect sa a st Hinv)
    as (o & nw & Hne & Hall & Ho & _ & Htd & _ & Hwr & _).
  cbv zeta in Ho, Htd, Hwr.
  destruct Hv as (_ & (Hn1 & _) & _).
  pose proof (inv_threads _ _ _ Hinv) as Hlen.
  destruct (Pthread.thread_data st) as [|t tds] eqn:Htds;
    [cbn [length] in Hlen; lia|].
  destruct (Hptr t (list_elem_of_here _ _)) as [Ht1 Ht2].
  destruct (Hall t (list_elem_of_here _ _)) as [Ht1' Ht2'].
  rewrite Ht1 in Ht1'. rewrite Ht2 in Ht2'. subst o nw.
  split; [exact Ho|]. split.
  - unfold Pthread.last_written. rewrite iteration_thread_data, Htds, Ht2.
    reflexivity.
  - intros q Hq. apply (Hwr q Hq).
Qed.

(** The second turn of [./average_parallel 4 0.0078125 2]. *)
Lemma even_turn_writes_matrix_witness :
  exists sa a st,
    head_of_run INT_MAX sample_rand 4 0.0078125%float 2 1 = Some (sa, a, st)
    /\ Pthread.mem_new_matrix (Pthread.iteration sa st)
       = Pthread.mem_new_matrix st
    /\ Pthread.last_written (Pthread.iteration sa st)
       = Pthread.mem_matrix (Pthread.iteration sa st)
    /\ forall q, q ∈ assigned_cells (Pthread.size sa) (Pthread.thread_data st) ->
         Pthread.rd (Pthread.mem_matrix (Pthread.iteration sa st)) (fst q) (snd q)
         = Pthread.new_value (Pthread.mem_new_matrix st) (fst q) (snd q).
Proof.
  eexists _, _, _. split; [vm_compute; reflexivity|].
  eapply (even_turn_writes_matrix INT_MAX sample_rand 4 0.0078125%float 2 1);
    [|reflexivity].
  apply head_of_run_reachable; [unfold INT_MAX; lia|].
  vm_compute. reflexivity.
Defined.

(** What the pthread program prints. The printed grid comes from the turn
    that found the precision reached; with [cur] the buffer the workers
    read in that turn, no assigned cell of [cur] differs from the average
    of its neighbours by more than the precision, and the printed grid is
    [cur] itself when the turn was the first, third, fifth ..., and holds in
    every assigned cell the average computed from [cur] when the turn was
    the second, fourth, sixth .... *)
Theorem pthread_printed_grid (RAND_MAX : Z) (rand : nat -> Z) (fuel : nat)
    (size_arg : Z) (precision_arg : float) (threads_arg : Z)
    (m : Pthread.grid) :
  threads_arg <= INT_MAX ->
  Pthread.main RAND_MAX rand fuel size_arg precision_arg threads_arg
    = Pthread.ExitPrinted m ->
  exists n sa a st,
    reachable RAND_MAX rand size_arg precision_arg threads_arg n sa a st
    /\ let cur := Pthread.load st (if Nat.even n then Pthread.p_matrix
                                   else Pthread.p_new_matrix) in
       let cells := assigned_cells (Pthread.size sa) (Pthread.thread_data st) in
       (forall q, q ∈ cells -> exceeds precision_arg cur q = false)
       /\ (if Nat.even n then m = cur
           else forall q, q ∈ cells ->
                  Pthread.rd m (fst q) (snd q)
                  = Pthread.new_value cur (fst q) (snd q)).
Proof.
  intros Ht Hmain.
  destruct (main_printed_reached _ _ _ _ _ _ _ Ht Hmain)
    as (n & sa & a & st & Hreach & -> & Hpr).
  exists n, sa, a, st. split; [exact Hreach|].
  destruct (reachable_invariant _ _ _ _ _ _ _ _ _ Hreach) as (Hv & Hp & Hinv).
  pose proof (reachable_pointers _ _ _ _ _ _ _ _ _ Hreach) as Hptr.
  destruct Hv as (_ & (Hn1 & _) & _).
  cbv zeta. split.
  - rewrite <- Hp.
    apply (iteration_reached_iff sa a st _ Hinv Hn1); [|exact Hpr].
    intros t Ht'. apply (Hptr t Ht').
  - destruct (compute_phase_effect sa a st Hinv)
      as (o & nw & Hne & Hall & Ho & _ & Htd & _ & Hwr & _).
    cbv zeta in Ho, Htd, Hwr.
    pose proof (inv_threads _ _ _ Hinv) as Hlen.
    destruct (Pthread.thread_data st) as [|t tds] eqn:Htds;
      [cbn [length] in Hlen; lia|].
    destruct (Hptr t (list_elem_of_here _ _)) as [Ht1 Ht2].
    destruct (Hall t (list_elem_of_here _ _)) as [Ht1' Ht2'].
    rewrite Ht1 in Ht1'. rewrite Ht2 in Ht2'. subst o nw.
    destruct (Nat.even n).
    + exact Ho.
    + intros q Hq. apply (Hwr q Hq).
Qed.

(** [./average_parallel 4 0.0078125 2]. *)
Lemma pthread_printed_grid_witness :
  exists m,
    Pthread.main INT_MAX sample_rand 60 4 0.0078125%float 2
      = Pthread.ExitPrinted m
    /\ exists n sa a st,
         reachable INT_MAX sample_rand 4 0.0078125%float 2 n sa a st
         /\ (forall q,
               q ∈ assigned_cells (Pthread.size sa) (Pthread.thread_data st) ->
               exceeds 0.0078125%float
                 (Pthread.load st (if Nat.even n then Pthread.p_matrix
                                   else Pthread.p_new_matrix)) q = false)
         /\ (if Nat.even n
             then m = Pthread.load st (if Nat.even n then Pthread.p_matrix
                                       else Pthread.p_new_matrix)
             else forall q,
                    q ∈ assigned_cells (Pthread.size sa) (Pthread.thread_data st) ->
                    Pthread.rd m (fst q) (snd q)
                    = Pthread.new_value
                        (Pthread.load st (if Nat.even n then Pthread.p_matrix
                                          else Pthread.p_new_matrix))
                        (fst q) (snd q)).
Proof.
  eexists. split; [vm_compute; reflexivity|].
  apply (pthread_printed_grid INT_MAX sample_rand 60 4 0.0078125%float 2);
    [unfold INT_MAX; lia|].
  vm_compute. reflexivity.
Defined.

(** Cells without a worker never change. At every head of the
    coordinator's loop the cells of the runs are those
    [determine_thread_data] handed out, and every other cell, on the
    boundary or in the interior, holds in both buffers, before and after
    the turn, the value of the initial grid. *)
Theorem unassigned_cells_never_change (RAND_MAX : Z) (rand : nat -> Z)
    (size_arg : Z) (precision_arg : float) (threads_arg : Z) (n : nat)
    (sa : Pthread.shared_args_t) (a : Pthread.grid) (st : Pthread.state) :
  reachable RAND_MAX rand size_arg precision_arg threads_arg n sa a st ->
  exists tds,
    Pthread.determine_thread_data sa Pthread.p_matrix Pthread.p_new_matrix
      = Some tds
    /\ assigned_cells (Pthread.size sa) (Pthread.thread_data st)
       = assigned_cells (Pthread.size sa) tds
    /\ forall p q, q ∉ assigned_cells (Pthread.size sa) tds ->
         Pthread.rd (Pthread.load st p) (fst q) (snd q)
           = Pthread.rd a (fst q) (snd q)
         /\ Pthread.rd (Pthread.load (Pthread.iteration sa st) p) (fst q) (snd q)
            = Pthread.rd a (fst q) (snd q).
Proof.
  intros Hreach.
  destruct (reachable_invariant _ _ _ _ _ _ _ _ _ Hreach) as (Hv & _ & Hinv).
  destruct (reachable_initial _ _ _ _ _ _ _ _ _ Hreach)
    as (tds & st0 & Htds & Hst0 & Htd0 & Hm0 & Hn0 & Hsq & Hhead).
  assert (Hinv0 : loop_invariant sa a st0)
    by (apply initial_state_invariant; assumption).
  destruct Hv as (Hsz & (Hn1 & Hn2) & Hle).
  destruct (loop_head_unassigned sa a n st0 st ltac:(lia) Hinv0 Hhead)
    as [Hcells Hkeep].
  rewrite Htd0 in Hcells, Hkeep.
  exists tds. split; [exact Htds|]. split; [exact Hcells|].
  intros p q Hq.
  assert (Hst : Pthread.rd (Pthread.load st p) (fst q) (snd q)
                = Pthread.rd a (fst q) (snd q)).
  { rewrite (Hkeep p q Hq). destruct p; cbn [Pthread.load];
      [rewrite Hm0|rewrite Hn0]; reflexivity. }
  split; [exact Hst|].
  rewrite iteration_load, (compute_phase_unassigned sa a st p q Hinv); [exact Hst|].
  rewrite Hcells. exact Hq.
Qed.

(** The second turn of [./average_parallel 5 0.0078125 5]: the cells
    (2,3) to (3,3) have no worker. *)
Lemma unassigned_cells_never_change_witness :
  exists sa a st,
    head_of_run INT_MAX sample_rand 5 0.0078125%float 5 1 = Some (sa, a, st)
    /\ exists tds,
         Pthread.determine_thread_data sa Pthread.p_matrix Pthread.p_new_matrix
           = Some tds
         /\ assigned_cells (Pthread.size sa) (Pthread.thread_data st)
            = assigned_cells (Pthread.size sa) tds
         /\ forall p q, q ∉ assigned_cells (Pthread.size sa) tds ->
              Pthread.rd (Pthread.load st p) (fst q) (snd q)
                = Pthread.rd a (fst q) (snd q)
              /\ Pthread.rd (Pthread.load (Pthread.iteration sa st) p)
                   (fst q) (snd q)
                 = Pthread.rd a (fst q) (snd q).
Proof.
  eexists _, _, _. split; [vm_compute; reflexivity|].
  eapply (unassigned_cells_never_change INT_MAX sample_rand 5 0.0078125%float 5 1).
  apply head_of_run_reachable; [unfold INT_MAX; lia|].
  vm_compute. reflexivity.
Defined.

(** ** The MPI program: a turn does not depend on the number of processes *)

Lemma forallb_bind {A B : Type} (f : B -> bool) (g : A -> list B) (l : list A) :
  forallb f (l ≫= g) = fold_right andb true ((fun c => forallb f (g c)) <$> l).
Proof.
  induction l as [|c l IH]; [reflexivity|].
  rewrite bind_cons, forallb_app, fmap_cons, IH. reflexivity.
Qed.

Lemma mpi_rd_lookup (m : list float) (p : nat) x :
  m !! p = Some x -> Mpi.rd m (Z.of_nat p) = x.
Proof.
  intros H. unfold Mpi.rd.
  destruct (Z.leb_spec 0 (Z.of_nat p)); [|lia].
  rewrite Nat2Z.id, H. reflexivity.
Qed.

Lemma flat_sweep_length size m :
  0 <= size -> Z.of_nat (length (flat_sweep size m)) = size * size.
Proof.
  intros Hs. unfold flat_sweep. rewrite length_fmap, length_seqZ. nia.
Qed.

Lemma rd_flat_sweep size m p :
  0 <= p < size * size ->
  Mpi.rd (flat_sweep size m) p
  = if (size <=? p) && (p <? size * (size - 1))
    then cell_value size m p else Mpi.rd m p.
Proof.
  intros Hp. rewrite <- (Z2Nat.id p) at 1 by lia.
  apply mpi_rd_lookup. unfold flat_sweep.
  rewrite list_lookup_fmap.
  rewrite (proj2 (lookup_seqZ 0 (size * size) (Z.to_nat p) p)) by lia.
  reflexivity.
Qed.

Lemma mpi_iteration_flat size P precision st :
  valid_layout size P -> mpi_invariant size P st ->
  let st' := Mpi.iteration size precision (Mpi.layout size P) st in
  mpi_invariant size P st'
  /\ Mpi.matrix st' = flat_sweep size (Mpi.matrix st)
  /\ Mpi.global_precision st' = flat_within precision size (Mpi.matrix st).
Proof.
  intros Hvalid Hinv st'.
  destruct (iteration_effect size P precision Hvalid st Hinv)
    as (Hinv' & Hin & Hout & Hfl & Hglobal).
  cbv zeta in Hinv', Hin, Hout, Hfl, Hglobal.
  fold st' in Hinv', Hin, Hout, Hfl, Hglobal.
  split; [exact Hinv'|].
  pose proof Hvalid as (Hs & HP & Hint).
  destruct Hinv' as (Hlen' & _). split.
  - apply list_eq. intros i.
    destruct (Nat.lt_ge_cases i (length (Mpi.matrix st'))) as [Hi|Hi].
    + destruct (lookup_lt_is_Some_2 _ _ Hi) as [x Hx]. rewrite Hx.
      apply mpi_rd_lookup in Hx.
      unfold flat_sweep. rewrite list_lookup_fmap.
      rewrite (proj2 (lookup_seqZ 0 (size * size) i (Z.of_nat i))) by lia.
      cbn [fmap option_fmap option_map]. f_equal. rewrite <- Hx.
      destruct (Z.leb_spec size (Z.of_nat i)),
        (Z.ltb_spec (Z.of_nat i) (size * (size - 1))); cbn [andb];
        first [apply Hin; lia|apply Hout; lia].
    + rewrite (lookup_ge_None_2 _ _ Hi). symmetry. apply lookup_ge_None_2.
      pose proof (flat_sweep_length size (Mpi.matrix st) ltac:(lia)). lia.
  - rewrite Hglobal. unfold flat_within.
    rewrite <- (gathered_layout size P Hvalid). unfold gathered.
    rewrite forallb_bind. unfold Mpi.allreduce_land. f_equal.
    apply list_eq. intros r. rewrite list_lookup_fmap.
    destruct (Mpi.layout size P !! r) as [c|] eqn:Hc.
    + rewrite (Hfl r c Hc). reflexivity.
    + cbn [fmap option_fmap option_map].
      apply lookup_ge_None_2. apply lookup_ge_None_1 in Hc.
      assert (Hl : length (Mpi.local_precision st')
                   = length (Mpi.layout size P)).
      { unfold st', Mpi.iteration. cbn [Mpi.local_precision].
        rewrite length_map. apply compute_length.
        destruct Hinv as (_ & Hbufs & _). exact Hbufs. }
      lia.
Qed.

Lemma mpi_while_loop_flat size P precision (fuel : nat) : forall st,
  valid_layout size P -> mpi_invariant size P st ->
  Mpi.global_precision st = false ->
  Mpi.matrix <$> Mpi.while_loop (S fuel) size precision (Mpi.layout size P) st
  = flat_loop fuel size precision (Mpi.matrix st).
Proof.
  induction fuel as [|fuel IH]; intros st Hvalid Hinv Hg.
  - cbn [Mpi.while_loop flat_loop]. rewrite Hg. reflexivity.
  - destruct (mpi_iteration_flat size P precision st Hvalid Hinv)
      as (Hinv' & Hm & Hglobal).
    cbv zeta in Hinv', Hm, Hglobal.
    change (Mpi.while_loop (S (S fuel)) size precision (Mpi.layout size P) st)
      with (if Mpi.global_precision st then Some st
            else Mpi.while_loop (S fuel) size precision (Mpi.layout size P)
                   (Mpi.iteration size precision (Mpi.layout size P) st)).
    rewrite Hg. cbn [flat_loop]. rewrite <- Hglobal, <- Hm.
    destruct (Mpi.global_precision
                (Mpi.iteration size precision (Mpi.layout size P) st)) eqn:Hg'.
    + cbn [Mpi.while_loop]. rewrite Hg'. reflexivity.
    + apply IH; assumption.
Qed.

Lemma mpi_relax_flat size P precision (fuel : nat) m :
  valid_layout size P -> Z.of_nat (length m) = size * size ->
  Mpi.relax_matrix_parallel (S fuel) m size precision P
  = flat_loop fuel size precision m.
Proof.
  intros Hvalid Hlen.
  pose proof (mpi_while_loop_flat size P precision fuel
                (Mpi.initial_state m (Mpi.layout size P)) Hvalid
                (mpi_initial_invariant size P m Hvalid Hlen) eq_refl) as H.
  unfold Mpi.relax_matrix_parallel.
  destruct (Mpi.while_loop (S fuel) size precision (Mpi.layout size P)
              (Mpi.initial_state m (Mpi.layout size P))) as [st|];
    exact H.
Qed.

Lemma flat_loop_last size precision (fuel : nat) : forall m m',
  0 <= size -> Z.of_nat (length m) = size * size ->
  flat_loop fuel size precision m = Some m' ->
  exists prev, Z.of_nat (length prev) = size * size
    /\ flat_within precision size prev = true
    /\ m' = flat_sweep size prev
    /\ forall p, 0 <= p < size * size ->
         ~ (size <= p < size * (size - 1)
            /\ p mod size <> 0 /\ (p + 1) mod size <> 0) ->
         Mpi.rd prev p = Mpi.rd m p.
Proof.
  induction fuel as [|fuel IH]; intros m m' Hs Hlen; cbn [flat_loop];
    [intros H; discriminate H|].
  destruct (flat_within precision size m) eqn:Hw.
  - intros [= <-]. exists m. repeat split; try assumption. 
  - intros H. apply IH in H; [|exact Hs|apply flat_sweep_length; exact Hs].
    destruct H as (prev & Hl & Hwp & -> & Hkeep).
    exists prev. split; [exact Hl|]. split; [exact Hwp|].
    split; [reflexivity|].
    intros p Hp Hnot. rewrite (Hkeep p Hp Hnot).
    rewrite rd_flat_sweep by exact Hp.
    destruct (Z.leb_spec size p), (Z.ltb_spec p (size * (size - 1)));
      cbn [andb]; try reflexivity.
    unfold cell_value, on_edge.
    destruct (Z.eqb_spec (p mod size) 0); [reflexivity|].
    destruct (Z.eqb_spec ((p + 1) mod size) 0); [reflexivity|].
    exfalso. apply Hnot. repeat split; assumption.
Qed.

Lemma mpi_main_setup_Proceed size_arg precision_arg P size precision n :
  1 <= P <= INT_MAX ->
  Mpi.main_setup size_arg precision_arg P = Mpi.Proceed size precision n ->
  size = to_size_t size_arg /\ precision = precision_arg /\ n = P
  /\ 3 <= size <= 10000000 /\ P <= size - 2.
Proof.
  intros HP. unfold Mpi.main_setup, INT_MAX in *.
  set (sz := to_size_t size_arg).
  destruct (Z.ltb_spec sz 2); [intros H0; discriminate H0|].
  destruct (Z.ltb_spec 10000000 sz); [intros H1; discriminate H1|].
  cbn [orb]. destruct (_ <=? _)%float; [intros H1; discriminate H1|].
  rewrite (to_size_t_small (sz - 2)), (to_size_t_small P) by lia.
  destruct (Z.ltb_spec (sz - 2) P); [intros H2; discriminate H2|].
  intros [= <- <- <-]. repeat split; lia.
Qed.

(** The result does not depend on the number of processes. For a matrix
    of size*size cells (counts within [int]) the MPI program returns the
    same matrix, or is still running after the same number of tests of its
    loop condition, whatever the number of processes the rows are
    distributed over. *)
Theorem mpi_result_independent_of_processes (fuel : nat) (size : Z)
    (precision : float) (m : list float) (P P' : Z) :
  valid_layout size P -> valid_layout size P' ->
  Z.of_nat (length m) = size * size ->
  Mpi.relax_matrix_parallel fuel m size precision P
  = Mpi.relax_matrix_parallel fuel m size precision P'.
Proof.
  intros Hv Hv' Hlen. destruct fuel as [|fuel]; [reflexivity|].
  rewrite (mpi_relax_flat size P precision fuel m Hv Hlen).
  rewrite (mpi_relax_flat size P' precision fuel m Hv' Hlen).
  reflexivity.
Qed.

(** A 6x6 grid relaxed by one process and by three. *)
Lemma mpi_result_independent_of_processes_witness :
  Mpi.relax_matrix_parallel 40 (Mpi.matrix_init 6) 6 0.0078125%float 1
  = Mpi.relax_matrix_parallel 40 (Mpi.matrix_init 6) 6 0.0078125%float 3.
Proof.
  apply (mpi_result_independent_of_processes 40 6 0.0078125%float
           (Mpi.matrix_init 6) 1 3).
  - unfold valid_layout, INT_MAX. lia.
  - unfold valid_layout, INT_MAX. lia.
  - reflexivity.
Defined.

(** What the MPI program returns. When [relax_matrix_parallel] returns
    (counts within [int]), its result is the matrix gathered in the last
    turn of the loop: with [prev] the matrix before that turn, every cell
    of rows 1 to size-2 that is not the first or last of its row holds the
    average of its four neighbours in [prev] and differs from its value in
    [prev] by no more than the precision, and every other cell holds the
    value it had in the input. *)
Theorem mpi_result_is_last_sweep (fuel : nat) (size : Z) (precision : float)
    (m : list float) (P : Z) (m' : list float) :
  valid_layout size P ->
  Z.of_nat (length m) = size * size ->
  Mpi.relax_matrix_parallel fuel m size precision P = Some m' ->
  exists prev,
    Z.of_nat (length prev) = size * size
    /\ Z.of_nat (length m') = size * size
    /\ (forall p, size <= p < size * (size - 1) ->
          p mod size <> 0 -> (p + 1) mod size <> 0 ->
          Mpi.rd m' p = Mpi.new_value prev size p
          /\ (precision <?
                PrimFloat.abs (Mpi.new_value prev size p - Mpi.rd prev p))%float
             = false)
    /\ (forall p, 0 <= p < size * size ->
          ~ (size <= p < size * (size - 1)
             /\ p mod size <> 0 /\ (p + 1) mod size <> 0) ->
          Mpi.rd m' p = Mpi.rd m p).
Proof.
  intros Hvalid Hlen Hrun. pose proof Hvalid as (Hs & HP & Hint).
  destruct fuel as [|fuel]; [discriminate Hrun|].
  rewrite (mpi_relax_flat size P precision fuel m Hvalid Hlen) in Hrun.
  destruct (flat_loop_last size precision fuel m m' ltac:(lia) Hlen Hrun)
    as (prev & Hl & Hw & -> & Hkeep).
  exists prev. split; [exact Hl|].
  split; [apply flat_sweep_length; lia|]. split.
  - intros p Hp Hl0 Hr0.
    rewrite rd_flat_sweep by nia.
    destruct (Z.leb_spec size p); [|lia].
    destruct (Z.ltb_spec p (size * (size - 1))); [|lia]. cbn [andb].
    unfold flat_within in Hw. rewrite forallb_forall in Hw.
    assert (Hin : In p (seqZ size ((size - 2) * size)))
      by (apply list_elem_of_In, elem_of_seqZ; lia).
    specialize (Hw p Hin). unfold cell_within in Hw.
    unfold cell_value. unfold on_edge in *.
    destruct (Z.eqb_spec (p mod size) 0); [contradiction|].
    destruct (Z.eqb_spec ((p + 1) mod size) 0); [contradiction|].
    cbn [orb] in *. apply negb_true_iff in Hw. split; [reflexivity|exact Hw].
  - intros p Hp Hnot. rewrite <- (Hkeep p Hp Hnot).
    rewrite rd_flat_sweep by exact Hp.
    destruct (Z.leb_spec size p), (Z.ltb_spec p (size * (size - 1)));
      cbn [andb]; try reflexivity.
    unfold cell_value, on_edge.
    destruct (Z.eqb_spec (p mod size) 0); [reflexivity|].
    destruct (Z.eqb_spec ((p + 1) mod size) 0); [reflexivity|].
    exfalso. apply Hnot. repeat split; assumption.
Qed.

(** A 6x6 grid relaxed by two processes. *)
Lemma mpi_result_is_last_sweep_witness :
  exists m',
    Mpi.relax_matrix_parallel 40 (Mpi.matrix_init 6) 6 0.0078125%float 2
      = Some m'
    /\ exists prev,
         Z.of_nat (length prev) = 6 * 6
         /\ Z.of_nat (length m') = 6 * 6
         /\ (forall p, 6 <= p < 6 * (6 - 1) ->
               p mod 6 <> 0 -> (p + 1) mod 6 <> 0 ->
               Mpi.rd m' p = Mpi.new_value prev 6 p
               /\ (0.0078125 <?
                     PrimFloat.abs (Mpi.new_value prev 6 p - Mpi.rd prev p))%float
                  = false)
         /\ (forall p, 0 <= p < 6 * 6 ->
               ~ (6 <= p < 6 * (6 - 1)
                  /\ p mod 6 <> 0 /\ (p + 1) mod 6 <> 0) ->
               Mpi.rd m' p = Mpi.rd (Mpi.matrix_init 6) p).
Proof.
  eexists. split; [vm_compute; reflexivity|].
  apply (mpi_result_is_last_sweep 40 6 0.0078125%float (Mpi.matrix_init 6) 2).
  - unfold valid_layout, INT_MAX. lia.
  - reflexivity.
  - vm_compute. reflexivity.
Defined.

(** The four sides of the grid the MPI program prints. For a communicator
    of at least one process and a grid whose size*size cells can be counted
    in an [int], a run of [main] that prints a grid was given at most
    size-2 processes and prints size*size cells of which every cell on one
    of the four sides is 1. *)
Theorem mpi_main_sides_are_one (fuel : nat) (size_arg : Z)
    (precision_arg : float) (P : Z) (m : list float) :
  1 <= P <= INT_MAX ->
  to_size_t size_arg * to_size_t size_arg <= INT_MAX ->
  Mpi.main fuel size_arg precision_arg P = Mpi.ExitPrinted m ->
  let size := to_size_t size_arg in
  3 <= size /\ P <= size - 2
  /\ Z.of_nat (length m) = size * size
  /\ forall i j, 0 <= i < size -> 0 <= j < size ->
       i = 0 \/ i = size - 1 \/ j = 0 \/ j = size - 1 ->
       Mpi.rd m (i * size + j) = 1%float.
Proof.
  intros HP Hint. unfold Mpi.main.
  destruct (Mpi.main_setup size_arg precision_arg P)
    as [c|size precision n] eqn:Hsetup; [intros H; discriminate H|].
  destruct (mpi_main_setup_Proceed _ _ _ _ _ _ HP Hsetup)
    as (-> & -> & -> & Hs & HPs).
  set (size := to_size_t size_arg) in *.
  destruct (Mpi.relax_matrix_parallel fuel (Mpi.matrix_init size) size
              precision_arg P) as [m'|] eqn:Hrun; [|intros H; discriminate H].
  intros [= <-]. cbv zeta.
  assert (Hvalid : valid_layout size P) by (unfold valid_layout; lia).
  destruct fuel as [|fuel]; [discriminate Hrun|].
  rewrite (mpi_relax_flat size P precision_arg fuel _ Hvalid
             (mpi_matrix_init_length size ltac:(lia))) in Hrun.
  destruct (flat_loop_last size precision_arg fuel _ m' ltac:(lia)
              (mpi_matrix_init_length size ltac:(lia)) Hrun)
    as (prev & Hl & _ & -> & Hkeep).
  split; [lia|]. split; [exact HPs|].
  split; [apply flat_sweep_length; lia|].
  intros i j Hi Hj Hside.
  assert (Hp : 0 <= i * size + j < size * size) by nia.
  assert (Hmod : (i * size + j) mod size = j).
  { rewrite Z.add_comm, Z.mod_add, Z.mod_small by lia. reflexivity. }
  assert (Hmod1 : j = size - 1 -> (i * size + j + 1) mod size = 0).
  { intros ->. replace (i * size + (size - 1) + 1) with ((i + 1) * size) by lia.
    apply Z.mod_mul. lia. }
  assert (Hnot : ~ (size <= i * size + j < size * (size - 1)
                    /\ (i * size + j) mod size <> 0
                    /\ (i * size + j + 1) mod size <> 0)).
  { intros (Hrows & Hl0 & Hr0).
    destruct Hside as [-> | [-> | [-> | ->]]]; [lia|nia|lia|].
    apply Hr0. apply Hmod1. reflexivity. }
  rewrite rd_flat_sweep by exact Hp.
  transitivity (Mpi.rd prev (i * size + j)).
  - destruct (Z.leb_spec size (i * size + j)),
      (Z.ltb_spec (i * size + j) (size * (size - 1)));
      cbn [andb]; try reflexivity.
    unfold cell_value, on_edge.
    destruct (Z.eqb_spec ((i * size + j) mod size) 0); [reflexivity|].
    destruct (Z.eqb_spec ((i * size + j + 1) mod size) 0); [reflexivity|].
    exfalso. apply Hnot. repeat split; assumption.
  - rewrite (Hkeep _ Hp Hnot).
    rewrite mpi_matrix_init_cell by lia.
    destruct Hside as [-> | [-> | [-> | ->]]];
      rewrite ?Z.eqb_refl, ?orb_true_r; reflexivity.
Qed.

(** [mpirun -n 2 ./average_parallel 6 0.0078125]. *)
Lemma mpi_main_sides_are_one_witness :
  exists m,
    Mpi.main 40 6 0.0078125%float 2 = Mpi.ExitPrinted m
    /\ 3 <= to_size_t 6 /\ 2 <= to_size_t 6 - 2
    /\ Z.of_nat (length m) = to_size_t 6 * to_size_t 6
    /\ forall i j, 0 <= i < to_size_t 6 -> 0 <= j < to_size_t 6 ->
         i = 0 \/ i = to_size_t 6 - 1 \/ j = 0 \/ j = to_size_t 6 - 1 ->
         Mpi.rd m (i * to_size_t 6 + j) = 1%float.
Proof.
  eexists. split; [vm_compute; reflexivity|].
  apply (mpi_main_sides_are_one 40 6 0.0078125%float 2).
  - unfold INT_MAX. lia.
  - vm_compute. discriminate.
  - vm_compute. reflexivity.
Defined.

(** The slices of the collectives stay inside the matrix. With counts
    within [int], what rank [r] is sent lies within the size*size cells of
    the root's matrix and what it sends back lies within rows 1 to size-2;
    a rank sends nothing back exactly when its number is size-2 or more
    (more processes than interior rows), and still receives two rows. *)
Theorem mpi_layout_within_matrix (size P : Z) (r : nat) (c : Mpi.chunk) :
  valid_layout size P ->
  Mpi.layout size P !! r = Some c ->
  0 <= Mpi.scatter_displ c
  /\ 2 * size <= Mpi.scatter_count c
  /\ Mpi.scatter_displ c + Mpi.scatter_count c <= size * size
  /\ size <= Mpi.gather_displ c
  /\ 0 <= Mpi.gather_count c
  /\ Mpi.gather_displ c + Mpi.gather_count c <= size * (size - 1)
  /\ (Mpi.gather_count c = 0 <-> size - 2 <= Z.of_nat r).
Proof.
  intros Hvalid Hc. pose proof Hvalid as (Hs & HP & Hint).
  destruct (layout_lookup size P Hvalid r c Hc) as [Hr ->].
  cbn [chunk_spec Mpi.scatter_displ Mpi.scatter_count Mpi.gather_count
         Mpi.gather_displ].
  pose proof (chunk_first_bounds size P Hvalid (Z.of_nat r) ltac:(lia)) as Hf.
  pose proof (chunk_first_bounds size P Hvalid (Z.of_nat r + 1) ltac:(lia)) as Hf1.
  rewrite chunk_first_succ in Hf1 by lia.
  destruct (layout_div_mod size P Hvalid) as (Hdm & Hrem & Hq).
  pose proof (chunk_rows_bounds size P (Z.of_nat r) ltac:(lia)) as Hrows.
  set (rows := chunk_rows size P (Z.of_nat r)) in *.
  set (first := chunk_first size P (Z.of_nat r)) in *.
  assert (Hrows0 : 0 <= rows) by lia.
  repeat split; try nia.
  - intros H0. assert (Hz : rows = 0) by nia.
    subst rows. unfold chunk_rows, spec_run_length in Hz.
    destruct (Z.ltb_spec (Z.of_nat r) ((size - 2) mod P)); nia.
  - intros Hge. assert (Hz : rows = 0); [|rewrite Hz; lia].
    subst rows. unfold chunk_rows, spec_run_length.
    assert (Hq0 : (size - 2) / P = 0) by (apply Z.div_small; lia).
    rewrite Hq0 in *.
    destruct (Z.ltb_spec (Z.of_nat r) ((size - 2) mod P)); lia.
Qed.

(** Rank 4 of six processes on a 5x5 grid. *)
Lemma mpi_layout_within_matrix_witness :
  exists c,
    Mpi.layout 5 6 !! 4%nat = Some c
    /\ 0 <= Mpi.scatter_displ c
    /\ 2 * 5 <= Mpi.scatter_count c
    /\ Mpi.scatter_displ c + Mpi.scatter_count c <= 5 * 5
    /\ 5 <= Mpi.gather_displ c
    /\ 0 <= Mpi.gather_count c
    /\ Mpi.gather_displ c + Mpi.gather_count c <= 5 * (5 - 1)
    /\ (Mpi.gather_count c = 0 <-> 5 - 2 <= Z.of_nat 4).
Proof.
  eexists. split; [vm_compute; reflexivity|].
  apply (mpi_layout_within_matrix 5 6 4).
  - unfold valid_layout, INT_MAX. lia.
  - vm_compute. reflexivity.
Defined.

(** ** The MPI layout when the counts fit an [int] *)

Lemma chunk_div_mod size P :
  2 <= size -> 1 <= P ->
  size - 2 = P * ((size - 2) / P) + (size - 2) mod P
  /\ 0 <= (size - 2) mod P < P /\ 0 <= (size - 2) / P.
Proof.
  intros Hs HP. split; [apply Z.div_mod; lia|].
  split; [apply Z.mod_pos_bound; lia|apply Z.div_pos; lia].
Qed.

Lemma chunk_first_mono size P r r' :
  2 <= size -> 1 <= P -> 0 <= r <= r' ->
  chunk_first size P r <= chunk_first size P r'.
Proof.
  intros Hs HP Hr. destruct (chunk_div_mod size P Hs HP) as (_ & _ & Hq).
  unfold chunk_first. nia.
Qed.

Lemma chunk_first_range size P r :
  2 <= size -> 1 <= P -> 0 <= r <= P ->
  0 <= chunk_first size P r <= size - 2.
Proof.
  intros Hs HP Hr. destruct (chunk_div_mod size P Hs HP) as (Hdm & Hrem & Hq).
  unfold chunk_first. nia.
Qed.

Lemma chunk_rows_range size P r :
  2 <= size -> 1 <= P -> 0 <= r ->
  0 <= chunk_rows size P r <= chunk_rows size P 0.
Proof.
  intros Hs HP Hr. destruct (chunk_div_mod size P Hs HP) as (_ & Hrem & Hq).
  unfold chunk_rows, spec_run_length.
  destruct (Z.ltb_spec r ((size - 2) mod P)),
    (Z.ltb_spec 0 ((size - 2) mod P)); lia.
Qed.

(** Whatever the size, the four arrays hold values of [int]s. *)
Lemma layout_loop_int (n : nat) : forall size q rem off,
  Forall int_chunk (Mpi.layout_loop n size q rem off).
Proof.
  induction n as [|n IH]; intros size q rem off; cbn [Mpi.layout_loop];
    [constructor|].
  constructor; [|apply IH].
  unfold int_chunk.
  cbn [Mpi.scatter_displ Mpi.scatter_count Mpi.gather_count Mpi.gather_displ].
  split; [apply to_int_range|]. split; [|split; apply to_int_range].
  destruct (0 <? rem); apply to_int_range.
Qed.

Section LayoutFit.

Variables size P : Z.
Hypothesis Hfit : counts_fit size P.

Let q := (size - 2) / P.
Let rem := (size - 2) mod P.

(** The products the loop forms for rank [r] are within range. *)
Lemma fit_bounds r :
  0 <= r < P ->
  let F := chunk_first size P r in
  let R := chunk_rows size P r in
  0 <= F /\ 0 <= R /\ q <= R /\ F + R <= size - 2 /\ size < 2 ^ 30
  /\ (F + 1) * size < 2 ^ 31 /\ (R + 2) * size < 2 ^ 31
  /\ (q + 2) * size < 2 ^ 31.
Proof.
  intros Hr F R. destruct Hfit as (Hs & HP & Hcount & Hdispl).
  unfold INT_MAX in *.
  destruct (chunk_div_mod size P ltac:(lia) ltac:(lia)) as (Hdm & Hrem & Hq).
  fold q rem in Hdm, Hrem, Hq.
  pose proof (chunk_first_range size P r ltac:(lia) ltac:(lia) ltac:(lia)) as HF.
  pose proof (chunk_first_range size P (r + 1) ltac:(lia) ltac:(lia) ltac:(lia))
    as HF1.
  rewrite chunk_first_succ in HF1 by lia.
  pose proof (chunk_first_mono size P r (P - 1) ltac:(lia) ltac:(lia) ltac:(lia))
    as Hmono.
  pose proof (chunk_rows_range size P r ltac:(lia) ltac:(lia) ltac:(lia)) as HR.
  pose proof (chunk_rows_bounds size P r ltac:(lia)) as HRq. fold q in HRq.
  fold F in HF, HF1, Hmono. fold R in HF1, HR, HRq.
  assert (Hsz : size < 2 ^ 30) by nia.
  assert ((F + 1) * size <= (chunk_first size P (P - 1) + 1) * size)
    by (apply Z.mul_le_mono_nonneg_r; lia).
  assert ((R + 2) * size <= (chunk_rows size P 0 + 2) * size)
    by (apply Z.mul_le_mono_nonneg_r; lia).
  assert ((q + 2) * size <= (R + 2) * size)
    by (apply Z.mul_le_mono_nonneg_r; lia).
  repeat split; lia.
Qed.

Lemma layout_loop_fit (n : nat) : forall r,
  0 <= r -> r + Z.of_nat n <= P ->
  Mpi.layout_loop n size q (rem - Z.min r rem) (chunk_first size P r * size)
  = chunk_spec size P <$> seqZ r (Z.of_nat n).
Proof.
  destruct Hfit as (Hs & HP & _).
  destruct (chunk_div_mod size P ltac:(lia) ltac:(lia)) as (Hdm & Hrem & Hq).
  fold q rem in Hdm, Hrem, Hq.
  induction n as [|n IH]; intros r Hr Hle; cbn [Mpi.layout_loop];
    [reflexivity|].
  rewrite seqZ_cons by lia. cbn [fmap list_fmap].
  destruct (fit_bounds r ltac:(lia)) as (HF & HR & HqR & HFR & Hsz & HF1 & HR2 & Hq2).
  cbv zeta in HF, HR, HqR, HFR, HF1, HR2.
  pose proof (chunk_first_succ size P r Hr) as Hsucc.
  set (F := chunk_first size P r) in *.
  set (R := chunk_rows size P r) in *.
  assert (HReq : R = q + (if r <? rem then 1 else 0)) by reflexivity.
  assert (Hcnt0 : to_int (to_size_t ((q + 2) * size)) = (q + 2) * size)
    by (rewrite to_size_t_small, to_int_small; nia).
  assert (Hcnt : (if 0 <? rem - Z.min r rem
                  then to_int (to_size_t
                         (to_size_t (to_int (to_size_t ((q + 2) * size))) + size))
                  else to_int (to_size_t ((q + 2) * size)))
                 = (R + 2) * size).
  { rewrite Hcnt0.
    destruct (Z.ltb_spec 0 (rem - Z.min r rem)), (Z.ltb_spec r rem); try lia.
    rewrite (to_size_t_small ((q + 2) * size)) by nia.
    rewrite to_size_t_small, to_int_small; nia. }
  rewrite Hcnt.
  rewrite (to_int_small (F * size)) by nia.
  rewrite (to_size_t_small ((R + 2) * size)) by nia.
  rewrite (to_size_t_small (2 * size)) by nia.
  replace ((R + 2) * size - 2 * size) with (R * size) by lia.
  rewrite (to_size_t_small (R * size)) by nia.
  rewrite (to_int_small (R * size)) by nia.
  rewrite (to_size_t_small (F * size)) by nia.
  replace (F * size + size) with ((F + 1) * size) by lia.
  rewrite (to_size_t_small ((F + 1) * size)) by nia.
  rewrite (to_int_small ((F + 1) * size)) by nia.
  f_equal.
  replace (Z.succ r) with (r + 1) by lia.
  replace (Z.pred (Z.of_nat (S n))) with (Z.of_nat n) by lia.
  rewrite <- IH by lia. f_equal.
  - destruct (Z.ltb_spec 0 (rem - Z.min r rem)); lia.
  - replace (F * size + R * size) with ((F + R) * size) by lia.
    rewrite to_size_t_small by nia. rewrite Hsucc. reflexivity.
Qed.

Lemma layout_fit : Mpi.layout size P = chunk_spec size P <$> seqZ 0 P.
Proof.
  destruct Hfit as (Hs & HP & Hcount & _). unfold INT_MAX in *.
  pose proof (chunk_rows_range size P 0 ltac:(lia) ltac:(lia) ltac:(lia)) as HR.
  assert (Hsz : size < 2 ^ 30) by nia.
  destruct (chunk_div_mod size P ltac:(lia) ltac:(lia)) as (Hdm & Hrem & Hq).
  fold q rem in Hdm, Hrem, Hq.
  unfold Mpi.layout.
  rewrite (to_size_t_small (size - 2)), (to_size_t_small P) by lia.
  fold q rem.
  pose proof (layout_loop_fit (Z.to_nat P) 0 ltac:(lia) ltac:(lia)) as H.
  assert (H0 : chunk_first size P 0 = 0) by (unfold chunk_first; fold rem; lia).
  rewrite H0, Z.min_l, Z.sub_0_r, Z2Nat.id in H by lia.
  exact H.
Qed.

Lemma layout_fit_lookup (r : nat) c :
  Mpi.layout size P !! r = Some c ->
  Z.of_nat r < P /\ c = chunk_spec size P (Z.of_nat r).
Proof.
  rewrite layout_fit, list_lookup_fmap.
  destruct (seqZ 0 P !! r) as [z|] eqn:Hz; [|intros H; discriminate H].
  apply lookup_seqZ in Hz. destruct Hz as [-> Hlt].
  intros [= <-]. split; [exact Hlt|reflexivity].
Qed.

End LayoutFit.

(** When the arrays hold the intended values, those values fit. *)
Lemma layout_spec_fits size P :
  3 <= size -> 1 <= P <= INT_MAX ->
  Mpi.layout size P = chunk_spec size P <$> seqZ 0 P ->
  counts_fit size P.
Proof.
  intros Hs HP Heq.
  assert (Hall : Forall int_chunk (chunk_spec size P <$> seqZ 0 P)).
  { rewrite <- Heq. unfold Mpi.layout. apply layout_loop_int. }
  rewrite Forall_forall in Hall.
  assert (H0 : int_chunk (chunk_spec size P 0)).
  { apply Hall. apply list_elem_of_fmap. exists 0. split; [reflexivity|].
    apply elem_of_seqZ. lia. }
  assert (Hl : int_chunk (chunk_spec size P (P - 1))).
  { apply Hall. apply list_elem_of_fmap. exists (P - 1). split; [reflexivity|].
    apply elem_of_seqZ. lia. }
  destruct H0 as (_ & Hc & _). destruct Hl as (_ & _ & _ & Hd).
  cbn [chunk_spec Mpi.scatter_count Mpi.gather_displ] in Hc, Hd.
  unfold counts_fit, INT_MAX in *. repeat split; lia.
Qed.

Lemma gathered_spec size P (n : nat) :
  3 <= size -> 1 <= P ->
  forall r, 0 <= r -> r + Z.of_nat n <= P ->
  gathered (chunk_spec size P <$> seqZ r (Z.of_nat n))
  = seqZ ((chunk_first size P r + 1) * size)
         ((chunk_first size P (r + Z.of_nat n) - chunk_first size P r) * size).
Proof.
  intros Hs HP. unfold gathered.
  induction n as [|n IH]; intros r Hr Hle.
  - rewrite Z.add_0_r, Z.sub_diag. reflexivity.
  - rewrite seqZ_cons by lia. rewrite fmap_cons, bind_cons.
    replace (Z.succ r) with (r + 1) by lia.
    replace (Z.pred (Z.of_nat (S n))) with (Z.of_nat n) by lia.
    rewrite IH by lia. cbn [chunk_spec Mpi.gather_displ Mpi.gather_count].
    pose proof (chunk_first_succ size P r Hr) as Hsucc.
    pose proof (chunk_rows_range size P r ltac:(lia) HP Hr) as HR.
    pose proof (chunk_first_mono size P (r + 1) (r + 1 + Z.of_nat n)
                  ltac:(lia) HP ltac:(lia)) as Hmono.
    replace (r + Z.of_nat (S n)) with (r + 1 + Z.of_nat n) by lia.
    rewrite Hsucc in *.
    replace ((chunk_first size P (r + 1 + Z.of_nat n) - chunk_first size P r)
             * size)
      with (chunk_rows size P r * size
            + (chunk_first size P (r + 1 + Z.of_nat n)
               - (chunk_first size P r + chunk_rows size P r)) * size) by lia.
    rewrite seqZ_app by nia. f_equal. f_equal. lia.
Qed.

Lemma gathered_fit size P :
  counts_fit size P ->
  gathered (Mpi.layout size P) = seqZ size ((size - 2) * size).
Proof.
  intros Hfit. pose proof Hfit as (Hs & HP & _).
  rewrite (layout_fit size P Hfit).
  pose proof (gathered_spec size P (Z.to_nat P) Hs ltac:(lia) 0
                ltac:(lia) ltac:(lia)) as Hg.
  rewrite Z2Nat.id in Hg by lia. rewrite Hg.
  destruct (chunk_div_mod size P ltac:(lia) ltac:(lia)) as (Hdm & Hrem & Hq).
  replace (0 + P) with P by lia.
  assert (H0 : chunk_first size P 0 = 0) by (unfold chunk_first; lia).
  assert (HPl : chunk_first size P P = size - 2) by (unfold chunk_first; lia).
  rewrite H0, HPl. f_equal; lia.
Qed.

Section DataMovement.

Variables size P : Z.
Hypothesis Hfit : counts_fit size P.

(** The slice a rank receives: its working rows with the row above and
    the row below. *)
Lemma scatterv_fit (m : list float) (r : nat) c :
  Z.of_nat (length m) = size * size ->
  Mpi.layout size P !! r = Some c ->
  Z.of_nat (length (Mpi.scatterv m c))
  = (chunk_rows size P (Z.of_nat r) + 2) * size
  /\ forall j, 0 <= j < (chunk_rows size P (Z.of_nat r) + 2) * size ->
       Mpi.rd (Mpi.scatterv m c) j
       = Mpi.rd m (chunk_first size P (Z.of_nat r) * size + j).
Proof.
  intros Hlen Hc. destruct (layout_fit_lookup size P Hfit r c Hc) as [Hr ->].
  destruct (fit_bounds size P Hfit (Z.of_nat r) ltac:(lia))
    as (HF & HR & _ & HFR & _).
  cbv zeta in HF, HR, HFR. split.
  - unfold Mpi.scatterv.
    cbn [chunk_spec Mpi.scatter_count Mpi.scatter_displ].
    rewrite length_take, length_drop. nia.
  - intros j Hj. rewrite rd_scatterv; cbn [chunk_spec Mpi.scatter_count
                                              Mpi.scatter_displ];
      [reflexivity|nia|exact Hj].
Qed.

(** What the gather does to the root's matrix. *)
Lemma gatherv_fit (m : list float) (bufs : list (list float)) :
  Z.of_nat (length m) = size * size ->
  (forall (r : nat) c b, Mpi.layout size P !! r = Some c -> bufs !! r = Some b ->
     Mpi.gather_count c <= Z.of_nat (length b)) ->
  let m' := Mpi.gatherv m (Mpi.layout size P) bufs in
  length m' = length m
  /\ (forall (r : nat) c b j,
        Mpi.layout size P !! r = Some c -> bufs !! r = Some b ->
        0 <= j < chunk_rows size P (Z.of_nat r) * size ->
        Mpi.rd m' ((chunk_first size P (Z.of_nat r) + 1) * size + j) = Mpi.rd b j)
  /\ (forall p, ~ (size <= p < size * (size - 1)) -> Mpi.rd m' p = Mpi.rd m p).
Proof.
  intros Hlen Hbufs m'. pose proof Hfit as (Hs & HP & _).
  split; [apply gatherv_length|]. split.
  - intros r c b j Hc Hb Hj.
    destruct (layout_fit_lookup size P Hfit r c Hc) as [Hr Heq].
    destruct (fit_bounds size P Hfit (Z.of_nat r) ltac:(lia))
      as (HF & HR & _ & HFR & _).
    cbv zeta in HF, HR, HFR.
    pose proof (gatherv_inside (Mpi.layout size P) m bufs r c b j Hc Hb) as Hin.
    rewrite Heq in Hin.
    cbn [chunk_spec Mpi.gather_displ Mpi.gather_count] in Hin.
    apply Hin.
    + intros k' c' Hc' Hlt.
      destruct (layout_fit_lookup size P Hfit k' c' Hc') as [Hk' ->].
      cbn [chunk_spec Mpi.gather_displ].
      pose proof (chunk_first_succ size P (Z.of_nat r) ltac:(lia)) as Hsucc.
      pose proof (chunk_first_mono size P (Z.of_nat r + 1) (Z.of_nat k')
                    ltac:(lia) ltac:(lia) ltac:(lia)).
      nia.
    + nia.
    + nia.
    + specialize (Hbufs r c b Hc Hb). rewrite Heq in Hbufs.
      exact Hbufs.
    + exact Hj.
  - intros p Hp. apply gatherv_outside. intros c Hc.
    apply list_elem_of_lookup in Hc. destruct Hc as (r & Hc).
    destruct (layout_fit_lookup size P Hfit r c Hc) as [Hr ->].
    destruct (fit_bounds size P Hfit (Z.of_nat r) ltac:(lia))
      as (HF & HR & _ & HFR & _).
    cbv zeta in HF, HR, HFR.
    cbn [chunk_spec Mpi.gather_displ Mpi.gather_count]. nia.
Qed.

(** One turn: the working rows every rank computes from its slice reach
    their place in the root's matrix. *)
Lemma iteration_fit (precision : float) (st : Mpi.state) :
  mpi_invariant size P st ->
  let st' := Mpi.iteration size precision (Mpi.layout size P) st in
  length (Mpi.matrix st') = length (Mpi.matrix st)
  /\ (forall (r : nat) c j,
        Mpi.layout size P !! r = Some c ->
        0 <= j < chunk_rows size P (Z.of_nat r) * size ->
        Mpi.rd (Mpi.matrix st') ((chunk_first size P (Z.of_nat r) + 1) * size + j)
        = cell_value size (Mpi.scatterv (Mpi.matrix st) c) (size + j))
  /\ (forall p, ~ (size <= p < size * (size - 1)) ->
        Mpi.rd (Mpi.matrix st') p = Mpi.rd (Mpi.matrix st) p).
Proof.
  intros (Hlen & Hbufs & Hbuf) st'. pose proof Hfit as (Hs & HP & _).
  set (cs := Mpi.layout size P) in *.
  set (out := Mpi.compute size precision (Mpi.matrix st) cs (Mpi.recv_buffer st)).
  assert (Hout : forall (r : nat) c, cs !! r = Some c ->
            exists b, Mpi.recv_buffer st !! r = Some b
            /\ (map fst out) !! r
               = Some (fst (Mpi.relax_cells (Mpi.scatterv (Mpi.matrix st) c) b
                              size ((chunk_rows size P (Z.of_nat r) + 2) * size)
                              precision))
            /\ Z.of_nat (length b) = chunk_rows size P (Z.of_nat r) * size).
  { intros r c Hc.
    destruct (lookup_lt_is_Some_2 (Mpi.recv_buffer st) r) as [b Hb].
    { rewrite Hbufs. apply lookup_lt_is_Some. eauto. }
    exists b. split; [exact Hb|].
    pose proof (Hbuf r c b Hc Hb) as Hbl.
    destruct (layout_fit_lookup size P Hfit r c Hc) as [Hr Heq].
    destruct (fit_bounds size P Hfit (Z.of_nat r) ltac:(lia))
      as (HF & HR & _ & HFR & _ & _ & HR2 & _).
    cbv zeta in HF, HR, HFR, HR2.
    split.
    - change (map fst out) with (fst <$> out). rewrite list_lookup_fmap.
      unfold out. rewrite (compute_lookup _ _ _ _ _ r c b Hc Hb).
      cbn [fmap option_fmap option_map]. do 2 f_equal.
      rewrite Heq. cbn [chunk_spec Mpi.scatter_count].
      rewrite to_size_t_small by nia. reflexivity.
    - rewrite Hbl, Heq. reflexivity. }
  assert (Hm : Mpi.matrix st' = Mpi.gatherv (Mpi.matrix st) cs (map fst out))
    by reflexivity.
  destruct (gatherv_fit (Mpi.matrix st) (map fst out) Hlen) as (Hl' & Hin & Hkeep).
  { intros r c b Hc Hb. destruct (Hout r c Hc) as (b0 & Hb0 & Hlk & Hbl).
    fold cs in Hc. rewrite Hlk in Hb. injection Hb as <-.
    destruct (layout_fit_lookup size P Hfit r c Hc) as [Hr Heq].
    destruct (fit_bounds size P Hfit (Z.of_nat r) ltac:(lia))
      as (_ & HR & _ & _ & _ & _ & HR2 & _).
    cbv zeta in HR, HR2.
    destruct (relax_cells_spec size precision (Mpi.scatterv (Mpi.matrix st) c)
                b0 (chunk_rows size P (Z.of_nat r)) Hs HR
                ltac:(unfold INT_MAX; lia)) as (Hlo & _).
    cbv zeta in Hlo. rewrite Hlo, Heq.
    cbn [chunk_spec Mpi.gather_count]. lia. }
  cbv zeta in Hl', Hin, Hkeep. fold cs in Hl', Hin, Hkeep.
  rewrite Hm. split; [exact Hl'|]. split; [|exact Hkeep].
  intros r c j Hc Hj.
  destruct (Hout r c Hc) as (b & Hb & Hlk & Hbl).
  rewrite (Hin r c _ j Hc Hlk Hj).
  destruct (layout_fit_lookup size P Hfit r c Hc) as [Hr Heq].
  destruct (fit_bounds size P Hfit (Z.of_nat r) ltac:(lia))
    as (_ & HR & _ & _ & _ & _ & HR2 & _).
  cbv zeta in HR, HR2.
  destruct (relax_cells_spec size precision (Mpi.scatterv (Mpi.matrix st) c)
              b (chunk_rows size P (Z.of_nat r)) Hs HR
              ltac:(unfold INT_MAX; lia)) as (_ & Hval & _).
  cbv zeta in Hval. apply Hval; lia.
Qed.

End DataMovement.

Lemma cell_value_scatterv_fit size P (m : list float) (r : nat) c j :
  counts_fit size P ->
  Z.of_nat (length m) = size * size ->
  Mpi.layout size P !! r = Some c ->
  0 <= j < chunk_rows size P (Z.of_nat r) * size ->
  cell_value size (Mpi.scatterv m c) (size + j)
  = cell_value size m ((chunk_first size P (Z.of_nat r) + 1) * size + j).
Proof.
  intros Hfit Hlen Hc Hj. pose proof Hfit as (Hs & _).
  destruct (scatterv_fit size P Hfit m r c Hlen Hc) as [_ Hrd].
  destruct (fit_bounds size P Hfit (Z.of_nat r)) as (HF & HR & _);
    [destruct (layout_fit_lookup size P Hfit r c Hc); lia|].
  cbv zeta in HF, HR.
  set (F := chunk_first size P (Z.of_nat r)) in *.
  set (R := chunk_rows size P (Z.of_nat r)) in *.
  unfold cell_value.
  replace (size + j) with (1 * size + j) at 1 by lia.
  rewrite !on_edge_shift by lia.
  unfold Mpi.new_value.
  rewrite !Hrd by nia.
  replace (F * size + (size + j)) with ((F + 1) * size + j) by lia.
  replace (F * size + (size + j - size)) with ((F + 1) * size + j - size) by lia.
  replace (F * size + (size + j + size)) with ((F + 1) * size + j + size) by lia.
  replace (F * size + (size + j - 1)) with ((F + 1) * size + j - 1) by lia.
  replace (F * size + (size + j + 1)) with ((F + 1) * size + j + 1) by lia.
  reflexivity.
Qed.

(** ** C8: scatter and gather in the MPI program *)

(** C8, as stated, at a size [main] accepts:
    [mpirun -n 1 ./average_parallel 46341 0.5]. The single rank should be
    sent 46339 working rows and two halo rows, 46341 * 46341 = 2147488281
    cells; the [int] [scatter_count[0]] holds -2147479015. *)
Lemma scatter_count_wraps_46341 :
  Mpi.main_setup 46341 0.5%float 1 = Mpi.Proceed 46341 0.5%float 1
  /\ Mpi.layout 46341 1
     = [{| Mpi.scatter_displ := 0; Mpi.scatter_count := -2147479015;
           Mpi.gather_count := 2147395599; Mpi.gather_displ := 46341 |}]
  /\ (spec_run_length (46341 - 2) 1 0 + 2) * 46341 = 2147488281
  /\ Mpi.layout 46341 1 <> chunk_spec 46341 1 <$> seqZ 0 1.
Proof.
  split; [vm_compute; reflexivity|]. split; [vm_compute; reflexivity|].
  split; [vm_compute; reflexivity|]. vm_compute. intros H. discriminate H.
Qed.

(** C8 (amended with the range of the [int] arrays). The four arrays hold
    the intended counts and displacements exactly when these fit an [int]
    ([counts_fit]). In that range: rank [r] has
    [(size-2)/P + (1 if r < (size-2) mod P)] working rows that start after
    those of the lower ranks, and the positions the gather writes, rank
    after rank, are the cells of rows 1 to size-2, each once; the scatter
    hands rank [r] the cells of its working rows together with the row
    above and the row below, and nothing else; the gather stores the first
    [gather_count] cells of every rank's buffer at its displacement and
    leaves row 0 and row size-1 alone; and after a turn of the loop every
    cell of rows 1 to size-2 of the root's matrix holds what its rank
    computed at the same place of its slice (the halo rows are not sent
    back), which is what the stencil gives on the matrix of before the
    turn. *)
Theorem scatter_gather_layout :
  (forall size P, 3 <= size -> 1 <= P <= INT_MAX ->
     Mpi.layout size P = chunk_spec size P <$> seqZ 0 P <-> counts_fit size P)
  /\ (forall size P, counts_fit size P ->
        (forall (r : nat) c, Mpi.layout size P !! r = Some c ->
           Z.of_nat r < P
           /\ Mpi.gather_count c
              = spec_run_length (size - 2) P (Z.of_nat r) * size
           /\ Mpi.gather_displ c = (chunk_first size P (Z.of_nat r) + 1) * size
           /\ Mpi.scatter_displ c = Mpi.gather_displ c - size
           /\ Mpi.scatter_count c = Mpi.gather_count c + 2 * size)
        /\ Z.of_nat (length (Mpi.layout size P)) = P
        /\ gathered (Mpi.layout size P) = seqZ size ((size - 2) * size)
        /\ NoDup (gathered (Mpi.layout size P)))
  /\ (forall size P (m : list float) (r : nat) c,
        counts_fit size P -> Z.of_nat (length m) = size * size ->
        Mpi.layout size P !! r = Some c ->
        Z.of_nat (length (Mpi.scatterv m c)) = Mpi.scatter_count c
        /\ forall j, 0 <= j < Mpi.scatter_count c ->
             Mpi.rd (Mpi.scatterv m c) j
             = Mpi.rd m (Mpi.gather_displ c - size + j))
  /\ (forall size P (m : list float) (bufs : list (list float)),
        counts_fit size P -> Z.of_nat (length m) = size * size ->
        (forall (r : nat) c b,
           Mpi.layout size P !! r = Some c -> bufs !! r = Some b ->
           Mpi.gather_count c <= Z.of_nat (length b)) ->
        let m' := Mpi.gatherv m (Mpi.layout size P) bufs in
        length m' = length m
        /\ (forall (r : nat) c b j,
              Mpi.layout size P !! r = Some c -> bufs !! r = Some b ->
              0 <= j < Mpi.gather_count c ->
              Mpi.rd m' (Mpi.gather_displ c + j) = Mpi.rd b j)
        /\ (forall p, ~ (size <= p < size * (size - 1)) ->
              Mpi.rd m' p = Mpi.rd m p))
  /\ (forall size P precision st,
        counts_fit size P -> mpi_invariant size P st ->
        let st' := Mpi.iteration size precision (Mpi.layout size P) st in
        length (Mpi.matrix st') = length (Mpi.matrix st)
        /\ (forall (r : nat) c j,
              Mpi.layout size P !! r = Some c ->
              0 <= j < Mpi.gather_count c ->
              Mpi.rd (Mpi.matrix st') (Mpi.gather_displ c + j)
              = cell_value size (Mpi.scatterv (Mpi.matrix st) c) (size + j)
              /\ Mpi.rd (Mpi.matrix st') (Mpi.gather_displ c + j)
                 = cell_value size (Mpi.matrix st) (Mpi.gather_displ c + j))
        /\ (forall p, ~ (size <= p < size * (size - 1)) ->
              Mpi.rd (Mpi.matrix st') p = Mpi.rd (Mpi.matrix st) p)).
Proof.
  split; [|split; [|split; [|split]]].
  - intros size P Hs HP. split.
    + apply layout_spec_fits; assumption.
    + apply layout_fit.
  - intros size P Hfit. pose proof Hfit as (Hs & HP & _).
    split; [|split; [|split]].
    + intros r c Hc. destruct (layout_fit_lookup size P Hfit r c Hc) as [Hr ->].
      cbn [chunk_spec Mpi.gather_count Mpi.gather_displ Mpi.scatter_displ
             Mpi.scatter_count]. unfold chunk_rows.
      repeat split; lia.
    + rewrite (layout_fit size P Hfit), length_fmap, length_seqZ. lia.
    + apply gathered_fit. exact Hfit.
    + rewrite gathered_fit by exact Hfit. apply NoDup_seqZ.
  - intros size P m r c Hfit Hlen Hc.
    destruct (scatterv_fit size P Hfit m r c Hlen Hc) as [Hl Hrd].
    destruct (layout_fit_lookup size P Hfit r c Hc) as [Hr Heq].
    rewrite Heq in *.
    cbn [chunk_spec Mpi.scatter_count Mpi.gather_displ].
    split; [exact Hl|].
    intros j Hj. rewrite (Hrd j Hj). f_equal. lia.
  - intros size P m bufs Hfit Hlen Hbufs m'.
    destruct (gatherv_fit size P Hfit m bufs Hlen Hbufs) as (Hl & Hin & Hkeep).
    cbv zeta in Hl, Hin, Hkeep. fold m' in Hl, Hin, Hkeep.
    split; [exact Hl|]. split; [|exact Hkeep].
    intros r c b j Hc Hb Hj.
    destruct (layout_fit_lookup size P Hfit r c Hc) as [Hr Heq].
    rewrite Heq in Hj |- *.
    cbn [chunk_spec Mpi.gather_count Mpi.gather_displ] in Hj |- *.
    apply (Hin r c b j Hc Hb Hj).
  - intros size P precision st Hfit Hinv st'.
    destruct (iteration_fit size P Hfit precision st Hinv) as (Hl & Hin & Hkeep).
    cbv zeta in Hl, Hin, Hkeep. fold st' in Hl, Hin, Hkeep.
    split; [exact Hl|]. split; [|exact Hkeep].
    intros r c j Hc Hj.
    destruct (layout_fit_lookup size P Hfit r c Hc) as [Hr Heq].
    pose proof Hj as Hj'. rewrite Heq in Hj'.
    cbn [chunk_spec Mpi.gather_count] in Hj'.
    pose proof (Hin r c j Hc Hj') as Hv.
    replace (Mpi.gather_displ c)
      with ((chunk_first size P (Z.of_nat r) + 1) * size)
      by (rewrite Heq; reflexivity).
    split; [exact Hv|]. rewrite Hv.
    destruct Hinv as (Hlen & _).
    apply (cell_value_scatterv_fit size P _ r c j Hfit Hlen Hc Hj').
Qed.

(** C8 on a 50000 x 50000 grid with two processes (the counts fit, the
    number of cells does not) and on a turn of a 7x7 grid with two
    processes: cell 1 of the second working row of rank 1. *)
Lemma scatter_gather_layout_witness :
  (counts_fit 50000 2
   /\ Mpi.layout 50000 2 = chunk_spec 50000 2 <$> seqZ 0 2
   /\ gathered (Mpi.layout 50000 2) = seqZ 50000 ((50000 - 2) * 50000))
  /\ (exists c,
        Mpi.layout 7 2 !! 1%nat = Some c
        /\ Mpi.gather_count c = spec_run_length (7 - 2) 2 1 * 7
        /\ Mpi.gather_displ c = (chunk_first 7 2 1 + 1) * 7
        /\ Z.of_nat (length (Mpi.scatterv (Mpi.matrix_init 7) c))
           = Mpi.scatter_count c
        /\ let st := Mpi.initial_state (Mpi.matrix_init 7) (Mpi.layout 7 2) in
           let st' := Mpi.iteration 7 0.0078125%float (Mpi.layout 7 2) st in
           Mpi.rd (Mpi.matrix st') (Mpi.gather_displ c + 8)
           = cell_value 7 (Mpi.scatterv (Mpi.matrix st) c) (7 + 8)
           /\ Mpi.rd (Mpi.matrix st') (Mpi.gather_displ c + 8)
              = cell_value 7 (Mpi.matrix st) (Mpi.gather_displ c + 8)).
Proof.
  destruct scatter_gather_layout as (Hiff & Hpart & Hscatter & _ & Hturn).
  assert (Hfit : counts_fit 50000 2)
    by (unfold counts_fit, INT_MAX; repeat split; vm_compute; discriminate).
  assert (Hfit7 : counts_fit 7 2)
    by (unfold counts_fit, INT_MAX; repeat split; vm_compute; discriminate).
  split.
  - split; [exact Hfit|]. split.
    + apply (Hiff 50000 2); [lia|unfold INT_MAX; lia|exact Hfit].
    + apply (Hpart 50000 2 Hfit).
  - eexists. split; [vm_compute; reflexivity|].
    destruct (Hpart 7 2 Hfit7) as (Hrank & _).
    destruct (Hrank 1%nat _ eq_refl) as (_ & Hgc & Hgd & _).
    split; [exact Hgc|]. split; [exact Hgd|]. split.
    + apply (Hscatter 7 2 (Mpi.matrix_init 7) 1%nat _ Hfit7 eq_refl eq_refl).
    + destruct (Hturn 7 2 0.0078125%float
                  (Mpi.initial_state (Mpi.matrix_init 7) (Mpi.layout 7 2)) Hfit7)
        as (_ & Hcells & _).
      * apply mpi_initial_invariant; [unfold valid_layout, INT_MAX; lia
                                     |reflexivity].
      * apply (Hcells 1%nat _ 8 eq_refl). vm_compute.
        split; [discriminate|reflexivity].
Defined.

(** ** From one turn to the next *)

Lemma loop_head_snoc sa (n : nat) : forall st0 st,
  Pthread.loop_head n sa st0 = Some st ->
  Pthread.PRECISION_REACHED (Pthread.iteration sa st) = false ->
  Pthread.loop_head (S n) sa st0
  = Some (Pthread.continue_phase sa (Pthread.iteration sa st)).
Proof.
  induction n as [|n IH]; intros st0 st.
  - intros [= <-] Hpr. cbn [Pthread.loop_head]. rewrite Hpr. reflexivity.
  - intros Hhead Hpr.
    change (Pthread.loop_head (S (S n)) sa st0)
      with (if Pthread.PRECISION_REACHED (Pthread.iteration sa st0) then None
            else Pthread.loop_head (S n) sa
                   (Pthread.continue_phase sa (Pthread.iteration sa st0))).
    cbn [Pthread.loop_head] in Hhead.
    destruct (Pthread.PRECISION_REACHED (Pthread.iteration sa st0));
      [discriminate Hhead|].
    apply IH; assumption.
Qed.

Lemma reachable_next RAND_MAX rand size_arg precision_arg threads_arg
    n sa a st :
  reachable RAND_MAX rand size_arg precision_arg threads_arg n sa a st ->
  Pthread.PRECISION_REACHED (Pthread.iteration sa st) = false ->
  reachable RAND_MAX rand size_arg precision_arg threads_arg (S n) sa a
    (Pthread.continue_phase sa (Pthread.iteration sa st)).
Proof.
  intros (sa0 & sa1 & new_m & st0 & H1 & H2 & H3 & H4 & H5 & Hhead) Hpr.
  exists sa0, sa1, new_m, st0.
  repeat (split; [assumption|]). apply loop_head_snoc; assumption.
Qed.

Lemma continue_phase_load sa st p :
  Pthread.load (Pthread.continue_phase sa st) p = Pthread.load st p.
Proof. destruct p; reflexivity. Qed.

Lemma after_iterations_S size precision cs (n : nat) : forall st,
  Mpi.after_iterations (S n) size precision cs st
  = Mpi.iteration size precision cs (Mpi.after_iterations n size precision cs st).
Proof.
  induction n as [|n IH]; intros st; [reflexivity|].
  change (Mpi.after_iterations (S (S n)) size precision cs st)
    with (Mpi.after_iterations (S n) size precision cs
            (Mpi.iteration size precision cs st)).
  rewrite IH. reflexivity.
Qed.

Section MpiTurnFit.

Variables size P : Z.
Variable precision : float.
Hypothesis Hfit : counts_fit size P.

Lemma mpi_initial_invariant_fit (m : list float) :
  Z.of_nat (length m) = size * size ->
  mpi_invariant size P (Mpi.initial_state m (Mpi.layout size P)).
Proof.
  intros Hlen. unfold mpi_invariant, Mpi.initial_state.
  cbn [Mpi.matrix Mpi.recv_buffer].
  split; [exact Hlen|]. split; [apply length_map|].
  intros r c b Hc Hb.
  change (map ?f ?l) with (f <$> l) in Hb.
  rewrite list_lookup_fmap, Hc in Hb. injection Hb as <-.
  rewrite length_replicate.
  destruct (layout_fit_lookup size P Hfit r c Hc) as [Hr ->].
  destruct (fit_bounds size P Hfit (Z.of_nat r) ltac:(lia)) as (_ & HR & _).
  cbv zeta in HR. pose proof Hfit as (Hs & _).
  cbn [chunk_spec Mpi.gather_count]. nia.
Qed.

Lemma mpi_iteration_invariant_fit (st : Mpi.state) :
  mpi_invariant size P st ->
  mpi_invariant size P (Mpi.iteration size precision (Mpi.layout size P) st).
Proof.
  intros Hinv.
  destruct (iteration_fit size P Hfit precision st Hinv) as (Hl & _).
  cbv zeta in Hl. destruct Hinv as (Hlen & Hbufs & Hbuf).
  pose proof Hfit as (Hs & _).
  split; [lia|]. unfold Mpi.iteration. cbn [Mpi.recv_buffer].
  split; [rewrite length_map; apply compute_length; exact Hbufs|].
  intros r c b' Hc Hb'.
  destruct (lookup_lt_is_Some_2 (Mpi.recv_buffer st) r) as [b Hb].
  { rewrite Hbufs. apply lookup_lt_is_Some. eauto. }
  change (map fst ?l) with (fst <$> l) in Hb'.
  rewrite list_lookup_fmap, (compute_lookup _ _ _ _ _ r c b Hc Hb) in Hb'.
  injection Hb' as <-.
  destruct (layout_fit_lookup size P Hfit r c Hc) as [Hr Heq].
  destruct (fit_bounds size P Hfit (Z.of_nat r) ltac:(lia))
    as (_ & HR & _ & _ & _ & _ & HR2 & _).
  cbv zeta in HR, HR2.
  destruct (relax_cells_spec size precision (Mpi.scatterv (Mpi.matrix st) c)
              b (chunk_rows size P (Z.of_nat r)) Hs HR
              ltac:(unfold INT_MAX; lia)) as (Hlo & _).
  cbv zeta in Hlo. rewrite <- (Hbuf r c b Hc Hb), <- Hlo.
  rewrite Heq at 2. cbn [chunk_spec Mpi.scatter_count].
  rewrite to_size_t_small by nia. reflexivity.
Qed.

Lemma mpi_after_iterations_invariant_fit (n : nat) : forall st,
  mpi_invariant size P st ->
  mpi_invariant size P
    (Mpi.after_iterations n size precision (Mpi.layout size P) st).
Proof.
  induction n as [|n IH]; intros st Hinv; cbn [Mpi.after_iterations];
    [exact Hinv|].
  apply IH. apply mpi_iteration_invariant_fit. exact Hinv.
Qed.

(** A turn, cell by cell of the root's matrix. *)
Lemma mpi_turn_fit (st : Mpi.state) p :
  mpi_invariant size P st ->
  size <= p < size * (size - 1) ->
  Mpi.rd (Mpi.matrix (Mpi.iteration size precision (Mpi.layout size P) st)) p
  = cell_value size (Mpi.matrix st) p.
Proof.
  intros Hinv Hp. pose proof Hfit as (Hs & _).
  assert (Hin : p ∈ gathered (Mpi.layout size P)).
  { rewrite (gathered_fit size P Hfit). apply elem_of_seqZ. nia. }
  unfold gathered in Hin. apply list_elem_of_bind in Hin.
  destruct Hin as (c & Hpc & Hc). apply elem_of_seqZ in Hpc.
  apply list_elem_of_lookup in Hc. destruct Hc as (r & Hc).
  destruct (iteration_fit size P Hfit precision st Hinv) as (_ & Hcells & _).
  cbv zeta in Hcells.
  destruct (layout_fit_lookup size P Hfit r c Hc) as [Hr Heq].
  rewrite Heq in Hpc. cbn [chunk_spec Mpi.gather_displ Mpi.gather_count] in Hpc.
  set (F := chunk_first size P (Z.of_nat r)) in *.
  replace p with ((F + 1) * size + (p - (F + 1) * size)) by lia.
  rewrite (Hcells r c _ Hc) by lia.
  destruct Hinv as (Hlen & _).
  apply (cell_value_scatterv_fit size P _ r c _ Hfit Hlen Hc). lia.
Qed.

End MpiTurnFit.

Lemma valid_layout_fits size P : valid_layout size P -> counts_fit size P.
Proof.
  intros (Hs & HP & Hint). unfold counts_fit. unfold INT_MAX in *.
  pose proof (chunk_rows_range size P 0 ltac:(lia) ltac:(lia) ltac:(lia)) as HR.
  pose proof (chunk_first_range size P (P - 1) ltac:(lia) ltac:(lia) ltac:(lia))
    as HF.
  pose proof (chunk_first_range size P 1 ltac:(lia) ltac:(lia) ltac:(lia)) as H1.
  pose proof (chunk_first_succ size P 0 ltac:(lia)) as Hsucc.
  change (0 + 1) with 1 in Hsucc. rewrite Hsucc in H1.
  pose proof (chunk_first_range size P 0 ltac:(lia) ltac:(lia) ltac:(lia)) as H0.
  repeat split; try lia; nia.
Qed.

(** ** C5: what a worker writes *)

(** C5. Pthread program: at every head of the coordinator's loop, after
    the workers' pass every cell assigned to a worker is an interior cell
    and holds, in the buffer behind the worker's [new_matrix], the sum of
    its left, right, upper and lower neighbours in the buffer behind
    [original_matrix], divided by 4; no flag enters the statement. The
    buffer read is the grid of the iteration before: in the first turn
    [original_matrix] is the initial grid, and when a turn has not reached
    the precision the next head of the loop is reached with every worker
    keeping its run and reading, through [original_matrix], the buffer it
    wrote through [new_matrix] in that turn (and writing the one it read),
    so that the next turn stores the averages of the values just written.
    MPI program (counts within [int]): after a turn every cell of rows 1 to
    size-2 that is not the first or last of its row holds the sum of its
    upper, lower, left and right neighbours in the matrix before the turn,
    divided by 4; the matrix before the first turn is the input and the
    matrix before turn n+1 is the one gathered in turn n. *)
Theorem assigned_cells_get_the_average :
  (forall RAND_MAX rand size_arg precision_arg threads_arg n sa a st t q,
     reachable RAND_MAX rand size_arg precision_arg threads_arg n sa a st ->
     t ∈ Pthread.thread_data st ->
     q ∈ assigned (Pthread.size sa) t ->
     let cur := Pthread.load st (Pthread.original_matrix t) in
     let i := fst q in
     let j := snd q in
     interior (Pthread.size sa) q
     /\ Pthread.rd (Pthread.load (Pthread.compute_phase sa st)
                      (Pthread.new_matrix t)) i j
        = ((Pthread.rd cur i (j - 1) + Pthread.rd cur i (j + 1)
            + Pthread.rd cur (i - 1) j + Pthread.rd cur (i + 1) j) / 4)%float)
  /\ (forall RAND_MAX rand size_arg precision_arg threads_arg sa a st t,
        reachable RAND_MAX rand size_arg precision_arg threads_arg 0 sa a st ->
        t ∈ Pthread.thread_data st ->
        Pthread.load st (Pthread.original_matrix t) = a)
  /\ (forall RAND_MAX rand size_arg precision_arg threads_arg n sa a st,
        reachable RAND_MAX rand size_arg precision_arg threads_arg n sa a st ->
        Pthread.PRECISION_REACHED (Pthread.iteration sa st) = false ->
        let written := Pthread.compute_phase sa st in
        let st' := Pthread.continue_phase sa (Pthread.iteration sa st) in
        reachable RAND_MAX rand size_arg precision_arg threads_arg (S n) sa a st'
        /\ forall (k : nat) t, Pthread.thread_data st !! k = Some t ->
             exists t', Pthread.thread_data st' !! k = Some t'
               /\ Pthread.id t' = Pthread.id t
               /\ assigned (Pthread.size sa) t' = assigned (Pthread.size sa) t
               /\ Pthread.load st' (Pthread.original_matrix t')
                  = Pthread.load written (Pthread.new_matrix t)
               /\ Pthread.load st' (Pthread.new_matrix t')
                  = Pthread.load st (Pthread.original_matrix t)
               /\ forall q, q ∈ assigned (Pthread.size sa) t' ->
                    let prev := Pthread.load written (Pthread.new_matrix t) in
                    let i := fst q in
                    let j := snd q in
                    Pthread.rd (Pthread.load (Pthread.compute_phase sa st')
                                  (Pthread.new_matrix t')) i j
                    = ((Pthread.rd prev i (j - 1) + Pthread.rd prev i (j + 1)
                        + Pthread.rd prev (i - 1) j + Pthread.rd prev (i + 1) j)
                       / 4)%float)
  /\ (forall size P precision st p,
        counts_fit size P ->
        mpi_invariant size P st ->
        size <= p < size * (size - 1) ->
        p mod size <> 0 -> (p + 1) mod size <> 0 ->
        let m := Mpi.matrix st in
        Mpi.rd (Mpi.matrix (Mpi.iteration size precision (Mpi.layout size P) st))
               p
        = ((Mpi.rd m (p - size) + Mpi.rd m (p + size)
            + Mpi.rd m (p - 1) + Mpi.rd m (p + 1)) / 4)%float)
  /\ (forall size P precision (m : list float) (n : nat) p,
        counts_fit size P ->
        Z.of_nat (length m) = size * size ->
        size <= p < size * (size - 1) ->
        p mod size <> 0 -> (p + 1) mod size <> 0 ->
        let after k :=
          Mpi.matrix (Mpi.after_iterations k size precision (Mpi.layout size P)
                        (Mpi.initial_state m (Mpi.layout size P))) in
        after 0%nat = m
        /\ Mpi.rd (after (S n)) p
           = ((Mpi.rd (after n) (p - size) + Mpi.rd (after n) (p + size)
               + Mpi.rd (after n) (p - 1) + Mpi.rd (after n) (p + 1)) / 4)%float).
Proof.
  assert (Hpass : forall RAND_MAX rand size_arg precision_arg threads_arg n
                         sa a st t q,
            reachable RAND_MAX rand size_arg precision_arg threads_arg n sa a st ->
            t ∈ Pthread.thread_data st ->
            q ∈ assigned (Pthread.size sa) t ->
            interior (Pthread.size sa) q
            /\ Pthread.rd (Pthread.load (Pthread.compute_phase sa st)
                             (Pthread.new_matrix t)) (fst q) (snd q)
               = Pthread.new_value (Pthread.load st (Pthread.original_matrix t))
                   (fst q) (snd q)).
  { intros RAND_MAX rand size_arg precision_arg threads_arg n sa a st t q
      Hreach Ht Hq.
    destruct (reachable_invariant _ _ _ _ _ _ _ _ _ Hreach) as (_ & _ & Hinv).
    pose proof (inv_runs _ _ _ Hinv) as Hruns.
    rewrite Forall_forall in Hruns. specialize (Hruns t Ht).
    rewrite run_interior_assigned in Hruns.
    split; [apply Hruns; exact Hq|].
    destruct (compute_phase_effect sa a st Hinv)
      as (o & nw & Hne & Hall & _ & _ & _ & _ & Hwr & _).
    destruct (Hall t Ht) as [Ho Hnw]. rewrite Ho, Hnw.
    apply Hwr. apply assigned_cells_elem. exists t. split; assumption. }
  assert (Hturn : forall size P precision st p,
            counts_fit size P ->
            mpi_invariant size P st ->
            size <= p < size * (size - 1) ->
            p mod size <> 0 -> (p + 1) mod size <> 0 ->
            Mpi.rd (Mpi.matrix
                      (Mpi.iteration size precision (Mpi.layout size P) st)) p
            = Mpi.new_value (Mpi.matrix st) size p).
  { intros size P precision st p Hfit Hinv Hp Hl Hr.
    rewrite (mpi_turn_fit size P precision Hfit st p Hinv Hp).
    unfold cell_value, on_edge.
    destruct (Z.eqb_spec (p mod size) 0); [contradiction|].
    destruct (Z.eqb_spec ((p + 1) mod size) 0); [contradiction|].
    reflexivity. }
  split; [|split; [|split; [|split]]].
  - intros RAND_MAX rand size_arg precision_arg threads_arg n sa a st t q
      Hreach Ht Hq cur i j.
    apply (Hpass _ _ _ _ _ _ _ _ _ t q Hreach Ht Hq).
  - intros RAND_MAX rand size_arg precision_arg threads_arg sa a st t Hreach Ht.
    destruct (reachable_pointers _ _ _ _ _ _ _ _ _ Hreach t Ht) as [Ho _].
    destruct (reachable_initial _ _ _ _ _ _ _ _ _ Hreach)
      as (tds & st0 & _ & _ & _ & Hm0 & _ & _ & Hhead).
    cbn [Pthread.loop_head] in Hhead. injection Hhead as <-.
    rewrite Ho. exact Hm0.
  - intros RAND_MAX rand size_arg precision_arg threads_arg n sa a st
      Hreach Hpr written st'.
    pose proof (reachable_next _ _ _ _ _ _ _ _ _ Hreach Hpr) as Hnext.
    fold st' in Hnext. split; [exact Hnext|].
    intros k t Hk.
    assert (Ht : t ∈ Pthread.thread_data st)
      by (apply list_elem_of_lookup; eauto).
    assert (Hk' : Pthread.thread_data st' !! k = Some (Pthread.swap_matrices t)).
    { unfold st'. cbn [Pthread.continue_phase Pthread.thread_data].
      rewrite iteration_thread_data.
      change (map ?f ?l) with (f <$> l).
      rewrite list_lookup_fmap, Hk. reflexivity. }
    exists (Pthread.swap_matrices t).
    assert (Hread : Pthread.load st' (Pthread.new_matrix t)
                    = Pthread.load written (Pthread.new_matrix t)).
    { unfold st'. rewrite continue_phase_load. apply iteration_load. }
    destruct (reachable_invariant _ _ _ _ _ _ _ _ _ Hreach) as (_ & _ & Hinv).
    destruct (compute_phase_effect sa a st Hinv)
      as (o & nw & Hne & Hall & Hkeep & _).
    cbv zeta in Hkeep. destruct (Hall t Ht) as [Ho Hnw].
    split; [exact Hk'|]. split; [reflexivity|]. split; [reflexivity|].
    split; [exact Hread|]. split.
    + cbn [Pthread.swap_matrices Pthread.new_matrix].
      unfold st'. rewrite continue_phase_load, iteration_load, Ho.
      exact Hkeep.
    + intros q Hq prev i j.
      destruct (Hpass _ _ _ _ _ _ _ _ _ (Pthread.swap_matrices t) q Hnext)
        as [_ Hval]; [apply list_elem_of_lookup; eauto|exact Hq|].
      cbn [Pthread.swap_matrices Pthread.original_matrix] in Hval.
      rewrite Hread in Hval. exact Hval.
  - intros size P precision st p Hfit Hinv Hp Hl Hr m.
    apply (Hturn size P precision st p Hfit Hinv Hp Hl Hr).
  - intros size P precision m n p Hfit Hlen Hp Hl Hr after.
    split; [reflexivity|].
    unfold after. rewrite after_iterations_S.
    apply (Hturn size P precision _ p Hfit); try assumption.
    apply mpi_after_iterations_invariant_fit; [exact Hfit|].
    apply mpi_initial_invariant_fit; assumption.
Qed.

(** C5 on the first two turns of [./average_parallel 4 0.0078125 2], cell
    (2,2) of thread 1: the first turn averages the initial grid, the second
    the buffer the first turn wrote; and on the first two turns of the MPI
    program on a 5x5 grid with two processes, cell (1,1), whose upper and
    left neighbours are 1. *)
Lemma assigned_cells_get_the_average_witness :
  (exists sa a st t t',
     head_of_run INT_MAX sample_rand 4 0.0078125%float 2 0 = Some (sa, a, st)
     /\ Pthread.PRECISION_REACHED (Pthread.iteration sa st) = false
     /\ Pthread.thread_data st !! 1%nat = Some t
     /\ (2, 2) ∈ assigned (Pthread.size sa) t
     /\ Pthread.load st (Pthread.original_matrix t) = a
     /\ Pthread.rd (Pthread.load (Pthread.compute_phase sa st)
                      (Pthread.new_matrix t)) 2 2
        = ((Pthread.rd a 2 (2 - 1) + Pthread.rd a 2 (2 + 1)
            + Pthread.rd a (2 - 1) 2 + Pthread.rd a (2 + 1) 2) / 4)%float
     /\ Pthread.thread_data
          (Pthread.continue_phase sa (Pthread.iteration sa st)) !! 1%nat
        = Some t'
     /\ Pthread.load (Pthread.continue_phase sa (Pthread.iteration sa st))
          (Pthread.original_matrix t')
        = Pthread.load (Pthread.compute_phase sa st) (Pthread.new_matrix t)
     /\ Pthread.rd
          (Pthread.load
             (Pthread.compute_phase sa
                (Pthread.continue_phase sa (Pthread.iteration sa st)))
             (Pthread.new_matrix t')) 2 2
        = ((Pthread.rd (Pthread.load (Pthread.compute_phase sa st)
                          (Pthread.new_matrix t)) 2 (2 - 1)
            + Pthread.rd (Pthread.load (Pthread.compute_phase sa st)
                            (Pthread.new_matrix t)) 2 (2 + 1)
            + Pthread.rd (Pthread.load (Pthread.compute_phase sa st)
                            (Pthread.new_matrix t)) (2 - 1) 2
            + Pthread.rd (Pthread.load (Pthread.compute_phase sa st)
                            (Pthread.new_matrix t)) (2 + 1) 2) / 4)%float)
  /\ (Mpi.rd (Mpi.matrix
                (Mpi.after_iterations 1 5 0.0078125%float (Mpi.layout 5 2)
                   (Mpi.initial_state (Mpi.matrix_init 5) (Mpi.layout 5 2)))) 6
      = ((Mpi.rd (Mpi.matrix_init 5) (6 - 5) + Mpi.rd (Mpi.matrix_init 5) (6 + 5)
          + Mpi.rd (Mpi.matrix_init 5) (6 - 1) + Mpi.rd (Mpi.matrix_init 5) (6 + 1))
         / 4)%float
      /\ Mpi.rd (Mpi.matrix
                   (Mpi.after_iterations 2 5 0.0078125%float (Mpi.layout 5 2)
                      (Mpi.initial_state (Mpi.matrix_init 5) (Mpi.layout 5 2)))) 6
         = ((Mpi.rd (Mpi.matrix
                       (Mpi.after_iterations 1 5 0.0078125%float (Mpi.layout 5 2)
                          (Mpi.initial_state (Mpi.matrix_init 5) (Mpi.layout 5 2))))
                    (6 - 5)
             + Mpi.rd (Mpi.matrix
                         (Mpi.after_iterations 1 5 0.0078125%float (Mpi.layout 5 2)
                            (Mpi.initial_state (Mpi.matrix_init 5)
                               (Mpi.layout 5 2))))
                      (6 + 5)
             + Mpi.rd (Mpi.matrix
                         (Mpi.after_iterations 1 5 0.0078125%float (Mpi.layout 5 2)
                            (Mpi.initial_state (Mpi.matrix_init 5)
                               (Mpi.layout 5 2))))
                      (6 - 1)
             + Mpi.rd (Mpi.matrix
                         (Mpi.after_iterations 1 5 0.0078125%float (Mpi.layout 5 2)
                            (Mpi.initial_state (Mpi.matrix_init 5)
                               (Mpi.layout 5 2))))
                      (6 + 1))
            / 4)%float).
Proof.
  destruct assigned_cells_get_the_average
    as (Hpass & Hfirst & Hnext & _ & Hmpi).
  split.
  - destruct (head_of_run INT_MAX sample_rand 4 0.0078125%float 2 0)
      as [[[sa a] st]|] eqn:Hrun; [|vm_compute in Hrun; discriminate Hrun].
    assert (Hreach : reachable INT_MAX sample_rand 4 0.0078125%float 2 0 sa a st)
      by (apply head_of_run_reachable; [unfold INT_MAX; lia|exact Hrun]).
    assert (Hpr : Pthread.PRECISION_REACHED (Pthread.iteration sa st) = false).
    { vm_compute in Hrun. injection Hrun as <- _ <-. vm_compute. reflexivity. }
    destruct (Pthread.thread_data st !! 1%nat) as [t|] eqn:Ht;
      [|vm_compute in Hrun; injection Hrun as _ _ <-; vm_compute in Ht;
        discriminate Ht].
    assert (Hin : t ∈ Pthread.thread_data st)
      by (apply list_elem_of_lookup; eauto).
    assert (Hq : (2, 2) ∈ assigned (Pthread.size sa) t).
    { vm_compute in Hrun. injection Hrun as <- _ <-. vm_compute in Ht.
      injection Ht as <-. vm_compute. apply list_elem_of_further.
      apply list_elem_of_here. }
    destruct (Hnext _ _ _ _ _ _ _ _ _ Hreach Hpr) as [_ Hthreads].
    destruct (Hthreads 1%nat t Ht) as (t' & Ht' & _ & Hsame & Hread & _ & Hval).
    exists sa, a, st, t, t'.
    split; [reflexivity|]. split; [exact Hpr|]. split; [exact Ht|].
    split; [exact Hq|].
    pose proof (Hfirst _ _ _ _ _ _ _ _ t Hreach Hin) as Ha.
    split; [exact Ha|]. split.
    + destruct (Hpass _ _ _ _ _ _ _ _ _ t (2, 2) Hreach Hin Hq) as [_ Hv].
      cbn [fst snd] in Hv. rewrite Ha in Hv. exact Hv.
    + split; [exact Ht'|]. split; [exact Hread|].
      apply (Hval (2, 2)). rewrite Hsame. exact Hq.
  - assert (Hfit : counts_fit 5 2)
      by (unfold counts_fit, INT_MAX; repeat split; vm_compute; discriminate).
    split.
    + apply (proj2 (Hmpi 5 2 0.0078125%float (Mpi.matrix_init 5) 0%nat 6 Hfit
                      eq_refl ltac:(lia)
                      ltac:(vm_compute; discriminate)
                      ltac:(vm_compute; discriminate))).
    + apply (proj2 (Hmpi 5 2 0.0078125%float (Mpi.matrix_init 5) 1%nat 6 Hfit
                      eq_refl ltac:(lia)
                      ltac:(vm_compute; discriminate)
                      ltac:(vm_compute; discriminate))).
Defined.
